(** * Client-side scripts of the weather site: a shallow embedding

    The development follows the two scripts of the repository,
    [static/js/script.js] (contact form, counters, debounced scroll
    listeners, guarded initialisers) and [script.js] (menu toggle, anchor
    click handler, gallery modal), and states the properties of the
    specification over them.

    Conventions.
    - A JavaScript string is the list of its UTF-16 code units.
    - The browser's timer table is explicit state: [setTimeout] allocates a
      fresh handle, [clearTimeout] drops the entry with that handle, the event
      loop runs the callbacks that are due. Times and delays are whole
      milliseconds; [setTimeout] reads its delay as a signed 32-bit integer.
    - The numbers of the counter animation are IEEE 754 doubles (binary64),
      with the division, addition and comparison of the standard.
    - A DOM lookup that may return [null] is an [option]; dereferencing
      [null] is the [TypeError] outcome of the statement that does it. *)

From Stdlib Require Import ZArith List Bool Lia String Ascii.
From Stdlib Require Import Floats.SpecFloat.
Import ListNotations.

Local Open Scope Z_scope.

(* ------------------------------------------------------------------ *)
(** * The timer table and [debounce] ([static/js/script.js], 391-399)  *)
(* ------------------------------------------------------------------ *)

Module Debounce.

(** The delay of [setTimeout] is a WebIDL [long]: the number handed over
    is reduced modulo 2^32 into the range from -2^31 to 2^31 - 1. *)
Definition toInt32 (n : Z) : Z := (n + 2 ^ 31) mod 2 ^ 32 - 2 ^ 31.

(** The time a timer set with delay [ms] waits: the delay as a [long],
    a negative one counting as 0. *)
Definition timeout (ms : Z) : Z := Z.max 0 (toInt32 ms).

Section WithCallback.

(** The argument vector of one call of the wrapped callback. *)
Variable A : Type.

(** [delay], the second parameter of [debounce], in milliseconds. *)
Variable delay : Z.

(** When a timer is due at the very millisecond at which an event is
    dispatched, the order of the two tasks is the browser's choice:
    [timer_first = true] runs the timer before the event. *)
Variable timer_first : bool.

(** One entry of the timer table: the arrow function
    [() => func.apply(this, args)] is determined by [args]. *)
Record timer : Type := mkTimer {
  tid : nat;
  due : Z;
  targs : A
}.

(** The window: timer table, handle counter, and the record of the calls
    of [func] made so far (time of the call, arguments). *)
Record window : Type := mkWindow {
  next_id : nat;
  pending : list timer;
  invoked : list (Z * A)
}.

(** The closure created by [debounce(func, delay)]: the captured
    variable [timeoutId] ([None] is [undefined]) next to the window
    it acts on. *)
Record state : Type := mkState {
  timeoutId : option nat;
  win : window
}.

(** [setTimeout(cb, ms)] at time [now]: the timer is due [timeout ms]
    later. *)
Definition setTimeout (now : Z) (a : A) (ms : Z) (w : window) : nat * window :=
  let id := next_id w in
  (id, {| next_id := S id;
          pending := pending w ++ [ {| tid := id; due := now + timeout ms; targs := a |} ];
          invoked := invoked w |}).

(** [clearTimeout(id)]: [undefined] and stale handles are ignored. *)
Definition clearTimeout (id : option nat) (w : window) : window :=
  match id with
  | None => w
  | Some i =>
      {| next_id := next_id w;
         pending := filter (fun tm => negb (Nat.eqb (tid tm) i)) (pending w);
         invoked := invoked w |}
  end.

(** The function returned by [debounce], called at time [now] with
    arguments [args]. *)
Definition wrapped (now : Z) (args : A) (st : state) : state :=
  let w1 := clearTimeout (timeoutId st) (win st) in
  let '(id, w2) := setTimeout now args delay w1 in
  {| timeoutId := Some id; win := w2 |}.

(** [debounce(func, delay)] on a window: [let timeoutId;]. *)
Definition debounce (w : window) : state :=
  {| timeoutId := None; win := w |}.

(** ** The event loop *)

Definition is_due (t : Z) (tm : timer) : bool :=
  if timer_first then due tm <=? t else due tm <? t.

(** Timers run in the order of their due times, earlier handles first
    among equals. *)
Fixpoint insert_by_due (x : timer) (l : list timer) : list timer :=
  match l with
  | [] => [x]
  | y :: l' => if due x <=? due y then x :: y :: l' else y :: insert_by_due x l'
  end.

Definition sort_by_due (l : list timer) : list timer :=
  fold_right insert_by_due [] l.

Definition fire (tm : timer) : Z * A := (due tm, targs tm).

(** Time passes up to [t]: every timer that is due runs [func]. *)
Definition elapse (t : Z) (w : window) : window :=
  let '(ready, rest) := partition (is_due t) (pending w) in
  {| next_id := next_id w;
     pending := rest;
     invoked := invoked w ++ map fire (sort_by_due ready) |}.

(** Time passes without bound: every pending timer runs. *)
Definition drain (w : window) : window :=
  {| next_id := next_id w;
     pending := [];
     invoked := invoked w ++ map fire (sort_by_due (pending w)) |}.

Inductive event : Type :=
  | Call (t : Z) (args : A)     (* the wrapped callback is called at [t] *)
  | Elapse (t : Z).             (* nothing happens until [t] *)

Definition step (st : state) (e : event) : state :=
  match e with
  | Call t args =>
      wrapped t args {| timeoutId := timeoutId st; win := elapse t (win st) |}
  | Elapse t => {| timeoutId := timeoutId st; win := elapse t (win st) |}
  end.

Definition exec (es : list event) (st : state) : state :=
  fold_left step es st.

Definition fresh_window : window :=
  {| next_id := 1; pending := []; invoked := [] |}.

Definition call_event (c : Z * A) : event := Call (fst c) (snd c).

(** The calls of [func] caused by the calls [cs] of the wrapped callback,
    once every timer has run. *)
Definition run (cs : list (Z * A)) : list (Z * A) :=
  invoked (drain (win (exec (map call_event cs) (debounce fresh_window)))).

(** Every two consecutive elements of [l] are related by [R]. *)
Fixpoint consecutive (R : Z -> Z -> Prop) (l : list Z) : Prop :=
  match l with
  | [] => True
  | x :: l' =>
      match l' with
      | [] => True
      | y :: _ => R x y /\ consecutive R l'
      end
  end.

(** Strictly less than [delay] apart. *)
Definition closer (t t' : Z) : Prop := t' - t < delay.

(** Strictly more than [delay] apart. *)
Definition farther (t t' : Z) : Prop := delay < t' - t.

(** The burst rule as the specification words it: after calls that are
    each less than [delay] after the one before, [func] has run exactly
    once, with the arguments of the last call, no sooner than [delay]
    after it. *)
Definition once_as_stated (c : Z * A) (cs : list (Z * A)) : Prop :=
  consecutive closer (map fst (c :: cs)) ->
  exists t,
    fst (last cs c) + delay <= t /\
    run (c :: cs) = [ (t, snd (last cs c)) ].

(** The spacing rule as the specification words it: calls more than
    [delay] apart give one invocation each. *)
Definition each_as_stated (cs : list (Z * A)) : Prop :=
  consecutive farther (map fst cs) ->
  List.length (run cs) = List.length cs.

(** The instance owns at most one timer, and [timeoutId] is its handle. *)
Definition at_most_one (st : state) : Prop :=
  (List.length (pending (win st)) <= 1)%nat /\
  (forall tm, In tm (pending (win st)) -> timeoutId st = Some (tid tm)).

(** The handles in the table are older than the next handle. *)
Definition handles_fresh (st : state) : Prop :=
  forall tm, In tm (pending (win st)) -> (tid tm < next_id (win st))%nat.

(** The claim of one timer at every point: exactly one is pending. *)
Definition exactly_one (st : state) : Prop :=
  List.length (pending (win st)) = 1%nat.

(** Right after a call at [t] with [args]: one timer, [timeout delay]
    ahead, carrying [args]. *)
Definition just_scheduled (t : Z) (args : A) (st : state) : Prop :=
  exists id,
    timeoutId st = Some id /\
    pending (win st) = [ {| tid := id; due := t + timeout delay; targs := args |} ].

(** The timer that a call at [fst c] with arguments [snd c] schedules
    under handle [i]. *)
Definition scheduled (i : nat) (c : Z * A) : timer :=
  {| tid := i; due := fst c + timeout delay; targs := snd c |}.

(** What a call causes when it is left alone: [func] runs
    [timeout delay] later with the arguments of the call. *)
Definition own_invocation (c : Z * A) : Z * A := (fst c + timeout delay, snd c).

End WithCallback.

Arguments mkTimer {A}.
Arguments tid {A}.
Arguments due {A}.
Arguments targs {A}.
Arguments mkWindow {A}.
Arguments next_id {A}.
Arguments pending {A}.
Arguments invoked {A}.
Arguments mkState {A}.
Arguments timeoutId {A}.
Arguments win {A}.
Arguments Call {A}.
Arguments Elapse {A}.
Arguments fresh_window {A}.
Arguments debounce {A}.
Arguments drain {A}.
Arguments consecutive R l : clear implicits.

End Debounce.

(* ------------------------------------------------------------------ *)
(** * JavaScript strings                                               *)
(* ------------------------------------------------------------------ *)

Module Js.

(** A string is the sequence of its UTF-16 code units. *)
Definition jsstring : Type := list N.

(** An ASCII literal as a JavaScript string. *)
Definition str (s : string) : jsstring :=
  map N_of_ascii (list_ascii_of_string s).

Definition eqb (s t : jsstring) : bool :=
  if list_eq_dec N.eq_dec s t then true else false.

(** WhiteSpace and LineTerminator of ECMAScript: what [trim] strips and
    what [\s] matches. All of them are single code units. *)
Definition isWhiteSpace (c : N) : bool :=
  ((9 <=? c) && (c <=? 13)          (* TAB LF VT FF CR *)
   || (c =? 32)                     (* SPACE *)
   || (c =? 160)                    (* NO-BREAK SPACE *)
   || (c =? 0x1680)
   || ((0x2000 <=? c) && (c <=? 0x200a))
   || (c =? 0x2028) || (c =? 0x2029)
   || (c =? 0x202f) || (c =? 0x205f)
   || (c =? 0x3000)
   || (c =? 0xfeff))%N.

Fixpoint trimStart (s : jsstring) : jsstring :=
  match s with
  | [] => []
  | c :: s' => if isWhiteSpace c then trimStart s' else s
  end.

Definition trimEnd (s : jsstring) : jsstring :=
  rev (trimStart (rev s)).

(** [String.prototype.trim]. *)
Definition trim (s : jsstring) : jsstring :=
  trimEnd (trimStart s).

(** ToBoolean of a string: only the empty string is falsy. *)
Definition truthy (s : jsstring) : bool :=
  match s with
  | [] => false
  | _ :: _ => true
  end.

(** ** [DOMTokenList]: an ordered set of class names *)

Definition classList_contains (tok : jsstring) (cl : list jsstring) : bool :=
  existsb (eqb tok) cl.

Definition classList_add (tok : jsstring) (cl : list jsstring) : list jsstring :=
  if classList_contains tok cl then cl else cl ++ [tok].

Definition classList_remove (tok : jsstring) (cl : list jsstring) : list jsstring :=
  filter (fun c => negb (eqb tok c)) cl.

(** ** Regular expressions, matched by derivatives *)

Inductive regex : Type :=
  | Void                                   (* matches nothing *)
  | Eps                                    (* the empty string *)
  | Class (p : N -> bool)                  (* one code unit of a class *)
  | Seq (r1 r2 : regex)
  | Alt (r1 r2 : regex)
  | Star (r : regex).

Definition Plus (r : regex) : regex := Seq r (Star r).

Fixpoint nullable (r : regex) : bool :=
  match r with
  | Void => false
  | Eps => true
  | Class _ => false
  | Seq r1 r2 => nullable r1 && nullable r2
  | Alt r1 r2 => nullable r1 || nullable r2
  | Star _ => true
  end.

Fixpoint deriv (c : N) (r : regex) : regex :=
  match r with
  | Void => Void
  | Eps => Void
  | Class p => if p c then Eps else Void
  | Seq r1 r2 =>
      if nullable r1
      then Alt (Seq (deriv c r1) r2) (deriv c r2)
      else Seq (deriv c r1) r2
  | Alt r1 r2 => Alt (deriv c r1) (deriv c r2)
  | Star r1 => Seq (deriv c r1) (Star r1)
  end.

(** [/^r$/.test(s)]: the whole of [s] is a word of [r]. *)
Fixpoint test (r : regex) (s : jsstring) : bool :=
  match s with
  | [] => nullable r
  | c :: s' => test (deriv c r) s'
  end.

(** The words of a regular expression. *)
Inductive words : regex -> jsstring -> Prop :=
  | w_eps : words Eps []
  | w_class p c : p c = true -> words (Class p) [c]
  | w_seq r1 r2 s1 s2 : words r1 s1 -> words r2 s2 -> words (Seq r1 r2) (s1 ++ s2)
  | w_alt_l r1 r2 s : words r1 s -> words (Alt r1 r2) s
  | w_alt_r r1 r2 s : words r2 s -> words (Alt r1 r2) s
  | w_star_nil r : words (Star r) []
  | w_star_cons r s1 s2 : words r s1 -> words (Star r) s2 -> words (Star r) (s1 ++ s2).

End Js.

(* ------------------------------------------------------------------ *)
(** * Statements that may throw                                        *)
(* ------------------------------------------------------------------ *)

Module Stmt.

Section WithState.

Variable S : Type.

(** A statement changes the state and completes normally with a
    value, or throws ([None]); what it did before throwing stays. *)
Definition M (X : Type) : Type := S -> option X * S.

Definition ret {X} (x : X) : M X := fun w => (Some x, w).

Definition bind {X Y} (m : M X) (k : X -> M Y) : M Y :=
  fun w =>
    match m w with
    | (Some x, w1) => k x w1
    | (None, w1) => (None, w1)
    end.

Definition throw {X} : M X := fun w => (None, w).

(** [try { body } catch { handler }] *)
Definition try_catch {X} (body handler : M X) : M X :=
  fun w =>
    match body w with
    | (Some x, w1) => (Some x, w1)
    | (None, w1) => handler w1
    end.

(** [try { body } finally { fin }] *)
Definition try_finally {X} (body : M X) (fin : M unit) : M X :=
  fun w =>
    match body w with
    | (r, w1) =>
        match fin w1 with
        | (Some _, w2) => (r, w2)
        | (None, w2) => (None, w2)
        end
    end.

(** [if (c) { m }] *)
Definition when (c : bool) (m : M unit) : M unit :=
  if c then m else ret tt.

(** [xs.forEach(x => body(x))] *)
Fixpoint forEach {X} (xs : list X) (body : X -> M unit) : M unit :=
  match xs with
  | [] => ret tt
  | x :: xs' => bind (body x) (fun _ => forEach xs' body)
  end.

(** The statement never throws. *)
Definition completes (m : M unit) : Prop :=
  forall w, exists w', m w = (Some tt, w').

End WithState.

Arguments completes {S}.
Arguments ret {S X}.
Arguments bind {S X Y}.
Arguments throw {S X}.
Arguments try_catch {S X}.
Arguments try_finally {S X}.
Arguments when {S}.
Arguments forEach {S X}.

Declare Scope stmt_scope.
Delimit Scope stmt_scope with stmt.
Notation "x <- m ;; k" := (bind m (fun x => k))
  (at level 61, m at next level, right associativity) : stmt_scope.
Notation "m ;; k" := (bind m (fun _ => k))
  (at level 61, right associativity) : stmt_scope.

End Stmt.

(* ------------------------------------------------------------------ *)
(** * The contact form ([static/js/script.js], 42-153)                 *)
(* ------------------------------------------------------------------ *)

Module Form.
Import Js.
Import Stmt.
Local Open Scope stmt_scope.

(** ** The DOM the form code touches *)

(** A form control of the document. [in_form]: it is a descendant of
    [#contactForm]; [required]: it matches [[required]]; [email_input]:
    it matches [input[type="email"]]. *)
Record field : Type := mkField {
  id : jsstring;
  in_form : bool;
  required : bool;
  email_input : bool;
  value : jsstring;
  defaultValue : jsstring;
  classList : list jsstring
}.

Definition set_classList (cl : list jsstring) (f : field) : field :=
  {| id := id f; in_form := in_form f; required := required f;
     email_input := email_input f; value := value f;
     defaultValue := defaultValue f; classList := cl |}.

Definition set_value (v : jsstring) (f : field) : field :=
  {| id := id f; in_form := in_form f; required := required f;
     email_input := email_input f; value := v;
     defaultValue := defaultValue f; classList := classList f |}.

Record button : Type := mkButton {
  button_innerHTML : jsstring;
  disabled : bool
}.

Record div : Type := mkDiv {
  innerHTML : jsstring;
  display : jsstring            (* [style.display] *)
}.

(** The document: its form controls in document order, the result of
    [contactForm.querySelector('button[type="submit"]')], and the
    element with id [formResponse]; [None] is [null]. *)
Record page : Type := mkPage {
  controls : list field;
  submitButton : option button;
  formResponse : option div
}.

Definition is_invalid : jsstring := str "is-invalid".

(** ** [validateForm] *)

(** The body of [requiredFields.forEach], on one control. *)
Definition check_required (f : field) (isValid : bool) : field * bool :=
  if in_form f && required f then
    if negb (truthy (trim (value f)))
    then (set_classList (classList_add is_invalid (classList f)) f, false)
    else (set_classList (classList_remove is_invalid (classList f)) f, isValid)
  else (f, isValid).

Fixpoint forEach_required (fs : list field) (isValid : bool) : list field * bool :=
  match fs with
  | [] => ([], isValid)
  | f :: fs' =>
      let '(f1, v1) := check_required f isValid in
      let '(fs1, v2) := forEach_required fs' v1 in
      (f1 :: fs1, v2)
  end.

Definition notSpaceAt (c : N) : bool :=
  negb (isWhiteSpace c) && negb (c =? 64)%N.

(** [/^[^\s@]+@[^\s@]+\.[^\s@]+$/] *)
Definition emailPattern : regex :=
  Seq (Plus (Class notSpaceAt))
    (Seq (Class (N.eqb 64))
       (Seq (Plus (Class notSpaceAt))
          (Seq (Class (N.eqb 46))
             (Plus (Class notSpaceAt))))).

(** The email check on the first control that matches
    [input[type="email"]] inside the form. *)
Fixpoint check_email (fs : list field) (isValid : bool) : list field * bool :=
  match fs with
  | [] => ([], isValid)                           (* [emailField] is [null] *)
  | f :: fs' =>
      if in_form f && email_input f then          (* [emailField] is [f] *)
        if truthy (trim (value f)) then
          if negb (test emailPattern (trim (value f)))
          then (set_classList (classList_add is_invalid (classList f)) f :: fs', false)
          else (f :: fs', isValid)
        else (f :: fs', isValid)
      else
        let '(fs1, v) := check_email fs' isValid in
        (f :: fs1, v)
  end.

Definition validateForm (fs : list field) : bool * list field :=
  let isValid := true in
  let '(fs1, isValid1) := forEach_required fs isValid in
  let '(fs2, isValid2) := check_email fs1 isValid1 in
  (isValid2, fs2).

(** [form.querySelector('input[type="email"]')]. *)
Definition emailField (fs : list field) : option field :=
  find (fun f => in_form f && email_input f) fs.

(** ** What [validateForm] checks, control by control *)

(** The trimmed value is empty. *)
Definition blank (f : field) : bool :=
  negb (truthy (trim (value f))).

(** The trimmed value is not empty and fails [emailPattern]. *)
Definition malformed (f : field) : bool :=
  truthy (trim (value f)) && negb (test emailPattern (trim (value f))).

Definition required_ok (f : field) : bool :=
  negb (in_form f && required f && blank f).

Definition mark_required (f : field) : field :=
  if in_form f && required f then
    if blank f
    then set_classList (classList_add is_invalid (classList f)) f
    else set_classList (classList_remove is_invalid (classList f)) f
  else f.

Definition email_ok (fs : list field) : bool :=
  match emailField fs with
  | None => true
  | Some f => negb (malformed f)
  end.

(** The position of [emailField] among the controls. *)
Fixpoint email_index (fs : list field) : option nat :=
  match fs with
  | [] => None
  | f :: fs' =>
      if in_form f && email_input f then Some O
      else option_map S (email_index fs')
  end.

Definition is_email_index (fs : list field) (i : nat) : bool :=
  match email_index fs with
  | Some j => Nat.eqb i j
  | None => false
  end.

Fixpoint mark_email (fs : list field) : list field :=
  match fs with
  | [] => []
  | f :: fs' =>
      if in_form f && email_input f then
        (if malformed f
         then set_classList (classList_add is_invalid (classList f)) f
         else f) :: fs'
      else f :: mark_email fs'
  end.

(** The reading of the validity rule that takes "non-empty" and "matches"
    on the values as they are, without trimming. *)
Definition valid_as_stated (fs : list field) : Prop :=
  (forall f, In f fs -> in_form f = true -> required f = true -> value f <> []) /\
  (forall f, emailField fs = Some f -> value f <> [] ->
             test emailPattern (value f) = true).

(** The same reading of the marking rule: after validation a required
    control carries [is-invalid] exactly when its value is empty. *)
Definition marked_as_stated (fs fs' : list field) : Prop :=
  forall i f f',
    nth_error fs i = Some f -> nth_error fs' i = Some f' ->
    in_form f = true -> required f = true ->
    (classList_contains is_invalid (classList f') = true <-> value f = []).

(** The rule the code implements: trimmed values. *)
Definition valid_trimmed (fs : list field) : Prop :=
  (forall f, In f fs -> in_form f = true -> required f = true -> trim (value f) <> []) /\
  (forall f, emailField fs = Some f -> trim (value f) <> [] ->
             test emailPattern (trim (value f)) = true).

(** ** The submit handler *)

Record formData : Type := mkFormData {
  fd_name : jsstring;
  fd_email : jsstring;
  fd_phone : jsstring;
  fd_inquiry : jsstring;
  fd_message : jsstring
}.

Inductive effect : Type :=
  | PreventDefault
  | Send (data : formData)             (* [emailjs.send(...)] is called *)
  | ConsoleError
  | ScrollIntoView
  | HideAfter (ms : Z).                (* [setTimeout(hide, ms)] *)

Record world : Type := mkWorld {
  doc : page;
  trace : list effect
}.

Definition M (X : Type) : Type := Stmt.M world X.

Definition emit (e : effect) : M unit :=
  fun w => (Some tt, {| doc := doc w; trace := trace w ++ [e] |}).

Definition get_page : M page := fun w => (Some (doc w), w).

Definition put_page (p : page) : M unit :=
  fun w => (Some tt, {| doc := p; trace := trace w |}).

Definition dq : jsstring := [34%N].            (* the double quote *)

Definition loadingHTML : jsstring :=
  str "<i class=" ++ dq ++ str "fas fa-spinner fa-spin me-2" ++ dq
    ++ str "></i>Sending...".

(** [setButtonLoading(button, isLoading, originalText = null)];
    [button] is the submit button of the form, possibly [null]. *)
Definition setButtonLoading (isLoading : bool) (originalText : option jsstring) : M unit :=
  p <- get_page ;;
  match submitButton p with
  | None => throw
  | Some _ =>
      let b :=
        if isLoading
        then {| button_innerHTML := loadingHTML; disabled := true |}
        else {| button_innerHTML := match originalText with Some t => t | None => [] end;
                disabled := false |} in
      put_page {| controls := controls p; submitButton := Some b;
                  formResponse := formResponse p |}
  end.

Definition responseHTML (success : bool) (message : jsstring) : jsstring :=
  let icon := if success then str "check-circle" else str "exclamation-circle" in
  let alertClass := if success then str "alert-success" else str "alert-danger" in
  str "<div class=" ++ dq ++ str "alert " ++ alertClass ++ dq
    ++ str "><i class=" ++ dq ++ str "fas fa-" ++ icon ++ str " me-2" ++ dq
    ++ str "></i>" ++ message ++ str "</div>".

(** [showFormResponse(success, message)] *)
Definition showFormResponse (success : bool) (message : jsstring) : M unit :=
  p <- get_page ;;
  match formResponse p with
  | None => ret tt
  | Some _ =>
      put_page {| controls := controls p; submitButton := submitButton p;
                  formResponse :=
                    Some {| innerHTML := responseHTML success message;
                            display := str "block" |} |}
  end.

Definition successMessage : jsstring :=
  str "Your message has been sent successfully! We will get back to you soon.".

Definition failureMessage : jsstring :=
  str "Sorry, there was an error sending your message. Please try again later.".

(** [document.getElementById(i).value] *)
Definition value_of (i : string) : M jsstring :=
  p <- get_page ;;
  match find (fun f => eqb (id f) (str i)) (controls p) with
  | None => throw
  | Some f => ret (value f)
  end.

(** [contactForm.reset()] *)
Definition reset : M unit :=
  p <- get_page ;;
  put_page {| controls := map (fun f => if in_form f then set_value (defaultValue f) f else f)
                             (controls p);
              submitButton := submitButton p;
              formResponse := formResponse p |}.

(** [validateForm(contactForm)], on the controls of the page. *)
Definition validate : M bool :=
  p <- get_page ;;
  let '(isValid, fs) := validateForm (controls p) in
  put_page {| controls := fs; submitButton := submitButton p;
              formResponse := formResponse p |} ;;
  ret isValid.

(** The EmailJS service as a submission finds it. *)
Inductive service : Type :=
  | Missing      (* the global [emailjs] is not defined: the library did not load *)
  | Fails        (* [emailjs.send] is called and the send fails *)
  | Delivers.    (* [emailjs.send] is called and its promise is fulfilled *)

(** [emailjs.send] gets called. *)
Definition called (svc : service) : bool :=
  match svc with
  | Missing => false
  | Fails | Delivers => true
  end.

(** The [await] returns normally. *)
Definition fulfilled (svc : service) : bool :=
  match svc with
  | Delivers => true
  | Missing | Fails => false
  end.

(** [await emailjs.send(...)]. Without the library, evaluating
    [emailjs.send] throws a [ReferenceError] before any call is made. *)
Definition emailjs_send (svc : service) (data : formData) : M unit :=
  match svc with
  | Missing => throw
  | Fails => emit (Send data) ;; throw
  | Delivers => emit (Send data) ;; ret tt
  end.

(** The [submit] listener installed by [initContactForm]. *)
Definition onSubmit (svc : service) : M unit :=
  emit PreventDefault ;;
  isValid <- validate ;;
  if negb isValid then ret tt else
  p <- get_page ;;
  originalButtonText <-
    match submitButton p with
    | None => throw
    | Some b => ret (button_innerHTML b)
    end ;;
  setButtonLoading true None ;;
  name <- value_of "name" ;;
  email <- value_of "email" ;;
  phone <- value_of "phone" ;;
  inquiry <- value_of "inquiry" ;;
  message <- value_of "message" ;;
  let data := {| fd_name := trim name; fd_email := trim email;
                 fd_phone := trim phone; fd_inquiry := inquiry;
                 fd_message := trim message |} in
  try_finally
    (try_catch
       (emailjs_send svc data ;;
        showFormResponse true successMessage ;;
        reset)
       (emit ConsoleError ;;
        showFormResponse false failureMessage))
    (setButtonLoading false (Some originalButtonText) ;;
     q <- get_page ;;
     match formResponse q with
     | None => ret tt
     | Some _ => emit ScrollIntoView ;; emit (HideAfter 5000)
     end).

(** [document.getElementById(i)] finds a control. *)
Definition has_control (i : string) (p : page) : Prop :=
  exists f, find (fun f => eqb (id f) (str i)) (controls p) = Some f.

(** The failure message is on display in [#formResponse]. *)
Definition shows_failure (p : page) : Prop :=
  formResponse p =
    Some {| innerHTML := responseHTML false failureMessage; display := str "block" |}.

(** [f'] is [f] up to its classes. *)
Definition same_data (f f' : field) : Prop :=
  id f' = id f /\ value f' = value f.

(** One submission of the form on page [p]. *)
Definition submit (svc : service) (p : page) : option unit * world :=
  onSubmit svc {| doc := p; trace := [] |}.

Definition is_send (e : effect) : bool :=
  match e with
  | Send _ => true
  | _ => false
  end.

(** The number of calls of [emailjs.send] in a trace. *)
Definition sends (tr : list effect) : nat :=
  List.length (filter is_send tr).

(** Claim C7 read literally: a submission that passes validation makes
    one send, and a failed send puts the failure message on display. *)
Definition reported_as_stated (svc : service) (p : page) : Prop :=
  fst (validateForm (controls p)) = true ->
  sends (trace (snd (submit svc p))) = 1%nat /\
  (fulfilled svc = false -> shows_failure (doc (snd (submit svc p)))).

(** ** Sample pages *)

Definition text_control (i : string) (req : bool) (v : string) : field :=
  {| id := str i; in_form := true; required := req; email_input := false;
     value := str v; defaultValue := []; classList := [str "form-control"] |}.

Definition email_control (req : bool) (v : string) : field :=
  {| id := str "email"; in_form := true; required := req; email_input := true;
     value := str v; defaultValue := []; classList := [str "form-control"] |}.

Definition filled_controls : list field :=
  [ text_control "name" true "Ann";
    email_control true "ann@example.org";
    text_control "phone" false EmptyString;
    text_control "inquiry" true "booking";
    text_control "message" true "Hello" ].

Definition send_button : button :=
  {| button_innerHTML := str "Send"; disabled := false |}.

Definition hidden_response : div :=
  {| innerHTML := []; display := str "none" |}.

Definition page_complete : page :=
  {| controls := filled_controls; submitButton := Some send_button;
     formResponse := Some hidden_response |}.

(** The same page without the [#formResponse] container. *)
Definition page_without_response : page :=
  {| controls := filled_controls; submitButton := Some send_button;
     formResponse := None |}.

(** The same page with an [<input type="submit">] in place of the
    [<button type="submit">]. *)
Definition page_without_button : page :=
  {| controls := filled_controls; submitButton := None;
     formResponse := Some hidden_response |}.

(** The complete page with [v] typed into the name control. *)
Definition page_with_name (v : string) : page :=
  {| controls :=
       [ text_control "name" true v;
         email_control true "ann@example.org";
         text_control "phone" false EmptyString;
         text_control "inquiry" true "booking";
         text_control "message" true "Hello" ];
     submitButton := Some send_button;
     formResponse := Some hidden_response |}.

End Form.

(* ------------------------------------------------------------------ *)
(** * The counter animation ([static/js/script.js], 158-199)           *)
(* ------------------------------------------------------------------ *)

Module Counter.

(** The numbers of JavaScript are the doubles of IEEE 754: binary64,
    that is a precision of 53 bits and exponents up to 1024. [target],
    [increment] and [count] are such numbers, and [/], [+] and [<]
    round and compare as the standard has it. *)
Definition number : Type := spec_float.

(** The literal [0]. *)
Definition zero : number := S754_zero false.

(** The double nearest to a whole number. *)
Definition of_Z (n : Z) : number := binary_normalize 53 1024 n 0 false.

(** [a / b] *)
Definition div (a b : number) : number := SFdiv 53 1024 a b.

(** [a + b] *)
Definition add (a b : number) : number := SFadd 53 1024 a b.

(** [a < b]; false as soon as one side is [NaN]. *)
Definition lt (a b : number) : bool := SFltb a b.

(** [Math.ceil]: a double with no fractional bits is its own ceiling;
    otherwise the whole part of the magnitude, taken upwards. A
    negative number above -1 gives -0. *)
Definition ceil (x : number) : number :=
  match x with
  | S754_finite s m e =>
      if 0 <=? e then x
      else
        let q := Zpos m / 2 ^ (- e) in
        if s then binary_normalize 53 1024 (- q) 0 true
        else binary_normalize 53 1024
               (if Zpos m mod 2 ^ (- e) =? 0 then q else q + 1) 0 false
  | _ => x
  end.

(** What [parseInt] can return, and so what [initCounters] passes as
    [target]: [NaN], a whole number that is a double (the one nearest
    to the digits read), or an infinity when the digits are too many. *)
Definition parsed (x : number) : bool :=
  match x with
  | S754_finite _ m e =>
      bounded 53 1024 m e && ((0 <=? e) || (Zpos m mod 2 ^ (- e) =? 0))
  | _ => true
  end.

(** The numbers above 0. *)
Definition above_zero (x : number) : bool :=
  match x with
  | S754_infinity false | S754_finite false _ _ => true
  | _ => false
  end.

(** The closure of [animateCounter]: its constants [target] and
    [increment], the variable [count], the number shown by the counter
    element, and whether [requestAnimationFrame(updateCount)] is
    outstanding. *)
Record animation : Type := mkAnimation {
  target : number;
  increment : number;
  count : number;
  innerText : number;
  requested : bool
}.

Definition updateCount (a : animation) : animation :=
  if lt (count a) (target a) then
    let count' := add (count a) (increment a) in
    {| target := target a; increment := increment a;
       count := count';
       innerText := ceil count';
       requested := true |}
  else
    {| target := target a; increment := increment a;
       count := count a;
       innerText := target a;
       requested := false |}.

(** [animateCounter(counter, target, speed)] on a counter that shows
    [shown]. *)
Definition animateCounter (shown : number) (target : number) (speed : number) : animation :=
  {| target := target;
     increment := div target speed;
     count := zero;
     innerText := shown;
     requested := true |}.

(** [const speed = 200] in [initCounters]. *)
Definition speed : number := of_Z 200.

(** One animation frame: the browser runs the requested callback. *)
Definition frame (a : animation) : animation :=
  if requested a then updateCount a else a.

Fixpoint frames (n : nat) (a : animation) : animation :=
  match n with
  | O => a
  | S n' => frames n' (frame a)
  end.

(** The animation has stopped and the counter shows [t]. *)
Definition stopped_at (t : number) (a : animation) : Prop :=
  requested a = false /\ innerText a = t.

(** The positive double with mantissa [m] and exponent [e], counted in
    units of 2^-1074, the smallest positive double. *)
Definition units (m : positive) (e : Z) : Z := Zpos m * 2 ^ (e + 1074).

(** A normal double: a mantissa of 53 bits and an exponent in range. *)
Definition normal (m : positive) (e : Z) : Prop :=
  Zpos (digits2_pos m) = 53 /\ -1074 <= e <= 971.

(** The double 200, bit by bit. *)
Definition two_hundred : number := S754_finite false 7036874417766400 (-45).

(** The animation towards [T] after [k] frames, all of which have
    counted: [count] is a normal double within [k * t / 2^51] of [k]
    increments, [t] and [i] being the target and the increment in
    units. *)
Definition counting_at (T inc : number) (t i k : Z) (a : animation) : Prop :=
  target a = T /\ increment a = inc /\ requested a = true /\
  innerText a = ceil (count a) /\
  exists m e,
    count a = S754_finite false m e /\ normal m e /\
    2 ^ 51 * Z.abs (units m e - k * i) <= k * t.

(** The smallest positive double, 2^-1074. *)
Definition tiny : number := S754_finite false 1 (-1074).

End Counter.

(* ------------------------------------------------------------------ *)
(** * Initialisation of [static/js/script.js] (lines 2-25 and the
      [init...] functions)                                             *)
(* ------------------------------------------------------------------ *)

Module Init.
Import Stmt.
Local Open Scope stmt_scope.

(** What the page offers when [DOMContentLoaded] fires: the results of
    the lookups the initialisers make, and the libraries that are
    loaded. *)
Record env : Type := mkEnv {
  AOS_loaded : bool;
  emailjs_loaded : bool;
  lightbox_loaded : bool;              (* [typeof lightbox !== 'undefined'] *)
  bootstrap_loaded : bool;             (* [typeof bootstrap !== 'undefined'] *)
  carousel_constructs : bool;          (* [new bootstrap.Carousel] returns *)
  contactForm : bool;                  (* [#contactForm] exists *)
  counters : nat;                      (* number of [.counter] elements *)
  anchors : nat;                       (* number of [a[href^="#"]] *)
  backToTopButton : bool;              (* [.back-to-top] exists *)
  header : bool;                       (* [.header] exists *)
  navbarToggler : bool;                (* [.navbar-toggler] exists *)
  navbar : bool;                       (* [#navbarNav] exists *)
  animatedElements : nat;              (* [.fade-in, .slide-in, .scale-in] *)
  testimonialCarousel : bool;          (* [#testimonialCarousel] exists *)
  dropdowns : nat                      (* [.navbar .dropdown] *)
}.

(** What an initialiser leaves behind. *)
Inductive installed : Type :=
  | AOSInit
  | EmailJSInit
  | ConsoleError
  | FormSubmit                           (* [submit] on [#contactForm] *)
  | CounterObserved (i : nat)
  | LightboxOption
  | AnchorClick (i : nat)
  | BackToTopScroll                      (* debounced [scroll] on [window] *)
  | BackToTopClick
  | StickyScroll                         (* debounced [scroll] on [window] *)
  | TogglerClick
  | OutsideClick                         (* [click] on [document] *)
  | AnimationObserved (i : nat)
  | Carousel
  | DropdownEnter (i : nat)
  | DropdownLeave (i : nat).

Definition M (X : Type) : Type := Stmt.M (list installed) X.

Definition install (x : installed) : M unit :=
  fun l => (Some tt, l ++ [x]).

Definition initEmailJS (e : env) : M unit :=
  try_catch
    (if emailjs_loaded e then install EmailJSInit else throw)
    (install ConsoleError).

Definition initContactForm (e : env) : M unit :=
  if negb (contactForm e) then ret tt else
  install FormSubmit.

Definition initCounters (e : env) : M unit :=
  if (counters e =? 0)%nat then ret tt else
  forEach (seq 0 (counters e)) (fun i => install (CounterObserved i)).

Definition initLightbox (e : env) : M unit :=
  if negb (lightbox_loaded e) then ret tt else
  install LightboxOption.

Definition initSmoothScrolling (e : env) : M unit :=
  forEach (seq 0 (anchors e)) (fun i => install (AnchorClick i)).

Definition initBackToTop (e : env) : M unit :=
  if negb (backToTopButton e) then ret tt else
  install BackToTopScroll ;;
  install BackToTopClick.

Definition initStickyHeader (e : env) : M unit :=
  if negb (header e) then ret tt else
  install StickyScroll.

Definition initMobileMenu (e : env) : M unit :=
  if negb (navbarToggler e) || negb (navbar e) then ret tt else
  install TogglerClick ;;
  install OutsideClick.

Definition initAnimations (e : env) : M unit :=
  if (animatedElements e =? 0)%nat then ret tt else
  forEach (seq 0 (animatedElements e)) (fun i => install (AnimationObserved i)).

Definition initTestimonialCarousel (e : env) : M unit :=
  if negb (testimonialCarousel e) || negb (bootstrap_loaded e) then ret tt else
  try_catch
    (if carousel_constructs e then install Carousel else throw)
    (install ConsoleError).

Definition initHoverDropdowns (e : env) : M unit :=
  if (dropdowns e =? 0)%nat then ret tt else
  forEach (seq 0 (dropdowns e))
    (fun i => install (DropdownEnter i) ;; install (DropdownLeave i)).

(** The [DOMContentLoaded] listener. *)
Definition onDOMContentLoaded (e : env) : M unit :=
  (if AOS_loaded e then install AOSInit else throw) ;;
  initEmailJS e ;;
  initContactForm e ;;
  initCounters e ;;
  initLightbox e ;;
  initSmoothScrolling e ;;
  initBackToTop e ;;
  initStickyHeader e ;;
  initMobileMenu e ;;
  initAnimations e ;;
  initTestimonialCarousel e ;;
  initHoverDropdowns e.

End Init.

(* ------------------------------------------------------------------ *)
(** * [script.js]: the top-level script and the anchor click handler   *)
(* ------------------------------------------------------------------ *)

Module Script.
Import Js.
Import Stmt.
Local Open Scope stmt_scope.

(** The result of [document.querySelector(sel)]. *)
Inductive selected : Type :=
  | Found (i : nat)
  | Null
  | SyntaxError.                         (* [sel] is not a valid selector *)

(** The document: elements are named by numbers; [classes] and
    [offsetTop] are their attributes, the other fields are the results
    of the lookups of the script ([None] is [null]). *)
Record dom : Type := mkDom {
  classes : nat -> list jsstring;
  offsetTop : nat -> Z;
  menuToggle : option nat;             (* [#menuToggle] *)
  navLinks : option nat;               (* [#navLinks] *)
  bars : list nat;                     (* [.bar] *)
  anchors : list (nat * jsstring);     (* [a[href^="#"]] with their [href] *)
  nav_anchors : list nat;              (* [.nav-links a] *)
  querySelector : jsstring -> selected;
  galleryItems : list nat;             (* [.gallery-image] *)
  modal : option nat;                  (* [#imageModal] *)
  modalImg : option nat;               (* [#modalImage] *)
  closeModal : option nat;             (* [.close-modal] *)
  contactForm : option nat             (* [#contactForm] *)
}.

(** ** The top-level statements *)

Inductive listener : Type :=
  | MenuToggleClick
  | AnchorClick (a : nat)
  | GalleryClick (g : nat)
  | CloseModalClick
  | WindowClick
  | FormSubmit
  | WindowScroll.

Definition T (X : Type) : Type := Stmt.M (list listener) X.

Definition addEventListener (l : listener) : T unit :=
  fun ls => (Some tt, ls ++ [l]).

(** [target.addEventListener(...)] on the result of a lookup. *)
Definition on (target : option nat) (l : listener) : T unit :=
  match target with
  | None => throw
  | Some _ => addEventListener l
  end.

(** The script, statement by statement. *)
Definition script (d : dom) : T unit :=
  on (menuToggle d) MenuToggleClick ;;
  forEach (anchors d) (fun a => addEventListener (AnchorClick (fst a))) ;;
  forEach (galleryItems d) (fun g => addEventListener (GalleryClick g)) ;;
  on (closeModal d) CloseModalClick ;;
  addEventListener WindowClick ;;
  when (match contactForm d with Some _ => true | None => false end)
    (addEventListener FormSubmit) ;;
  addEventListener WindowScroll.

(** Loading the script on a page. *)
Definition load (d : dom) : option unit * list listener :=
  script d [].

(** ** The click handler of the anchors *)

Record state : Type := mkState {
  page : dom;
  defaultPrevented : bool;
  scrolls : list Z                     (* the [top] of each [window.scrollTo] *)
}.

Definition H (X : Type) : Type := Stmt.M state X.

Definition set_classes (i : nat) (cl : list jsstring) (d : dom) : dom :=
  {| classes := fun j => if Nat.eqb j i then cl else classes d j;
     offsetTop := offsetTop d;
     menuToggle := menuToggle d; navLinks := navLinks d; bars := bars d;
     anchors := anchors d; nav_anchors := nav_anchors d;
     querySelector := querySelector d; galleryItems := galleryItems d;
     modal := modal d; modalImg := modalImg d; closeModal := closeModal d;
     contactForm := contactForm d |}.

Definition preventDefault : H unit :=
  fun s => (Some tt, {| page := page s; defaultPrevented := true; scrolls := scrolls s |}).

Definition scrollTo (top : Z) : H unit :=
  fun s => (Some tt, {| page := page s; defaultPrevented := defaultPrevented s;
                        scrolls := scrolls s ++ [top] |}).

Definition get_dom : H dom := fun s => (Some (page s), s).

(** [el.classList.remove(tok)] *)
Definition remove_class (el : nat) (tok : jsstring) : H unit :=
  fun s => (Some tt,
            {| page := set_classes el (classList_remove tok (classes (page s) el)) (page s);
               defaultPrevented := defaultPrevented s; scrolls := scrolls s |}).

(** [el.classList.add(tok)] *)
Definition add_class (el : nat) (tok : jsstring) : H unit :=
  fun s => (Some tt,
            {| page := set_classes el (classList_add tok (classes (page s) el)) (page s);
               defaultPrevented := defaultPrevented s; scrolls := scrolls s |}).

Definition show : jsstring := str "show".
Definition active : jsstring := str "active".

(** The listener of one anchor: [this] is the anchor, [href] the value
    of its [href] attribute. *)
Definition onAnchorClick (this : nat) (href : jsstring) : H unit :=
  preventDefault ;;
  d <- get_dom ;;
  nav <- match navLinks d with None => throw | Some n => ret n end ;;
  when (classList_contains show (classes d nav)) (remove_class nav show) ;;
  let targetId := href in
  if eqb targetId (str "#") then ret tt else
  d1 <- get_dom ;;
  match querySelector d1 targetId with
  | SyntaxError => throw
  | Null => ret tt
  | Found targetElement =>
      scrollTo (offsetTop d1 targetElement - 90) ;;
      forEach (nav_anchors d1) (fun link => remove_class link active) ;;
      add_class this active
  end.

(** A click on anchor [this] of page [d]. *)
Definition click (this : nat) (href : jsstring) (d : dom) : option unit * state :=
  onAnchorClick this href {| page := d; defaultPrevented := false; scrolls := [] |}.

(** ** Sample pages *)

(** A page with every element the script looks up: a toggle (0), the
    menu (1), two anchors (2, 3) of which the first is a menu link, a
    gallery image (4), the modal (5), its image (6), its close button (7)
    and the contact form (8). *)
Definition page_full : dom :=
  {| classes := fun i => if Nat.eqb i 1 then [str "nav-links"; show]
                         else if Nat.eqb i 2 then [active] else [];
     offsetTop := fun _ => 600;
     menuToggle := Some 0%nat;
     navLinks := Some 1%nat;
     bars := [];
     anchors := [(2%nat, str "#"); (3%nat, str "#contact")];
     nav_anchors := [2%nat];
     querySelector := fun sel => if eqb sel (str "#contact") then Found 8 else Null;
     galleryItems := [4%nat];
     modal := Some 5%nat;
     modalImg := Some 6%nat;
     closeModal := Some 7%nat;
     contactForm := Some 8%nat |}.

(** The same page without the [#menuToggle] element. *)
Definition page_without_menuToggle : dom :=
  {| classes := classes page_full; offsetTop := offsetTop page_full;
     menuToggle := None;
     navLinks := navLinks page_full; bars := bars page_full;
     anchors := anchors page_full; nav_anchors := nav_anchors page_full;
     querySelector := querySelector page_full;
     galleryItems := galleryItems page_full;
     modal := modal page_full; modalImg := modalImg page_full;
     closeModal := closeModal page_full;
     contactForm := contactForm page_full |}.

(** The same page without the gallery modal: no image, no [#imageModal],
    no [.close-modal]. *)
Definition page_without_gallery : dom :=
  {| classes := classes page_full; offsetTop := offsetTop page_full;
     menuToggle := menuToggle page_full;
     navLinks := navLinks page_full; bars := bars page_full;
     anchors := anchors page_full; nav_anchors := nav_anchors page_full;
     querySelector := querySelector page_full;
     galleryItems := [];
     modal := None; modalImg := None;
     closeModal := None;
     contactForm := contactForm page_full |}.

End Script.

(* ------------------------------------------------------------------ *)
(** * Which calls of a debounced callback are delivered                *)
(* ------------------------------------------------------------------ *)

Module Delivery.

Section WithCallback.

Variable A : Type.
Variable delay : Z.
Variable timer_first : bool.

(** The invocation of [func] that the call [c] (time, arguments) has
    scheduled: [setTimeout] waits [Debounce.timeout delay]. *)
Definition delivered (c : Z * A) : Z * A :=
  (fst c + Debounce.timeout delay, snd c).

(** The timer of the call [c] has run when the event loop reaches an
    event at [t]. *)
Definition ready (t : Z) (c : Z * A) : bool :=
  if timer_first
  then fst c + Debounce.timeout delay <=? t
  else fst c + Debounce.timeout delay <? t.

(** The calls whose timer is not cancelled: the last one, and each one
    whose timer has run before the next call arrives. *)
Fixpoint survivors (cs : list (Z * A)) : list (Z * A) :=
  match cs with
  | [] => []
  | c :: cs' =>
      match cs' with
      | [] => [c]
      | c' :: _ => if ready (fst c') c then c :: survivors cs' else survivors cs'
      end
  end.

End WithCallback.

End Delivery.

(* ------------------------------------------------------------------ *)
(** * The debounced scroll listeners ([static/js/script.js], 246-276)  *)
(* ------------------------------------------------------------------ *)

Module ScrollListeners.
Import Js.

(** [classList.toggle(tok, force)] *)
Definition classList_toggle_force (tok : jsstring) (force : bool)
    (cl : list jsstring) : list jsstring :=
  if force then classList_add tok cl else classList_remove tok cl.

(** The callback handed to [debounce]:
    [el.classList.toggle(tok, window.pageYOffset > threshold)]. *)
Definition onScroll (threshold : Z) (tok : jsstring) (pageYOffset : Z)
    (cl : list jsstring) : list jsstring :=
  classList_toggle_force tok (pageYOffset >? threshold) cl.

(** [initBackToTop]: the button gets [show] beyond 300 pixels. *)
Definition backToTop_onScroll : Z -> list jsstring -> list jsstring :=
  onScroll 300 (str "show").

(** [initStickyHeader]: the header gets [sticky] beyond 100 pixels. *)
Definition stickyHeader_onScroll : Z -> list jsstring -> list jsstring :=
  onScroll 100 (str "sticky").

(** The delay both initialisers pass to [debounce]. *)
Definition delay : Z := 50.

Section WithListener.

(** The callback, as a function of the scroll position it reads when it
    runs and of the class list it toggles. *)
Variable callback : Z -> list jsstring -> list jsstring.

Variable timer_first : bool.

(** The window as the listener sees it: the scroll position, the class
    list of the element, and the debounced closure with its timers. *)
Record view : Type := mkView {
  pageYOffset : Z;
  classes : list jsstring;
  timers : Debounce.state unit
}.

(** The callback runs once for every invocation recorded after the
    first [n], reading the scroll position [y] of that moment. *)
Definition run_fired (n : nat) (w : Debounce.window unit) (y : Z)
    (cl : list jsstring) : list jsstring :=
  fold_left (fun cl' _ => callback y cl') (skipn n (Debounce.invoked w)) cl.

(** The page is scrolled to [y] at time [t]: the timers due by then run
    first, on the old position; then the position changes and the
    [scroll] event calls the debounced listener. *)
Definition scroll (v : view) (e : Z * Z) : view :=
  let t := fst e in
  let y := snd e in
  let w := Debounce.win (timers v) in
  let w1 := Debounce.elapse unit timer_first t w in
  {| pageYOffset := y;
     classes := run_fired (List.length (Debounce.invoked w)) w1 (pageYOffset v) (classes v);
     timers := Debounce.wrapped unit delay t tt
                 {| Debounce.timeoutId := Debounce.timeoutId (timers v);
                    Debounce.win := w1 |} |}.

(** Scrolling has stopped: the pending timer runs. *)
Definition settle (v : view) : view :=
  let w := Debounce.win (timers v) in
  let w1 := Debounce.drain w in
  {| pageYOffset := pageYOffset v;
     classes := run_fired (List.length (Debounce.invoked w)) w1 (pageYOffset v) (classes v);
     timers := {| Debounce.timeoutId := Debounce.timeoutId (timers v);
                  Debounce.win := w1 |} |}.

(** The page as loaded, at position [y0], the element with classes
    [cl0], the listener just installed. *)
Definition loaded (y0 : Z) (cl0 : list jsstring) : view :=
  {| pageYOffset := y0; classes := cl0;
     timers := Debounce.debounce Debounce.fresh_window |}.

(** The classes of the element after the scroll events [es] (time,
    position) and the quiet period that follows them. *)
Definition after_scrolling (y0 : Z) (cl0 : list jsstring) (es : list (Z * Z)) : list jsstring :=
  classes (settle (fold_left scroll es (loaded y0 cl0))).

(** The debounced closure keeps one timer pending. *)
Definition armed (v : view) : Prop :=
  exists tm,
    Debounce.pending (Debounce.win (timers v)) = [tm] /\
    Debounce.timeoutId (timers v) = Some (Debounce.tid tm).

End WithListener.

End ScrollListeners.

(* ------------------------------------------------------------------ *)
(** * What a submission of the contact form needs and sends            *)
(* ------------------------------------------------------------------ *)

Module Submission.
Import Js.
Import Form.

(** [document.getElementById(i)], among the controls. *)
Definition getElementById (i : string) (fs : list field) : option field :=
  find (fun f => eqb (id f) (str i)) fs.

Definition present {X : Type} (o : option X) : bool :=
  match o with
  | Some _ => true
  | None => false
  end.

(** The five controls the handler reads are in the document. *)
Definition inputs_present (fs : list field) : bool :=
  present (getElementById "name" fs) && present (getElementById "email" fs)
  && present (getElementById "phone" fs) && present (getElementById "inquiry" fs)
  && present (getElementById "message" fs).

(** The submission gets as far as the call of [emailjs.send]. *)
Definition reaches_send (p : page) : bool :=
  fst (validateForm (controls p)) && present (submitButton p)
  && inputs_present (controls p).

(** The [formData] object built from the controls: every value trimmed
    but the one of [inquiry]. *)
Definition payload (fs : list field) : option formData :=
  match getElementById "name" fs, getElementById "email" fs,
        getElementById "phone" fs, getElementById "inquiry" fs,
        getElementById "message" fs with
  | Some n, Some e, Some ph, Some i, Some m =>
      Some {| fd_name := trim (value n); fd_email := trim (value e);
              fd_phone := trim (value ph); fd_inquiry := value i;
              fd_message := trim (value m) |}
  | _, _, _, _, _ => None
  end.

(** What [contactForm.reset()] does to one control. *)
Definition reset_control (f : field) : field :=
  if in_form f then set_value (defaultValue f) f else f.

(** The submit button while the send is under way. *)
Definition loading_button : button :=
  {| button_innerHTML := loadingHTML; disabled := true |}.

(** The complete page with the [phone] control taken out. *)
Definition page_without_phone : page :=
  {| controls :=
       [ text_control "name" true "Ann";
         email_control true "ann@example.org";
         text_control "inquiry" true "booking";
         text_control "message" true "Hello" ];
     submitButton := Some send_button;
     formResponse := Some hidden_response |}.

(** An optional email input that carries [is-invalid] from an earlier
    validation and now holds a well-formed address. *)
Definition corrected_optional_email : field :=
  {| id := str "email"; in_form := true; required := false; email_input := true;
     value := str "ann@example.org"; defaultValue := [];
     classList := [str "form-control"; is_invalid] |}.

End Submission.

(* ------------------------------------------------------------------ *)
(** * [script.js]: the menu toggle and the scroll highlight            *)
(* ------------------------------------------------------------------ *)

Module Nav.
Import Js.
Import Stmt.
Import Script.
Local Open Scope stmt_scope.

(** [classList.toggle(tok)] *)
Definition classList_toggle (tok : jsstring) (cl : list jsstring) : list jsstring :=
  if classList_contains tok cl then classList_remove tok cl else classList_add tok cl.

(** [el.classList.toggle(tok)] *)
Definition toggle_class (el : nat) (tok : jsstring) : H unit :=
  fun s => (Some tt,
            {| page := set_classes el (classList_toggle tok (classes (page s) el)) (page s);
               defaultPrevented := defaultPrevented s; scrolls := scrolls s |}).

Definition animate : jsstring := str "animate".

(** The [click] listener of [#menuToggle] (lines 5-11). *)
Definition onMenuToggleClick : H unit :=
  d <- get_dom ;;
  nav <- match navLinks d with None => throw | Some n => ret n end ;;
  toggle_class nav show ;;
  d1 <- get_dom ;;
  forEach (bars d1) (fun bar => toggle_class bar animate).

(** The page after one click on the menu toggle. *)
Definition menu_click (d : dom) : dom :=
  page (snd (onMenuToggleClick {| page := d; defaultPrevented := false; scrolls := [] |})).

(** A [section] element: its [offsetTop], its [clientHeight] and its
    [id] attribute ([None] when it has none). *)
Record section : Type := mkSection {
  section_offsetTop : Z;
  section_clientHeight : Z;
  section_id : option jsstring
}.

(** ['#' + section.getAttribute('id')]; [null] is written out. *)
Definition hash_of (i : option jsstring) : jsstring :=
  str "#" ++ match i with Some s => s | None => str "null" end.

(** The test of the scroll listener on one section. *)
Definition in_view (pageYOffset : Z) (sec : section) : bool :=
  let sectionTop := section_offsetTop sec - 100 in
  let sectionHeight := section_clientHeight sec in
  (sectionTop <=? pageYOffset) && (pageYOffset <? sectionTop + sectionHeight).

(** [current] after [sections.forEach(...)], from [let current = '']. *)
Definition current (pageYOffset : Z) (sections : list section) : jsstring :=
  fold_left (fun cur sec => if in_view pageYOffset sec then hash_of (section_id sec) else cur)
    sections [].

(** [link.getAttribute('href') === current] *)
Definition href_is (href : nat -> option jsstring) (cur : jsstring) (link : nat) : bool :=
  match href link with
  | Some h => eqb h cur
  | None => false
  end.

(** The [scroll] listener of the window (lines 76-96), on a page with
    the given sections and [href] attributes, scrolled to
    [pageYOffset]. *)
Definition onWindowScroll (sections : list section) (href : nat -> option jsstring)
    (pageYOffset : Z) : H unit :=
  d <- get_dom ;;
  let cur := current pageYOffset sections in
  forEach (nav_anchors d)
    (fun link =>
       remove_class link active ;;
       when (href_is href cur link) (add_class link active)).

(** The page after the listener has run. *)
Definition highlight (sections : list section) (href : nat -> option jsstring)
    (pageYOffset : Z) (d : dom) : dom :=
  page (snd (onWindowScroll sections href pageYOffset
               {| page := d; defaultPrevented := false; scrolls := [] |})).

(** The lookups of the script give the same on [d'] as on [d]. *)
Definition same_lookups (d d' : dom) : Prop :=
  navLinks d' = navLinks d /\ bars d' = bars d /\ nav_anchors d' = nav_anchors d /\
  querySelector d' = querySelector d /\ offsetTop d' = offsetTop d.

(** The state [s'] is [s] but for the class list of [el], which is what
    [g] makes of it. *)
Definition updated (el : nat) (g : list jsstring -> list jsstring) (s s' : state) : Prop :=
  defaultPrevented s' = defaultPrevented s /\
  scrolls s' = scrolls s /\
  same_lookups (page s) (page s') /\
  forall i, classes (page s') i
            = if Nat.eqb i el then g (classes (page s) el) else classes (page s) i.

(** The statement [m] completes and only rewrites the class list of
    [el] by [g]. *)
Definition updates (m : H unit) (el : nat) (g : list jsstring -> list jsstring) : Prop :=
  forall s, exists s', m s = (Some tt, s') /\ updated el g s s'.

(** Element [i] of page [d] carries the class [tok]. *)
Definition has_class (d : dom) (i : nat) (tok : jsstring) : bool :=
  classList_contains tok (classes d i).

(** The last section in view, if any. *)
Definition section_in_view (pageYOffset : Z) (sections : list section) : option section :=
  last (map Some (filter (in_view pageYOffset) sections)) None.

End Nav.

(* ------------------------------------------------------------------ *)
(** * The hover dropdowns ([static/js/script.js], 350-383)             *)
(* ------------------------------------------------------------------ *)

Module Hover.
Import Js.

Definition show : jsstring := str "show".

(** One [.dropdown] of the navbar: its classes, the classes of its
    [.dropdown-menu], and the [data-bs-popper] attribute of the menu. *)
Record dropdown : Type := mkDropdown {
  dropdown_classes : list jsstring;
  menu_classes : list jsstring;
  popper : option jsstring
}.

(** The callback [handleDropdownHover] hands to [setTimeout], for the
    value [isHovered] had when the event was handled. *)
Definition toggle_shown (isHovered : bool) (dd : dropdown) : dropdown :=
  {| dropdown_classes :=
       ScrollListeners.classList_toggle_force show isHovered (dropdown_classes dd);
     menu_classes :=
       ScrollListeners.classList_toggle_force show isHovered (menu_classes dd);
     popper := if isHovered then Some (str "static") else popper dd |}.

Section WithPage.

(** [window.innerWidth], and whether the dropdown has a
    [.dropdown-menu]. *)
Variable innerWidth : Z.
Variable has_menu : bool.

Variable timer_first : bool.

(** [handleDropdownHover(e)] at time [t]; [isHovered] is
    [dropdown.matches(':hover')] at that moment. *)
Definition handleDropdownHover (t : Z) (isHovered : bool)
    (w : Debounce.window bool) : Debounce.window bool :=
  if innerWidth <=? 992 then w else
  if negb has_menu then w else
  snd (Debounce.setTimeout bool t isHovered 30 w).

(** The dropdown and the timer table. *)
Record view : Type := mkView {
  element : dropdown;
  table : Debounce.window bool
}.

(** The callbacks recorded after the first [n] run, in order. *)
Definition run_fired (n : nat) (w : Debounce.window bool) (dd : dropdown) : dropdown :=
  fold_left (fun dd' x => toggle_shown (snd x) dd') (skipn n (Debounce.invoked w)) dd.

(** A [mouseenter] or [mouseleave] at time [fst e], with the dropdown
    hovered or not ([snd e]): the timers due by then run, then the
    listener. *)
Definition hover (v : view) (e : Z * bool) : view :=
  let w := table v in
  let w1 := Debounce.elapse bool timer_first (fst e) w in
  {| element := run_fired (List.length (Debounce.invoked w)) w1 (element v);
     table := handleDropdownHover (fst e) (snd e) w1 |}.

(** The pointer rests: every pending timer runs. *)
Definition settle (v : view) : dropdown :=
  run_fired (List.length (Debounce.invoked (table v))) (Debounce.drain (table v)) (element v).

Definition after_hovering (dd : dropdown) (es : list (Z * bool)) : dropdown :=
  settle (fold_left hover es {| element := dd; table := Debounce.fresh_window |}).

(** The dropdown is what the recorded callbacks, in order, have made of
    [dd]. *)
Definition replayed (dd : dropdown) (v : view) : Prop :=
  element v = fold_left (fun dd' x => toggle_shown (snd x) dd')
                (Debounce.invoked (table v)) dd.

(** The timer of the latest event, at [t] with [h], is the last to run
    among the pending ones. *)
Definition latest_pending (t : Z) (h : bool) (v : view) : Prop :=
  exists l tm,
    Debounce.pending (table v) = l ++ [tm] /\
    Debounce.due tm = t + 30 /\ Debounce.targs tm = h /\
    forall y, In y l -> Debounce.due y <= Debounce.due tm.

End WithPage.

(** A dropdown that is closed. *)
Definition closed_dropdown : dropdown :=
  {| dropdown_classes := [str "dropdown"];
     menu_classes := [str "dropdown-menu"];
     popper := None |}.

(** The times of the events do not go back. *)
Definition chronological (es : list (Z * bool)) : Prop :=
  Debounce.consecutive Z.le (map fst es).

End Hover.

(* ================================================================== *)
(** * Properties                                                       *)
(* ================================================================== *)

(* ------------------------------------------------------------------ *)
(** ** [debounce]                                                      *)
(* ------------------------------------------------------------------ *)

Section DebounceFacts.
Import Debounce.

Variable A : Type.
Variable delay : Z.
Variable timer_first : bool.

Local Abbreviation timer := (Debounce.timer A).
Local Abbreviation window := (Debounce.window A).
Local Abbreviation state := (Debounce.state A).
Local Abbreviation elapse := (Debounce.elapse A timer_first).
Local Abbreviation wrapped := (Debounce.wrapped A delay).
Local Abbreviation step := (Debounce.step A delay timer_first).
Local Abbreviation exec := (Debounce.exec A delay timer_first).
Local Abbreviation run := (Debounce.run A delay timer_first).
Local Abbreviation is_due := (Debounce.is_due A timer_first).
Local Abbreviation at_most_one := (Debounce.at_most_one A).
Local Abbreviation just_scheduled := (Debounce.just_scheduled A delay).
Local Abbreviation scheduled := (Debounce.scheduled A delay).
Local Abbreviation own_invocation := (Debounce.own_invocation A delay).
Local Abbreviation handles_fresh := (Debounce.handles_fresh A).

Lemma timeout_nonneg (ms : Z) : 0 <= timeout ms.
Proof. unfold timeout. lia. Qed.

(** A delay from 0 to 2^31 - 1 is taken as it is. *)
Lemma timeout_small (ms : Z) : 0 <= ms < 2 ^ 31 -> timeout ms = ms.
Proof.
  intros H. unfold timeout, toInt32.
  rewrite Z.mod_small by lia. lia.
Qed.

Lemma timeout_ge (ms : Z) : ms < 2 ^ 31 -> ms <= timeout ms.
Proof.
  intros H. destruct (Z.le_gt_cases 0 ms) as [H0 | H0].
  - rewrite timeout_small; lia.
  - pose proof (timeout_nonneg ms). lia.
Qed.

Lemma timeout_lt (ms : Z) : timeout ms < 2 ^ 31.
Proof.
  unfold timeout, toInt32.
  assert (H : 0 <= (ms + 2 ^ 31) mod 2 ^ 32 < 2 ^ 32) by (apply Z.mod_pos_bound; lia).
  lia.
Qed.

Lemma timeout_le (ms : Z) : 0 <= ms -> timeout ms <= ms.
Proof.
  intros H. unfold timeout, toInt32.
  assert (H1 : (ms + 2 ^ 31) mod 2 ^ 32 <= ms + 2 ^ 31) by (apply Z.mod_le; lia).
  lia.
Qed.

Lemma consecutive_weaken (R R' : Z -> Z -> Prop) (l : list Z) :
  (forall x y, R x y -> R' x y) ->
  consecutive R l -> consecutive R' l.
Proof.
  intros HR. induction l as [|x l IH]; [auto|].
  destruct l as [|y l]; [simpl; auto|].
  intros [H1 H2]. split; [now apply HR | now apply IH].
Qed.

Lemma elapse_idle (t : Z) (w : window) :
  pending w = [] -> elapse t w = w.
Proof.
  destruct w as [n p l]; simpl; intros ->.
  unfold Debounce.elapse; simpl. now rewrite app_nil_r.
Qed.

Lemma elapse_early (t : Z) (w : window) (tm : timer) :
  pending w = [tm] -> is_due t tm = false -> elapse t w = w.
Proof.
  destruct w as [n p l]; simpl; intros -> Hd.
  unfold Debounce.elapse; simpl. rewrite Hd; simpl. now rewrite app_nil_r.
Qed.

Lemma elapse_late (t : Z) (w : window) (tm : timer) :
  pending w = [tm] -> is_due t tm = true ->
  elapse t w =
    {| next_id := next_id w; pending := [];
       invoked := invoked w ++ [Debounce.fire A tm] |}.
Proof.
  destruct w as [n p l]; simpl; intros -> Hd.
  unfold Debounce.elapse; simpl. now rewrite Hd.
Qed.

Lemma not_due_before (t : Z) (tm : timer) :
  t < due tm -> is_due t tm = false.
Proof.
  intros H. unfold Debounce.is_due.
  destruct timer_first; [apply Z.leb_gt | apply Z.ltb_ge]; lia.
Qed.

Lemma due_after (t : Z) (tm : timer) :
  due tm < t -> is_due t tm = true.
Proof.
  intros H. unfold Debounce.is_due.
  destruct timer_first; [apply Z.leb_le | apply Z.ltb_lt]; lia.
Qed.

(** A call replaces the timer the closure remembers by a new one. *)
Lemma wrapped_replaces (t : Z) (a : A) (st : state) (tm : timer) :
  timeoutId st = Some (tid tm) ->
  pending (win st) = [tm] ->
  wrapped t a st =
    {| timeoutId := Some (next_id (win st));
       win := {| next_id := S (next_id (win st));
                 pending := [scheduled (next_id (win st)) (t, a)];
                 invoked := invoked (win st) |} |}.
Proof.
  destruct st as [i [n p l]]; simpl; intros -> ->.
  unfold Debounce.wrapped; simpl. now rewrite Nat.eqb_refl.
Qed.

(** A call while no timer is pending schedules one. *)
Lemma wrapped_schedules (t : Z) (a : A) (st : state) :
  pending (win st) = [] ->
  wrapped t a st =
    {| timeoutId := Some (next_id (win st));
       win := {| next_id := S (next_id (win st));
                 pending := [scheduled (next_id (win st)) (t, a)];
                 invoked := invoked (win st) |} |}.
Proof.
  destruct st as [i [n p l]]; simpl; intros ->.
  unfold Debounce.wrapped; destruct i; reflexivity.
Qed.

Lemma drain_one (w : window) (tm : timer) :
  pending w = [tm] ->
  invoked (drain w) = invoked w ++ [Debounce.fire A tm].
Proof. destruct w as [n p l]; simpl; now intros ->. Qed.

(** While the calls stay closer than the time the timer waits, the one pending timer is
    the one of the latest call and [func] has not run. *)
Lemma exec_burst (cs : list (Z * A)) :
  forall (c : Z * A) (st : state) (i : nat),
    timeoutId st = Some i ->
    pending (win st) = [scheduled i c] ->
    consecutive (Debounce.closer (timeout delay)) (map fst (c :: cs)) ->
    exists j,
      timeoutId (exec (map (Debounce.call_event A) cs) st) = Some j /\
      pending (win (exec (map (Debounce.call_event A) cs) st))
        = [scheduled j (last cs c)] /\
      invoked (win (exec (map (Debounce.call_event A) cs) st)) = invoked (win st).
Proof.
  induction cs as [|c' cs IH]; intros c st i Hid Hp Hc.
  - exists i. now repeat split.
  - destruct Hc as [Hclose Hc].
    change (exec (map (Debounce.call_event A) (c' :: cs)) st)
      with (exec (map (Debounce.call_event A) cs) (step st (Debounce.call_event A c'))).
    assert (Hstep : step st (Debounce.call_event A c') =
              {| timeoutId := Some (next_id (win st));
                 win := {| next_id := S (next_id (win st));
                           pending := [scheduled (next_id (win st)) c'];
                           invoked := invoked (win st) |} |}).
    { unfold Debounce.call_event, Debounce.step.
      rewrite (elapse_early _ _ _ Hp).
      - now rewrite (wrapped_replaces _ _ _ (scheduled i c)).
      - apply not_due_before. unfold Debounce.closer in Hclose. simpl. lia. }
    rewrite Hstep.
    match goal with |- context [exec _ ?s] => set (st1 := s) end.
    destruct (IH c' st1 (next_id (win st)) eq_refl eq_refl Hc) as (j & Hj & Hpj & Hinv).
    exists j. repeat split; auto.
    replace (last (c' :: cs) c) with (last cs c'); auto.
    clear. revert c'. induction cs as [|x xs IHxs]; intros c'; auto.
    simpl. destruct xs; auto.
Qed.

(** When the calls are farther apart than the time the timer waits, the
    timer of each call runs before the next call. *)
Lemma exec_spaced (cs : list (Z * A)) :
  forall (c : Z * A) (st : state) (i : nat),
    timeoutId st = Some i ->
    pending (win st) = [scheduled i c] ->
    consecutive (Debounce.farther (timeout delay)) (map fst (c :: cs)) ->
    invoked (drain (win (exec (map (Debounce.call_event A) cs) st)))
      = invoked (win st) ++ map own_invocation (c :: cs).
Proof.
  induction cs as [|c' cs IH]; intros c st i Hid Hp Hc.
  - change (exec (map (Debounce.call_event A) []) st) with st.
    rewrite (drain_one _ _ Hp).
    reflexivity.
  - destruct Hc as [Hfar Hc].
    change (exec (map (Debounce.call_event A) (c' :: cs)) st)
      with (exec (map (Debounce.call_event A) cs) (step st (Debounce.call_event A c'))).
    assert (Hstep : step st (Debounce.call_event A c') =
              {| timeoutId := Some (next_id (win st));
                 win := {| next_id := S (next_id (win st));
                           pending := [scheduled (next_id (win st)) c'];
                           invoked := invoked (win st) ++ [own_invocation c] |} |}).
    { unfold Debounce.call_event, Debounce.step.
      rewrite (elapse_late _ _ _ Hp).
      - rewrite wrapped_schedules; auto.
      - apply due_after. unfold Debounce.farther in Hfar. simpl. lia. }
    rewrite Hstep.
    match goal with |- context [exec _ ?s] => set (st1 := s) end.
    rewrite (IH c' st1 (next_id (win st)) eq_refl eq_refl Hc). simpl.
    now rewrite <- app_assoc.
Qed.

Lemma first_call (c : Z * A) :
  step (debounce fresh_window) (Debounce.call_event A c) =
    {| timeoutId := Some 1%nat;
       win := {| next_id := 2; pending := [scheduled 1 c]; invoked := [] |} |}.
Proof. destruct c; reflexivity. Qed.

Lemma elapse_pending (t : Z) (w : window) :
  pending (elapse t w) = filter (fun tm => negb (is_due t tm)) (pending w).
Proof.
  unfold Debounce.elapse. rewrite partition_as_filter. reflexivity.
Qed.

Lemma elapse_next_id (t : Z) (w : window) :
  next_id (elapse t w) = next_id w.
Proof.
  unfold Debounce.elapse. now destruct (partition (is_due t) (pending w)).
Qed.

Lemma at_most_one_cases (st : state) :
  at_most_one st ->
  pending (win st) = [] \/
  exists tm, pending (win st) = [tm] /\ timeoutId st = Some (tid tm).
Proof.
  intros [Hlen Hid].
  destruct (pending (win st)) as [|tm [|tm' l]] eqn:E.
  - now left.
  - right. exists tm. split; auto. apply Hid. now left.
  - simpl in Hlen. lia.
Qed.

Lemma elapse_keeps_invariant (t : Z) (st : state) :
  at_most_one st /\ handles_fresh st ->
  at_most_one {| timeoutId := timeoutId st; win := elapse t (win st) |} /\
  handles_fresh {| timeoutId := timeoutId st; win := elapse t (win st) |}.
Proof.
  intros [[Hlen Hid] Hfresh]. unfold Debounce.at_most_one, Debounce.handles_fresh. simpl.
  rewrite elapse_pending, elapse_next_id. repeat split.
  - eapply Nat.le_trans; [apply filter_length_le | exact Hlen].
  - intros tm Hin. apply filter_In in Hin. now apply Hid.
  - intros tm Hin. apply filter_In in Hin. now apply Hfresh.
Qed.

Lemma wrapped_after (t : Z) (a : A) (st : state) :
  at_most_one st ->
  wrapped t a st =
    {| timeoutId := Some (next_id (win st));
       win := {| next_id := S (next_id (win st));
                 pending := [scheduled (next_id (win st)) (t, a)];
                 invoked := invoked (win st) |} |}.
Proof.
  intros H. destruct (at_most_one_cases _ H) as [E | (tm & E & Hid)].
  - now apply wrapped_schedules.
  - now apply (wrapped_replaces _ _ _ tm).
Qed.

Lemma step_keeps_invariant (st : state) (e : Debounce.event A) :
  at_most_one st /\ handles_fresh st ->
  at_most_one (step st e) /\ handles_fresh (step st e).
Proof.
  intros H. destruct e as [t a | t]; simpl.
  - destruct (elapse_keeps_invariant t st H) as [H1 H2].
    rewrite (wrapped_after _ _ _ H1).
    unfold Debounce.at_most_one, Debounce.handles_fresh; simpl. repeat split.
    + lia.
    + intros tm [<- | []]. reflexivity.
    + intros tm [<- | []]. simpl. lia.
  - now apply elapse_keeps_invariant.
Qed.

Lemma exec_keeps_invariant (es : list (Debounce.event A)) :
  forall st,
    at_most_one st /\ handles_fresh st ->
    at_most_one (exec es st) /\ handles_fresh (exec es st).
Proof.
  induction es as [|e es IH]; intros st H; simpl; auto.
  apply IH. now apply step_keeps_invariant.
Qed.

Lemma initial_invariant :
  at_most_one (debounce fresh_window) /\ handles_fresh (debounce fresh_window).
Proof.
  unfold Debounce.at_most_one, Debounce.handles_fresh; simpl. repeat split; try lia; intros tm [].
Qed.


(** C4, as the code has it. For a [delay] that is not negative, when
    every call of the wrapped callback comes more than [delay] after the
    one before, every call makes [func] run, [timeout delay] later and
    with its own arguments: N calls, N invocations; below 2^31 the
    time waited is [delay] itself. *)
Theorem debounce_spaced_calls_each_run (cs : list (Z * A)) :
  0 <= delay ->
  consecutive (Debounce.farther delay) (map fst cs) ->
  run cs = map own_invocation cs /\
  List.length (run cs) = List.length cs /\
  (delay < 2 ^ 31 -> timeout delay = delay).
Proof.
  intros Hd Hc. pose proof (timeout_le delay Hd) as Hle.
  assert (Hc' : consecutive (Debounce.farther (timeout delay)) (map fst cs)).
  { revert Hc. apply consecutive_weaken. unfold Debounce.farther. intros x y H. lia. }
  assert (E : run cs = map own_invocation cs).
  { destruct cs as [|c cs]; [reflexivity|].
    unfold Debounce.run.
    change (exec (map (Debounce.call_event A) (c :: cs)) (debounce fresh_window))
      with (exec (map (Debounce.call_event A) cs)
              (step (debounce fresh_window) (Debounce.call_event A c))).
    rewrite first_call.
    match goal with |- context [exec _ ?s] => set (st1 := s) end.
    now rewrite (exec_spaced cs c st1 1%nat eq_refl eq_refl Hc'). }
  split; [exact E|]. split; [rewrite E; apply length_map|].
  intros H. apply timeout_small. lia.
Qed.


End DebounceFacts.


(** C4 at work: three calls more than 50 ms apart. *)
Lemma debounce_spaced_witness :
  0 <= 50 /\
  Debounce.consecutive (Debounce.farther 50)
    (map fst [(0, 1%nat); (51, 2%nat); (200, 3%nat)]) /\
  Debounce.run nat 50 false [(0, 1%nat); (51, 2%nat); (200, 3%nat)]
    = [(50, 1%nat); (101, 2%nat); (250, 3%nat)].
Proof.
  assert (Hd : 0 <= 50) by lia.
  assert (Hf : Debounce.consecutive (Debounce.farther 50)
                 (map fst [(0, 1%nat); (51, 2%nat); (200, 3%nat)])).
  { unfold Debounce.farther; simpl; lia. }
  split; [exact Hd|]. split; [exact Hf|].
  exact (proj1 (debounce_spaced_calls_each_run nat 50 false
                  [(0, 1%nat); (51, 2%nat); (200, 3%nat)] Hd Hf)).
Defined.



(** C4 as stated fails: with a negative delay two calls at the same
    millisecond are more than [delay] apart, yet the second call cancels
    the timer of the first, and [func] runs once. *)
Lemma debounce_spaced_not_as_stated :
  ~ Debounce.each_as_stated nat (-10) false [(0, 1%nat); (0, 2%nat)] /\
  Debounce.run nat (-10) false [(0, 1%nat); (0, 2%nat)] = [(0, 2%nat)].
Proof.
  split; [|reflexivity].
  intros H. assert (E : Debounce.consecutive (Debounce.farther (-10))
                          (map fst [(0, 1%nat); (0, 2%nat)])).
  { unfold Debounce.farther; simpl; lia. }
  apply H in E. vm_compute in E. discriminate.
Qed.

(* ------------------------------------------------------------------ *)
(** ** Doubles: rounding, sums and order                             *)
(* ------------------------------------------------------------------ *)

Section DoubleFacts.
Import Counter.

Lemma pow2_pos (n : Z) : 0 <= n -> 0 < 2 ^ n.
Proof. intros H. apply Z.pow_pos_nonneg; lia. Qed.

Lemma pow2_succ (n : Z) : 0 <= n -> 2 ^ (n + 1) = 2 * 2 ^ n.
Proof. intros H. rewrite Z.pow_add_r by lia. change (2 ^ 1) with 2. lia. Qed.

Lemma digits2_pos_bounds (m : positive) :
  2 ^ (Zpos (digits2_pos m) - 1) <= Zpos m < 2 ^ (Zpos (digits2_pos m)).
Proof.
  induction m as [p IH | p IH |]; simpl digits2_pos.
  - rewrite Pos2Z.inj_succ, Pos2Z.inj_xI.
    replace (Z.succ (Zpos (digits2_pos p)) - 1) with (Zpos (digits2_pos p) - 1 + 1) by lia.
    unfold Z.succ. rewrite !pow2_succ by lia. lia.
  - rewrite Pos2Z.inj_succ, Pos2Z.inj_xO.
    replace (Z.succ (Zpos (digits2_pos p)) - 1) with (Zpos (digits2_pos p) - 1 + 1) by lia.
    unfold Z.succ. rewrite !pow2_succ by lia. lia.
  - simpl. lia.
Qed.

Lemma digits2_pos_unique (m : positive) (d : Z) :
  2 ^ (d - 1) <= Zpos m < 2 ^ d -> Zpos (digits2_pos m) = d.
Proof.
  intros [H1 H2]. destruct (digits2_pos_bounds m) as [B1 B2].
  set (d' := Zpos (digits2_pos m)) in *.
  assert (Hd' : 0 < d') by (unfold d'; lia).
  destruct (Z.lt_trichotomy d' d) as [Hlt | [Heq | Hgt]]; auto; exfalso.
  - assert (2 ^ d' <= 2 ^ (d - 1)) by (apply Z.pow_le_mono_r; lia). lia.
  - destruct (Z.le_gt_cases 0 d) as [Hd | Hd].
    + assert (2 ^ d <= 2 ^ (d' - 1)) by (apply Z.pow_le_mono_r; lia). lia.
    + rewrite (Z.pow_neg_r 2 d) in H2 by lia. lia.
Qed.

Lemma shr_m_of_loc (m : Z) (l : location) : shr_m (shr_record_of_loc m l) = m.
Proof. destruct l as [|[]]; reflexivity. Qed.

Lemma shr_1_m (mrs : shr_record) :
  0 <= shr_m mrs -> shr_m (shr_1 mrs) = shr_m mrs / 2.
Proof.
  destruct mrs as [m r s]. simpl. intros H.
  destruct m as [|p|p]; [reflexivity| |lia].
  destruct p as [p|p|]; simpl.
  - rewrite Pos2Z.inj_xI. apply Z.div_unique with 1; lia.
  - rewrite Pos2Z.inj_xO. apply Z.div_unique with 0; lia.
  - reflexivity.
Qed.

Lemma iter_shr_1_m (p : positive) :
  forall mrs, 0 <= shr_m mrs ->
    shr_m (iter_pos shr_1 p mrs) = shr_m mrs / 2 ^ Zpos p.
Proof.
  induction p as [p IH | p IH |]; intros mrs H; simpl iter_pos.
  - assert (H1 : 0 <= shr_m (shr_1 mrs)).
    { rewrite shr_1_m by assumption. apply Z.div_pos; lia. }
    assert (H2 : 0 <= shr_m (iter_pos shr_1 p (shr_1 mrs))).
    { rewrite IH by assumption. apply Z.div_pos; [assumption | now apply pow2_pos]. }
    rewrite IH, IH, shr_1_m by assumption.
    pose proof (pow2_pos (Zpos p) ltac:(lia)) as Hp.
    rewrite !Z.div_div by lia.
    f_equal.
    replace (Zpos p~1) with (Zpos p + Zpos p + 1) by lia.
    rewrite !Z.pow_add_r by lia. change (2 ^ 1) with 2. lia.
  - assert (H2 : 0 <= shr_m (iter_pos shr_1 p mrs)).
    { rewrite IH by assumption. apply Z.div_pos; [assumption | now apply pow2_pos]. }
    rewrite IH, IH by assumption.
    pose proof (pow2_pos (Zpos p) ltac:(lia)) as Hp.
    rewrite !Z.div_div by lia.
    f_equal.
    replace (Zpos p~0) with (Zpos p + Zpos p) by lia.
    now rewrite !Z.pow_add_r by lia.
  - rewrite shr_1_m by assumption. reflexivity.
Qed.

Lemma rne_cases (m : Z) (l : location) :
  round_nearest_even m l = m \/ round_nearest_even m l = m + 1.
Proof.
  destruct l as [|[]]; simpl; auto.
  destruct (Z.even m); auto.
Qed.

(** The first shift of [binary_round_aux] on a mantissa of at least 53
    bits: the bits beyond the 53rd are shifted out. *)
Lemma shr_fexp_wide (mx : positive) (ex : Z) (lx : location) :
  53 <= Zpos (digits2_pos mx) -> -1074 <= ex ->
  exists mrs,
    shr_fexp 53 1024 (Zpos mx) ex lx = (mrs, ex + (Zpos (digits2_pos mx) - 53)) /\
    shr_m mrs = Zpos mx / 2 ^ (Zpos (digits2_pos mx) - 53).
Proof.
  intros Hd He. unfold shr_fexp, fexp, emin.
  change (Zdigits2 (Zpos mx)) with (Zpos (digits2_pos mx)).
  set (d := Zpos (digits2_pos mx)) in *.
  rewrite Z.max_l by lia.
  replace (d + ex - 53 - ex) with (d - 53) by lia.
  destruct (d - 53) as [|p|p] eqn:E; [| |lia].
  - exists (shr_record_of_loc (Zpos mx) lx). unfold shr. split.
    + f_equal. lia.
    + rewrite shr_m_of_loc. change (2 ^ 0) with 1. now rewrite Z.div_1_r.
  - exists (iter_pos shr_1 p (shr_record_of_loc (Zpos mx) lx)). unfold shr. split.
    + reflexivity.
    + rewrite iter_shr_1_m; rewrite shr_m_of_loc; [reflexivity | lia].
Qed.

(** The second shift of [binary_round_aux]: nothing to do for a
    53-bit mantissa, one bit when rounding has carried to 2^53. *)
Lemma shr_fexp_53 (m : positive) (e : Z) :
  Zpos (digits2_pos m) = 53 -> -1074 <= e ->
  shr_fexp 53 1024 (Zpos m) e loc_Exact
    = ({| shr_m := Zpos m; shr_r := false; shr_s := false |}, e).
Proof.
  intros Hd He. unfold shr_fexp, fexp, emin.
  change (Zdigits2 (Zpos m)) with (Zpos (digits2_pos m)). rewrite Hd.
  rewrite Z.max_l by lia.
  replace (53 + e - 53 - e) with 0 by lia. reflexivity.
Qed.

Lemma shr_fexp_carry (e : Z) :
  -1074 <= e ->
  shr_fexp 53 1024 (2 ^ 53) e loc_Exact
    = ({| shr_m := 2 ^ 52; shr_r := false; shr_s := false |}, e + 1).
Proof.
  intros He. unfold shr_fexp, fexp, emin.
  change (Zdigits2 (2 ^ 53)) with 54.
  rewrite Z.max_l by lia.
  replace (54 + e - 53 - e) with 1 by lia. reflexivity.
Qed.

Lemma mul_lt_bounds (a b A B : Z) :
  0 <= a < A -> 0 < b <= B -> a * b < A * B.
Proof. intros H1 H2. nia. Qed.

Lemma mul_le_bounds (a b A B : Z) :
  0 <= A <= a -> 0 <= B <= b -> A * B <= a * b.
Proof. intros H1 H2. nia. Qed.

Lemma normal_bounded (m : positive) (e : Z) :
  normal m e -> bounded 53 1024 m e = true.
Proof.
  intros [Hd He]. unfold bounded, canonical_mantissa, fexp, emin.
  rewrite Hd. apply andb_true_iff. split.
  - apply Z.eqb_eq. lia.
  - apply Z.leb_le. lia.
Qed.

(** The end of [binary_round_aux]: a mantissa of 53 bits, or 2^53 after
    a carry, at an exponent in range is the result; beyond the range the
    result is infinite. *)
Lemma round_finish (s : bool) (m2 : Z) (e1 : Z) :
  2 ^ 52 <= m2 <= 2 ^ 53 -> -1074 <= e1 ->
  let res :=
    (let '(mrs, e2) := shr_fexp 53 1024 m2 e1 loc_Exact in
     match shr_m mrs with
     | Z0 => S754_zero s
     | Zpos m => if e2 <=? 1024 - 53 then S754_finite s m e2 else S754_infinity s
     | Zneg _ => S754_nan
     end) in
  (m2 * 2 ^ (e1 + 1074) < 2 ^ 2098 /\
   exists m e, res = S754_finite s m e /\ normal m e /\ units m e = m2 * 2 ^ (e1 + 1074))
  \/ (2 ^ 2098 <= m2 * 2 ^ (e1 + 1074) /\ res = S754_infinity s).
Proof.
  intros Hm He res.
  pose proof (pow2_pos (e1 + 1074) ltac:(lia)) as HG.
  assert (E98 : 2 ^ 2098 = 2 ^ 53 * 2 ^ 2045) by reflexivity.
  assert (E98' : 2 ^ 2098 = 2 ^ 52 * 2 ^ 2046) by reflexivity.
  assert (E53 : 2 ^ 53 = 2 * 2 ^ 52) by reflexivity.
  destruct (Z.eq_dec m2 (2 ^ 53)) as [Ec | Hn].
  - (* carry *)
    subst m2. subst res. rewrite shr_fexp_carry by assumption.
    cbn [shr_m]. change (2 ^ 52) with (Zpos (Z.to_pos (2 ^ 52))) at 1.
    cbv iota.
    change (1024 - 53) with 971.
    destruct (e1 + 1 <=? 971) eqn:El.
    + apply Z.leb_le in El. left. split.
      * assert (2 ^ (e1 + 1074) <= 2 ^ 2044) by (apply Z.pow_le_mono_r; lia).
        assert (2 ^ 2098 = 2 ^ 53 * (2 * 2 ^ 2044)) by reflexivity. lia.
      * eexists. eexists. split; [reflexivity|]. split.
        -- split; [reflexivity | lia].
        -- unfold units. replace (e1 + 1 + 1074) with (e1 + 1074 + 1) by lia.
           rewrite pow2_succ by lia.
           change (Zpos (Z.to_pos (2 ^ 52))) with (2 ^ 52). lia.
    + apply Z.leb_gt in El. right. split; [|reflexivity].
      assert (2 ^ 2045 <= 2 ^ (e1 + 1074)) by (apply Z.pow_le_mono_r; lia).
      rewrite E98. apply Z.mul_le_mono_nonneg_l; lia.
  - assert (Hlt : m2 < 2 ^ 53) by lia.
    destruct m2 as [|p|p]; [lia| |lia].
    assert (Hd : Zpos (digits2_pos p) = 53).
    { apply digits2_pos_unique. change (2 ^ (53 - 1)) with (2 ^ 52). lia. }
    subst res. rewrite shr_fexp_53 by assumption.
    cbn [shr_m]. change (1024 - 53) with 971.
    destruct (e1 <=? 971) eqn:El.
    + apply Z.leb_le in El. left. split.
      * assert (2 ^ (e1 + 1074) <= 2 ^ 2045) by (apply Z.pow_le_mono_r; lia).
        rewrite E98. apply mul_lt_bounds; lia.
      * exists p, e1. split; [reflexivity|]. split; [split; [assumption | lia] | reflexivity].
    + apply Z.leb_gt in El. right. split; [|reflexivity].
      assert (2 ^ 2046 <= 2 ^ (e1 + 1074)) by (apply Z.pow_le_mono_r; lia).
      rewrite E98'. apply mul_le_bounds; lia.
Qed.

(** Rounding a positive mantissa of at least 53 bits: the result is
    one of the two neighbours [f * G] and [(f + 1) * G] of the value on
    the grid of step [G], where [f] has 53 bits. *)
Lemma round_wide (mx : positive) (ex : Z) (lx : location) :
  53 <= Zpos (digits2_pos mx) -> -1074 <= ex ->
  exists f G v : Z,
    2 ^ 52 <= f /\ 0 < G /\
    f * G <= Zpos mx * 2 ^ (ex + 1074) /\
    (Zpos mx + 1) * 2 ^ (ex + 1074) <= (f + 1) * G /\
    (v = f * G \/ v = (f + 1) * G) /\
    ((v < 2 ^ 2098 /\
      exists m e,
        binary_round_aux 53 1024 false (Zpos mx) ex lx = S754_finite false m e /\
        normal m e /\ units m e = v)
     \/ (2 ^ 2098 <= v /\
         binary_round_aux 53 1024 false (Zpos mx) ex lx = S754_infinity false)).
Proof.
  intros Hd He.
  destruct (shr_fexp_wide mx ex lx Hd He) as (mrs & E1 & Ef).
  destruct (digits2_pos_bounds mx) as [B1 B2].
  set (d := Zpos (digits2_pos mx)) in *.
  set (n := d - 53) in *.
  set (f := Zpos mx / 2 ^ n) in *.
  set (U := 2 ^ (ex + 1074)).
  assert (Hn : 0 <= n) by (unfold n; lia).
  pose proof (pow2_pos n Hn) as Hpn.
  pose proof (pow2_pos (ex + 1074) ltac:(lia)) as HU. fold U in HU.
  assert (EG : 2 ^ (ex + n + 1074) = U * 2 ^ n).
  { unfold U. rewrite <- Z.pow_add_r by lia. f_equal. lia. }
  assert (Hf1 : 2 ^ n * f <= Zpos mx) by (apply Z.mul_div_le; lia).
  assert (Hf2 : Zpos mx < 2 ^ n * (f + 1)).
  { pose proof (Z.mul_succ_div_gt (Zpos mx) (2 ^ n) Hpn) as H. unfold Z.succ in H. exact H. }
  assert (Hf52 : 2 ^ 52 <= f).
  { apply Z.div_le_lower_bound; [lia|].
    rewrite <- Z.pow_add_r by lia. replace (n + 52) with (d - 1) by (unfold n; lia). lia. }
  assert (Hf53 : f < 2 ^ 53).
  { apply Z.div_lt_upper_bound; [lia|].
    rewrite <- Z.pow_add_r by lia. replace (n + 53) with d by (unfold n; lia). lia. }
  set (m2 := round_nearest_even (shr_m mrs) (loc_of_shr_record mrs)).
  assert (Hm2 : m2 = f \/ m2 = f + 1).
  { unfold m2. rewrite Ef. apply rne_cases. }
  exists f, (U * 2 ^ n), (m2 * (U * 2 ^ n)).
  split; [exact Hf52|]. split; [lia|].
  split; [nia|]. split; [nia|].
  split; [destruct Hm2 as [-> | ->]; auto|].
  unfold binary_round_aux. rewrite E1. fold m2.
  rewrite <- EG.
  apply (round_finish false m2 (ex + n)); [|lia].
  destruct Hm2 as [-> | ->]; lia.
Qed.

Lemma iter_xO (d m : positive) :
  Zpos (Pos.iter xO m d) = Zpos m * 2 ^ Zpos d.
Proof.
  induction d as [|d IH] using Pos.peano_ind.
  - simpl. lia.
  - rewrite Pos.iter_succ, Pos2Z.inj_xO, IH, Pos2Z.inj_succ.
    unfold Z.succ. rewrite pow2_succ by lia. lia.
Qed.

Lemma shl_align_spec (mx : positive) (ex ex' : Z) :
  snd (shl_align mx ex ex') = Z.min ex ex' /\
  Zpos (fst (shl_align mx ex ex')) = Zpos mx * 2 ^ (ex - Z.min ex ex').
Proof.
  unfold shl_align. destruct (ex' - ex) as [|p|p] eqn:E; cbn [fst snd].
  - rewrite Z.min_l by lia. replace (ex - ex) with 0 by lia. simpl. split; lia.
  - rewrite Z.min_l by lia. replace (ex - ex) with 0 by lia. simpl. split; lia.
  - rewrite Z.min_r by lia. split; [reflexivity|].
    rewrite iter_xO. f_equal. f_equal. lia.
Qed.

Lemma digits_shift (m m' : positive) (k : Z) :
  0 <= k -> Zpos m' = Zpos m * 2 ^ k ->
  Zpos (digits2_pos m') = Zpos (digits2_pos m) + k.
Proof.
  intros Hk E. apply digits2_pos_unique. rewrite E.
  destruct (digits2_pos_bounds m) as [B1 B2].
  pose proof (pow2_pos k Hk) as Hp.
  replace (Zpos (digits2_pos m) + k - 1) with (Zpos (digits2_pos m) - 1 + k) by lia.
  rewrite !Z.pow_add_r by lia. split; nia.
Qed.

Lemma units_split (m : positive) (e e0 : Z) :
  -1074 <= e0 <= e -> units m e = Zpos m * 2 ^ (e - e0) * 2 ^ (e0 + 1074).
Proof.
  intros H. unfold units. rewrite <- Z.mul_assoc, <- Z.pow_add_r by lia.
  f_equal. f_equal. lia.
Qed.

Lemma units_pos (m : positive) (e : Z) : -1074 <= e -> 0 < units m e.
Proof. intros H. unfold units. pose proof (pow2_pos (e + 1074) ltac:(lia)). nia. Qed.

(** Rounding to the format, for a positive number whose leading bit is
    at least in the position of the leading bit of a normal number. *)
Lemma binary_round_spec (M : positive) (ez : Z) :
  -1074 <= ez -> -1021 <= Zpos (digits2_pos M) + ez ->
  exists v : Z,
    2 ^ 52 * Z.abs (v - units M ez) <= units M ez /\
    ((v < 2 ^ 2098 /\
      exists m e,
        binary_round 53 1024 false M ez = S754_finite false m e /\
        normal m e /\ units m e = v)
     \/ (2 ^ 2098 <= v /\ binary_round 53 1024 false M ez = S754_infinity false)).
Proof.
  intros Hez Hd. unfold binary_round.
  destruct (shl_align_spec M ez (fexp 53 1024 (Zpos (digits2_pos M) + ez))) as [E1 E2].
  destruct (shl_align M ez (fexp 53 1024 (Zpos (digits2_pos M) + ez))) as [mz ez'].
  cbn [fst snd] in E1, E2.
  assert (Hf : fexp 53 1024 (Zpos (digits2_pos M) + ez) = Zpos (digits2_pos M) + ez - 53).
  { unfold fexp, emin. lia. }
  rewrite Hf in E1, E2.
  assert (Hez' : -1074 <= ez') by lia.
  assert (Hk : 0 <= ez - ez') by lia.
  assert (Hdz : 53 <= Zpos (digits2_pos mz)).
  { rewrite (digits_shift M mz (ez - ez') Hk) by (rewrite E2; f_equal; f_equal; lia). lia. }
  assert (EV : Zpos mz * 2 ^ (ez' + 1074) = units M ez).
  { rewrite (units_split M ez ez') by lia. rewrite E2. f_equal. f_equal. f_equal. lia. }
  destruct (round_wide mz ez' loc_Exact Hdz Hez') as (f & G & v & Hf52 & HG & L1 & L2 & Hv & Hres).
  rewrite EV in L1.
  replace ((Zpos mz + 1) * 2 ^ (ez' + 1074))
    with (units M ez + 2 ^ (ez' + 1074)) in L2 by (rewrite <- EV; ring).
  pose proof (pow2_pos (ez' + 1074) ltac:(lia)) as HU.
  exists v. split; [|exact Hres].
  assert (H52 : 2 ^ 52 * G <= f * G) by (apply Z.mul_le_mono_nonneg_r; lia).
  destruct Hv as [-> | ->]; lia.
Qed.

(** The sum of two positive normal doubles. *)
Lemma add_normal (mx : positive) (ex : Z) (my : positive) (ey : Z) :
  normal mx ex -> normal my ey ->
  exists v : Z,
    2 ^ 52 * Z.abs (v - (units mx ex + units my ey)) <= units mx ex + units my ey /\
    ((v < 2 ^ 2098 /\
      exists m e,
        SFadd 53 1024 (S754_finite false mx ex) (S754_finite false my ey)
          = S754_finite false m e /\
        normal m e /\ units m e = v)
     \/ (2 ^ 2098 <= v /\
         SFadd 53 1024 (S754_finite false mx ex) (S754_finite false my ey)
           = S754_infinity false)).
Proof.
  intros [Hdx Hex] [Hdy Hey]. unfold SFadd. cbn [cond_Zopp].
  destruct (shl_align_spec mx ex (Z.min ex ey)) as [_ Ex].
  destruct (shl_align_spec my ey (Z.min ex ey)) as [_ Ey].
  set (ez := Z.min ex ey) in *.
  rewrite Z.min_r in Ex by lia. rewrite Z.min_r in Ey by lia.
  set (ax := fst (shl_align mx ex ez)) in *.
  set (ay := fst (shl_align my ey ez)) in *.
  change (Zpos ax + Zpos ay) with (Zpos (ax + ay)).
  cbn [binary_normalize].
  assert (Hez : -1074 <= ez) by (unfold ez; lia).
  assert (EV : units (ax + ay) ez = units mx ex + units my ey).
  { rewrite (units_split mx ex ez), (units_split my ey ez) by (unfold ez; lia).
    unfold units. rewrite Pos2Z.inj_add, Ex, Ey. ring. }
  assert (Hd : -1021 <= Zpos (digits2_pos (ax + ay)) + ez).
  { destruct (digits2_pos_bounds (ax + ay)) as [_ B].
    destruct (digits2_pos_bounds my) as [B' _]. rewrite Hdy in B'.
    change (2 ^ (53 - 1)) with (2 ^ 52) in B'.
    set (d := Zpos (digits2_pos (ax + ay))) in *.
    assert (Hd0 : 0 < d) by (unfold d; lia).
    destruct (Z.le_gt_cases (53 + (ey - ez)) d) as [H | H]; [lia|]. exfalso.
    assert (H1 : 2 ^ d <= 2 ^ (52 + (ey - ez))) by (apply Z.pow_le_mono_r; lia).
    rewrite Z.pow_add_r in H1 by lia.
    pose proof (pow2_pos (ey - ez) ltac:(lia)) as Hp.
    rewrite Pos2Z.inj_add, Ex, Ey in B.
    pose proof (pow2_pos (ex - ez) ltac:(lia)) as Hp'.
    assert (2 ^ 52 * 2 ^ (ey - ez) <= Zpos my * 2 ^ (ey - ez))
      by (apply Z.mul_le_mono_nonneg_r; lia).
    assert (0 < Zpos mx * 2 ^ (ex - ez)) by nia.
    lia. }
  destruct (binary_round_spec (ax + ay) ez Hez Hd) as (v & Hv & Hres).
  exists v. rewrite <- EV. split; assumption.
Qed.

Lemma units_normal (m : positive) (e : Z) : normal m e -> 0 < units m e < 2 ^ 2098.
Proof.
  intros [Hd He]. destruct (digits2_pos_bounds m) as [B1 B2]. rewrite Hd in B1, B2.
  assert (H1 : 2 ^ (e + 1074) <= 2 ^ 2045) by (apply Z.pow_le_mono_r; lia).
  pose proof (pow2_pos (e + 1074) ltac:(lia)) as H0.
  assert (E98 : 2 ^ 2098 = 2 ^ 53 * 2 ^ 2045) by reflexivity.
  unfold units. split; [nia|].
  rewrite E98. apply mul_lt_bounds; lia.
Qed.

(** Order of two positive normal doubles. *)
Lemma ltb_normal (m1 : positive) (e1 : Z) (m2 : positive) (e2 : Z) :
  normal m1 e1 -> normal m2 e2 ->
  SFltb (S754_finite false m1 e1) (S754_finite false m2 e2) = (units m1 e1 <? units m2 e2).
Proof.
  intros [Hd1 He1] [Hd2 He2].
  destruct (digits2_pos_bounds m1) as [A1 A2]. rewrite Hd1 in A1, A2.
  destruct (digits2_pos_bounds m2) as [B1 B2]. rewrite Hd2 in B1, B2.
  change (2 ^ (53 - 1)) with (2 ^ 52) in A1, B1.
  assert (E53 : 2 ^ 53 = 2 * 2 ^ 52) by reflexivity.
  pose proof (pow2_pos (e1 + 1074) ltac:(lia)) as P1.
  pose proof (pow2_pos (e2 + 1074) ltac:(lia)) as P2.
  unfold SFltb, SFcompare, units.
  destruct (Z.compare_spec e1 e2) as [E | L | G].
  - subst e2. rewrite Pos.compare_cont_spec. simpl Pos.switch_Eq.
    destruct (Pos.compare_spec m1 m2) as [E | L | G]; symmetry.
    + subst. apply Z.ltb_irrefl.
    + apply Z.ltb_lt. apply Z.mul_lt_mono_pos_r; lia.
    + apply Z.ltb_ge. apply Z.mul_le_mono_nonneg_r; lia.
  - symmetry. apply Z.ltb_lt.
    assert (H : 2 * 2 ^ (e1 + 1074) <= 2 ^ (e2 + 1074)).
    { rewrite <- pow2_succ by lia. apply Z.pow_le_mono_r; lia. }
    nia.
  - symmetry. apply Z.ltb_ge.
    assert (H : 2 * 2 ^ (e2 + 1074) <= 2 ^ (e1 + 1074)).
    { rewrite <- pow2_succ by lia. apply Z.pow_le_mono_r; lia. }
    nia.
Qed.

Lemma div_200 (mT : positive) (eT : Z) :
  normal mT eT -> -1066 <= eT ->
  exists v m e,
    2 ^ 52 * Z.abs (200 * v - units mT eT) <= units mT eT /\
    SFdiv 53 1024 (S754_finite false mT eT) two_hundred = S754_finite false m e /\
    normal m e /\ units m e = v.
Proof.
  intros HN He. pose proof HN as [Hd Hr].
  unfold SFdiv, two_hundred, SFdiv_core_binary.
  change (Zdigits2 (Zpos mT)) with (Zpos (digits2_pos mT)). rewrite Hd.
  change (Zdigits2 7036874417766400) with 53.
  unfold fexp, emin.
  rewrite Z.max_l by lia. rewrite Z.min_l by lia.
  replace (eT - -45 - (53 + eT - (53 + -45) - 53)) with 53 by lia.
  cbv iota. change (xorb false false) with false.
  change (IntDef.Z.shiftl (Zpos mT) 53) with (Z.shiftl (Zpos mT) 53).
  rewrite Z.shiftl_mul_pow2 by lia.
  pose proof (Z_div_mod (Zpos mT * 2 ^ 53) 7036874417766400 ltac:(lia)) as Hdm.
  change (IntDef.Z.div_eucl (Zpos mT * 2 ^ 53) 7036874417766400)
    with (Z.div_eucl (Zpos mT * 2 ^ 53) 7036874417766400).
  destruct (Z.div_eucl (Zpos mT * 2 ^ 53) 7036874417766400) as [q r].
  destruct Hdm as [Eq Hrem].
  destruct (digits2_pos_bounds mT) as [B1 B2]. rewrite Hd in B1, B2.
  change (2 ^ (53 - 1)) with (2 ^ 52) in B1.
  assert (E53 : 2 ^ 53 = 9007199254740992) by reflexivity.
  assert (E52 : 2 ^ 52 = 4503599627370496) by reflexivity.
  rewrite E53 in Eq, B2. rewrite E52 in B1.
  assert (Hq : 4503599627370496 <= q) by lia.
  destruct q as [|pq|pq]; [lia| |lia].
  assert (Hdq : 53 <= Zpos (digits2_pos pq)).
  { destruct (digits2_pos_bounds pq) as [_ B].
    destruct (Z.le_gt_cases 53 (Zpos (digits2_pos pq))) as [H | H]; [exact H|]. exfalso.
    assert (2 ^ Zpos (digits2_pos pq) <= 2 ^ 52) by (apply Z.pow_le_mono_r; lia).
    lia. }
  replace (53 + eT - (53 + -45) - 53) with (eT - 8) by lia.
  destruct (round_wide pq (eT - 8) (new_location 7036874417766400 r) Hdq ltac:(lia))
    as (f & G & v & Hf52 & HG & L1 & L2 & Hv & Hres).
  set (U := 2 ^ (eT - 8 + 1074)) in *.
  assert (HU : 0 < U) by (apply pow2_pos; lia).
  assert (EV : units mT eT = Zpos mT * 256 * U).
  { unfold units, U. replace (eT + 1074) with (8 + (eT - 8 + 1074)) by lia.
    rewrite Z.pow_add_r by lia. change (2 ^ 8) with 256. ring. }
  assert (Q1 : 200 * Zpos pq <= Zpos mT * 256) by lia.
  assert (Q2 : Zpos mT * 256 < 200 * (Zpos pq + 1)) by lia.
  assert (T1 : 200 * (f * G) <= units mT eT) by (rewrite EV; nia).
  assert (T2 : units mT eT < 200 * ((f + 1) * G)) by (rewrite EV; nia).
  assert (H52 : 2 ^ 52 * G <= f * G) by (apply Z.mul_le_mono_nonneg_r; lia).
  assert (Hb : 2 ^ 52 * Z.abs (200 * v - units mT eT) <= units mT eT).
  { rewrite E52 in *. destruct Hv as [-> | ->]; lia. }
  destruct (units_normal mT eT HN) as [_ Hlt].
  destruct Hres as [(_ & m & e & Em & Hn & Evm) | (Hov & _)].
  - exists v, m, e. repeat split; try assumption; apply Hn.
  - exfalso. rewrite E52 in *. destruct Hv as [-> | ->]; lia.
Qed.

End DoubleFacts.

(* ------------------------------------------------------------------ *)
(** ** The counter animation                                           *)
(* ------------------------------------------------------------------ *)

Section CounterFacts.
Import Counter.

Lemma frame_stopped (t : number) (a : animation) :
  stopped_at t a -> frame a = a.
Proof. intros [H _]. unfold frame. now rewrite H. Qed.

Lemma frames_stopped (t : number) (n : nat) :
  forall a, stopped_at t a -> frames n a = a.
Proof.
  induction n as [|n IH]; intros a H; simpl; auto.
  rewrite (frame_stopped t a H). now apply IH.
Qed.

Lemma frames_add (n m : nat) :
  forall a, frames (n + m) a = frames m (frames n a).
Proof.
  induction n as [|n IH]; intros a; simpl; auto.
Qed.

Lemma frames_succ (n : nat) (a : animation) :
  frames (S n) a = frame (frames n a).
Proof.
  replace (S n) with (n + 1)%nat by lia. now rewrite frames_add.
Qed.

(** A frame that finds [count < target] false writes the target and
    requests no further frame. *)
Lemma frame_stops (a : animation) :
  requested a = true -> lt (count a) (target a) = false ->
  stopped_at (target a) (frame a) /\ count (frame a) = count a.
Proof.
  intros Hr Hlt. unfold frame, updateCount. rewrite Hr, Hlt. now repeat split.
Qed.

Lemma first_frame_stops (shown t s : number) :
  lt zero t = false ->
  stopped_at t (frames 1 (animateCounter shown t s)).
Proof.
  intros H.
  change (frames 1 (animateCounter shown t s)) with (frame (animateCounter shown t s)).
  now apply (frame_stops (animateCounter shown t s)).
Qed.

Lemma speed_200 : speed = two_hundred.
Proof. reflexivity. Qed.

(** A positive whole number is a normal double with an exponent of -52
    at least. *)
Lemma parsed_normal (m : positive) (e : Z) :
  parsed (S754_finite false m e) = true -> normal m e /\ -52 <= e.
Proof.
  unfold parsed, bounded, canonical_mantissa, fexp, emin. intros H.
  apply andb_true_iff in H. destruct H as [H Hw].
  apply andb_true_iff in H. destruct H as [Hc Hb].
  apply Z.eqb_eq in Hc. apply Z.leb_le in Hb.
  destruct (digits2_pos_bounds m) as [B1 B2].
  set (d := Zpos (digits2_pos m)) in *.
  assert (Hd : 0 < d) by (unfold d; lia).
  apply orb_true_iff in Hw. destruct Hw as [Hw | Hw].
  - apply Z.leb_le in Hw. unfold normal. fold d. lia.
  - apply Z.eqb_eq in Hw.
    destruct (Z.le_gt_cases 0 e) as [He | He]; [unfold normal; fold d; lia|].
    assert (Hp : 0 < 2 ^ (- e)) by (apply pow2_pos; lia).
    assert (Hm : 2 ^ (- e) <= Zpos m).
    { apply Z.mod_divide in Hw; [|lia]. apply Z.divide_pos_le in Hw; lia. }
    assert (Hde : - e < d).
    { destruct (Z.le_gt_cases d (- e)) as [H | H]; [|exact H].
      assert (2 ^ d <= 2 ^ (- e)) by (apply Z.pow_le_mono_r; lia). lia. }
    unfold normal. fold d. lia.
Qed.

Section Positive.

Variable shown : number.
Variable mT : positive.
Variable eT : Z.
Hypothesis HT : normal mT eT.
Hypothesis HeT : -1066 <= eT.

Local Abbreviation T := (S754_finite false mT eT).
Local Abbreviation t := (units mT eT).

Variable mi : positive.
Variable ei : Z.
Hypothesis Hinc : div T speed = S754_finite false mi ei.
Hypothesis Hi : normal mi ei.
Hypothesis Hit : 2 ^ 52 * Z.abs (200 * units mi ei - t) <= t.

Local Abbreviation inc := (S754_finite false mi ei).
Local Abbreviation i := (units mi ei).
Local Abbreviation counting_at := (Counter.counting_at T inc t i).

Lemma t_pos : 0 < t < 2 ^ 2098.
Proof. now apply units_normal. Qed.

Lemma i_pos : 0 < i.
Proof. now apply units_normal. Qed.

Lemma below_target (k c : Z) :
  1 <= k <= 199 -> 2 ^ 51 * Z.abs (c - k * i) <= k * t -> c < t.
Proof.
  intros Hk Hc. pose proof t_pos as Ht. pose proof Hit as H.
  change (2 ^ 52) with 4503599627370496 in H.
  change (2 ^ 51) with 2251799813685248 in Hc.
  assert (H1 : 4503599627370496 * Z.abs (200 * (k * i) - k * t) <= k * t).
  { replace (200 * (k * i) - k * t) with (k * (200 * i - t)) by ring.
    rewrite Z.abs_mul, (Z.abs_eq k) by lia. nia. }
  assert (H2 : k * t <= 199 * t) by nia.
  lia.
Qed.

Lemma above_target (c : Z) :
  2 ^ 51 * Z.abs (c - 201 * i) <= 201 * t -> t <= c.
Proof.
  intros Hc. pose proof t_pos as Ht. pose proof Hit as H.
  change (2 ^ 52) with 4503599627370496 in H.
  change (2 ^ 51) with 2251799813685248 in Hc.
  lia.
Qed.

Lemma i_le_t : i <= t.
Proof.
  pose proof t_pos as Ht. pose proof Hit as H.
  change (2 ^ 52) with 4503599627370496 in H. lia.
Qed.

(** The first frame: [count] becomes the increment itself. *)
Lemma first_frame :
  counting_at 1 (frames 1 (animateCounter shown T speed)).
Proof.
  change (frames 1 (animateCounter shown T speed)) with (frame (animateCounter shown T speed)).
  unfold frame, updateCount, animateCounter. cbn [requested count target increment].
  change (lt zero T) with true. cbv iota. rewrite Hinc.
  change (add zero inc) with inc.
  unfold Counter.counting_at. cbn [target increment requested innerText count].
  repeat split; auto.
  exists mi, ei. repeat split; try apply Hi.
  replace (i - 1 * i) with 0 by ring. pose proof t_pos. simpl Z.abs. lia.
Qed.

(** A frame that finds [count] below the target adds the increment:
    the sum [v], rounded, stays within the bound and is above the old
    count; it is a normal double, or infinite when [v] is out of
    range. *)
Lemma counting_frame (k : Z) (a : animation) :
  1 <= k -> counting_at k a ->
  (exists m e, count a = S754_finite false m e /\ normal m e /\ units m e < t) ->
  requested (frame a) = true /\
  target (frame a) = T /\
  increment (frame a) = inc /\
  innerText (frame a) = ceil (count (frame a)) /\
  lt (count a) (count (frame a)) = true /\
  exists v,
    2 ^ 51 * Z.abs (v - (k + 1) * i) <= (k + 1) * t /\
    ((2 ^ 2098 <= v /\ count (frame a) = S754_infinity false) \/
     (exists m e, count (frame a) = S754_finite false m e /\ normal m e /\ units m e = v)).
Proof.
  intros Hk (Ht & Hin & Hr & Htx & m & e & Hc & Hn & Hb) (m' & e' & Hc' & _ & Hlt).
  rewrite Hc in Hc'. injection Hc' as <- <-.
  unfold frame. rewrite Hr. unfold updateCount.
  rewrite Hc, Ht. unfold lt. rewrite (ltb_normal m e mT eT Hn HT).
  replace (units m e <? t) with true by (symmetry; now apply Z.ltb_lt).
  cbn [requested target count increment innerText].
  rewrite Hin. unfold add.
  destruct (add_normal m e mi ei Hn Hi) as (v & Hv & Hres).
  pose proof i_le_t as Hile. pose proof i_pos as Hipos.
  pose proof t_pos as Htpos.
  destruct (units_normal m e Hn) as [Hcpos _].
  change (2 ^ 52) with 4503599627370496 in Hv.
  assert (Hbound : 2 ^ 51 * Z.abs (v - (k + 1) * i) <= (k + 1) * t).
  { change (2 ^ 51) with 2251799813685248 in *.
    replace (v - (k + 1) * i) with ((v - (units m e + i)) + (units m e - k * i)) by ring.
    replace ((k + 1) * t) with (k * t + t) by ring.
    lia. }
  assert (Hgrow : units m e < v) by lia.
  destruct Hres as [(Hfin & m2 & e2 & E & Hn2 & EV) | (Hov & E)]; rewrite E.
  - repeat split; auto.
    + rewrite (ltb_normal m e m2 e2 Hn Hn2). apply Z.ltb_lt. now rewrite EV.
    + exists v. split; [exact Hbound|]. right. now exists m2, e2.
  - repeat split; auto.
    exists v. split; [exact Hbound|]. now left.
Qed.

Lemma counting_below (k : Z) (a : animation) :
  1 <= k <= 199 -> counting_at k a ->
  exists m e, count a = S754_finite false m e /\ normal m e /\ units m e < t.
Proof.
  intros Hk (_ & _ & _ & _ & m & e & Hc & Hn & Hb).
  exists m, e. repeat split; try assumption; try apply Hn.
  now apply (below_target k).
Qed.

Lemma counting_frames (k : nat) :
  (1 <= k <= 199)%nat ->
  counting_at (Z.of_nat k) (frames k (animateCounter shown T speed)).
Proof.
  induction k as [|k IH]; [lia|]. intros Hk.
  destruct (Nat.eq_dec k 0) as [-> | Hk0]; [apply first_frame|].
  specialize (IH ltac:(lia)).
  rewrite frames_succ.
  set (a := frames k (animateCounter shown T speed)) in *.
  pose proof (counting_below (Z.of_nat k) a ltac:(lia) IH) as Hbelow.
  destruct (counting_frame (Z.of_nat k) a ltac:(lia) IH Hbelow)
    as (Hr & Ht & Hin & Htx & _ & v & Hv & Hres).
  replace (Z.of_nat (S k)) with (Z.of_nat k + 1) by lia.
  assert (Hvt : v < t) by (apply (below_target (Z.of_nat k + 1)); [lia | exact Hv]).
  destruct Hres as [(Hov & _) | (m & e & Hc & Hn & EV)].
  - pose proof t_pos. lia.
  - unfold Counter.counting_at. repeat split; auto.
    exists m, e. rewrite EV. repeat split; try assumption; apply Hn.
Qed.

(** While it counts, the animation requests the next frame and [count]
    grows. *)
Lemma counting_requests (k : nat) :
  (k <= 200)%nat ->
  requested (frames k (animateCounter shown T speed)) = true.
Proof.
  intros Hk. destruct (Nat.eq_dec k 0) as [-> | H0]; [reflexivity|].
  destruct (Nat.eq_dec k 200) as [-> | H200].
  - rewrite frames_succ.
    pose proof (counting_frames 199 ltac:(lia)) as H.
    pose proof (counting_below (Z.of_nat 199) _ ltac:(lia) H) as Hb.
    now destruct (counting_frame (Z.of_nat 199) _ ltac:(lia) H Hb) as (Hr & _).
  - now destruct (counting_frames k ltac:(lia)) as (_ & _ & Hr & _).
Qed.

Lemma counting_grows (k : nat) :
  (k < 200)%nat ->
  lt (count (frames k (animateCounter shown T speed)))
     (count (frames (S k) (animateCounter shown T speed))) = true.
Proof.
  intros Hk. destruct (Nat.eq_dec k 0) as [-> | H0].
  - destruct first_frame as (_ & _ & _ & _ & m & e & Hc & _).
    rewrite Hc. reflexivity.
  - rewrite frames_succ.
    pose proof (counting_frames k ltac:(lia)) as H.
    pose proof (counting_below (Z.of_nat k) _ ltac:(lia) H) as Hb.
    now destruct (counting_frame (Z.of_nat k) _ ltac:(lia) H Hb) as (_ & _ & _ & _ & Hg & _).
Qed.

(** A frame that finds [count] infinite, or not below the target,
    stops. *)
Lemma frame_stops_at (a : animation) (v : Z) :
  requested a = true -> target a = T -> t <= v ->
  (count a = S754_infinity false \/
   exists m e, count a = S754_finite false m e /\ normal m e /\ units m e = v) ->
  stopped_at T (frame a).
Proof.
  intros Hr Ht Hv Hc. rewrite <- Ht. apply frame_stops; [exact Hr|].
  rewrite Ht. destruct Hc as [-> | (m & e & -> & Hn & EV)]; [reflexivity|].
  unfold lt. rewrite (ltb_normal m e mT eT Hn HT). apply Z.ltb_ge. now rewrite EV.
Qed.

(** The animation has stopped, with the target written, by frame 202. *)
Lemma positive_stops :
  stopped_at T (frames 202 (animateCounter shown T speed)).
Proof.
  pose proof t_pos as Htpos.
  do 3 rewrite frames_succ.
  set (a199 := frames 199 (animateCounter shown T speed)).
  pose proof (counting_frames 199 ltac:(lia)) as H199. fold a199 in H199.
  pose proof (counting_below (Z.of_nat 199) _ ltac:(lia) H199) as Hb199.
  destruct (counting_frame (Z.of_nat 199) _ ltac:(lia) H199 Hb199)
    as (Hr & Ht & Hin & Htx & _ & v & Hv & Hres).
  set (a200 := frame a199) in *.
  change (Z.of_nat 199 + 1) with 200 in Hv.
  assert (Hstay : forall a, stopped_at T a -> stopped_at T (frame a)).
  { intros a H. now rewrite (frame_stopped T a H). }
  destruct (Z.le_gt_cases t v) as [Hge | Hlt].
  - (* frame 201 stops *)
    apply Hstay. apply (frame_stops_at a200 v); auto.
    destruct Hres as [(_ & E) | E]; auto.
  - (* frame 201 counts, frame 202 stops *)
    destruct Hres as [(Hov & _) | (m & e & Hc & Hn & EV)]; [lia|].
    assert (H200 : counting_at 200 a200).
    { unfold Counter.counting_at. repeat split; auto.
      exists m, e. rewrite EV. repeat split; try assumption; apply Hn. }
    assert (Hb200 : exists m e, count a200 = S754_finite false m e /\ normal m e /\ units m e < t).
    { exists m, e. rewrite EV. repeat split; try assumption; apply Hn. }
    destruct (counting_frame 200 _ ltac:(lia) H200 Hb200)
      as (Hr' & Ht' & _ & _ & _ & v' & Hv' & Hres').
    change (200 + 1) with 201 in Hv'.
    apply (frame_stops_at (frame a200) v'); auto.
    + now apply above_target.
    + destruct Hres' as [(_ & E) | E]; auto.
Qed.

End Positive.

(** A positive whole target: the animation counts for 200 frames, with
    [count] growing at each of them, and has stopped with the target
    written by frame 202. *)
Lemma positive_target (shown : number) (m : positive) (e : Z) :
  parsed (S754_finite false m e) = true ->
  stopped_at (S754_finite false m e)
    (frames 202 (animateCounter shown (S754_finite false m e) speed)) /\
  (forall k, (k <= 200)%nat ->
     requested (frames k (animateCounter shown (S754_finite false m e) speed)) = true) /\
  (forall k, (k < 200)%nat ->
     lt (count (frames k (animateCounter shown (S754_finite false m e) speed)))
        (count (frames (S k) (animateCounter shown (S754_finite false m e) speed))) = true).
Proof.
  intros Hp. destruct (parsed_normal m e Hp) as [Hn He].
  destruct (div_200 m e Hn ltac:(lia)) as (v & mi & ei & Hv & Hd & Hni & Ev).
  subst v.
  assert (Hinc : div (S754_finite false m e) speed = S754_finite false mi ei).
  { unfold div. rewrite speed_200. exact Hd. }
  split; [|split].
  - exact (positive_stops shown m e Hn mi ei Hinc Hni Hv).
  - intros k Hk. exact (counting_requests shown m e Hn mi ei Hinc Hni Hv k Hk).
  - intros k Hk. exact (counting_grows shown m e Hn mi ei Hinc Hni Hv k Hk).
Qed.

(** Whatever [parseInt] returned, some frame among the first 202 stops
    the animation with the target written. *)
Lemma parsed_target_stops (shown T : number) :
  parsed T = true ->
  exists n, (n <= 202)%nat /\ stopped_at T (frames n (animateCounter shown T speed)).
Proof.
  intros Hp. destruct T as [s | s | | s m e].
  - exists 1%nat. split; [lia|]. apply first_frame_stops. now destruct s.
  - destruct s.
    + exists 1%nat. split; [lia|]. now apply first_frame_stops.
    + exists 2%nat. split; [lia|]. split; reflexivity.
  - exists 1%nat. split; [lia|]. now apply first_frame_stops.
  - destruct s.
    + exists 1%nat. split; [lia|]. now apply first_frame_stops.
    + exists 202%nat. split; [lia|]. now apply positive_target.
Qed.

(** C2. For every target [T] that [parseInt] can make of the
    [data-count] attribute ([NaN], a whole number as a double, or an
    infinity), the animation that [initCounters] starts with
    [animateCounter(counter, T, 200)] reaches a frame, among the first
    202, after which no frame is requested any more; from then on the
    counter shows exactly [T]. Division, additions and comparisons are
    those of doubles, rounding included. *)
Theorem animateCounter_terminates_at_target (shown T : number) :
  parsed T = true ->
  exists n,
    (n <= 202)%nat /\
    requested (frames n (animateCounter shown T speed)) = false /\
    innerText (frames n (animateCounter shown T speed)) = T /\
    forall k, frames (n + k) (animateCounter shown T speed)
              = frames n (animateCounter shown T speed).
Proof.
  intros Hp. destruct (parsed_target_stops shown T Hp) as (n & Hn & Hs).
  exists n. destruct Hs as [Hr Hi]. repeat split; auto.
  intros k. rewrite frames_add. apply (frames_stopped T). now split.
Qed.

End CounterFacts.

(** C2 at work: a counter towards 7. *)
Lemma animateCounter_terminates_witness :
  Counter.parsed (Counter.of_Z 7) = true /\
  exists n,
    (n <= 202)%nat /\
    Counter.requested
      (Counter.frames n (Counter.animateCounter Counter.zero (Counter.of_Z 7) Counter.speed))
      = false /\
    Counter.innerText
      (Counter.frames n (Counter.animateCounter Counter.zero (Counter.of_Z 7) Counter.speed))
      = Counter.of_Z 7.
Proof.
  split; [reflexivity|].
  destruct (animateCounter_terminates_at_target Counter.zero (Counter.of_Z 7) eq_refl)
    as (n & H1 & H2 & H3 & _).
  exists n. repeat split; assumption.
Defined.

(* ------------------------------------------------------------------ *)
(** ** Strings, class lists and the matcher                            *)
(* ------------------------------------------------------------------ *)

Section JsFacts.
Import Js.

Lemma eqb_eq (s t : jsstring) : eqb s t = true <-> s = t.
Proof.
  unfold eqb. destruct (list_eq_dec N.eq_dec s t); split; congruence.
Qed.

Lemma contains_add (tok : jsstring) (cl : list jsstring) :
  classList_contains tok (classList_add tok cl) = true.
Proof.
  unfold classList_add. destruct (classList_contains tok cl) eqn:E; auto.
  unfold classList_contains. rewrite existsb_app. simpl.
  replace (eqb tok tok) with true; [now rewrite orb_true_r|].
  symmetry. now apply eqb_eq.
Qed.

Lemma contains_remove (tok : jsstring) (cl : list jsstring) :
  classList_contains tok (classList_remove tok cl) = false.
Proof.
  unfold classList_contains, classList_remove.
  induction cl as [|c cl IH]; simpl; auto.
  destruct (eqb tok c) eqn:E; simpl; auto. now rewrite E.
Qed.

(** Removing one class leaves the membership of every other class. *)
Lemma contains_remove_other (tok tok' : jsstring) (cl : list jsstring) :
  tok <> tok' ->
  classList_contains tok (classList_remove tok' cl) = classList_contains tok cl.
Proof.
  intros Hne. unfold classList_contains, classList_remove.
  induction cl as [|c cl IH]; simpl; auto.
  destruct (eqb tok' c) eqn:E; simpl.
  - apply eqb_eq in E. subst c.
    destruct (eqb tok tok') eqn:E'; [|exact IH].
    apply eqb_eq in E'. contradiction.
  - now rewrite IH.
Qed.

Lemma remove_absent (tok : jsstring) (cl : list jsstring) :
  classList_contains tok cl = false -> classList_remove tok cl = cl.
Proof.
  unfold classList_contains, classList_remove.
  induction cl as [|c cl IH]; simpl; auto.
  intros H. apply orb_false_iff in H. destruct H as [H1 H2].
  rewrite H1. simpl. now rewrite IH.
Qed.

Lemma trimStart_whitespace (s : jsstring) :
  forallb isWhiteSpace s = true -> trimStart s = [].
Proof.
  induction s as [|c s IH]; simpl; auto.
  intros H. apply andb_true_iff in H. destruct H as [Hc Hs].
  rewrite Hc. now apply IH.
Qed.

Lemma trim_whitespace (s : jsstring) :
  forallb isWhiteSpace s = true -> trim s = [].
Proof.
  intros H. unfold trim. now rewrite (trimStart_whitespace s H).
Qed.

Lemma truthy_nonempty (s : jsstring) : truthy s = true <-> s <> [].
Proof. destruct s; simpl; split; congruence. Qed.

(** *** The matcher decides the words of an expression *)

Lemma words_seq_inv (r1 r2 : regex) (s : jsstring) :
  words (Seq r1 r2) s ->
  exists s1 s2, s = s1 ++ s2 /\ words r1 s1 /\ words r2 s2.
Proof. intros H. inversion H; subst. eauto. Qed.

Lemma words_alt_inv (r1 r2 : regex) (s : jsstring) :
  words (Alt r1 r2) s -> words r1 s \/ words r2 s.
Proof. intros H. inversion H; subst; auto. Qed.

Lemma words_class_inv (p : N -> bool) (s : jsstring) :
  words (Class p) s -> exists c, s = [c] /\ p c = true.
Proof. intros H. inversion H; subst. eauto. Qed.

Lemma words_void_inv (s : jsstring) : ~ words Void s.
Proof. intros H. inversion H. Qed.

Lemma words_eps_inv (s : jsstring) : words Eps s -> s = [].
Proof. intros H. now inversion H. Qed.

Lemma nullable_words (r : regex) : nullable r = true <-> words r [].
Proof.
  induction r as [| |p|r1 IH1 r2 IH2|r1 IH1 r2 IH2|r IH]; simpl.
  - split; [discriminate | intros H; now apply words_void_inv in H].
  - split; [constructor | reflexivity].
  - split; [discriminate|].
    intros H. apply words_class_inv in H. destruct H as (c & E & _). discriminate.
  - rewrite andb_true_iff, IH1, IH2. split.
    + intros [H1 H2]. exact (w_seq r1 r2 [] [] H1 H2).
    + intros H. apply words_seq_inv in H. destruct H as (s1 & s2 & E & H1 & H2).
      symmetry in E. apply app_eq_nil in E. destruct E; subst. now split.
  - rewrite orb_true_iff, IH1, IH2. split.
    + intros [H | H]; [now apply w_alt_l | now apply w_alt_r].
    + apply words_alt_inv.
  - split; [constructor | reflexivity].
Qed.

(** A non-empty word of [Star r] starts with a non-empty word of [r]. *)
Lemma words_star_cons (r : regex) (c : N) (s : jsstring) :
  words (Star r) (c :: s) ->
  exists s1 s2, s = s1 ++ s2 /\ words r (c :: s1) /\ words (Star r) s2.
Proof.
  intros H. remember (Star r) as r' eqn:Er. remember (c :: s) as w eqn:Ew.
  induction H as [| | | | | |r0 s1 s2 H1 _ H2 IH2]; try discriminate.
  injection Er as ->.
  destruct s1 as [|c1 s1]; simpl in Ew.
  - now apply IH2.
  - injection Ew as E1 E2. subst c1 s. now exists s1, s2.
Qed.

Lemma deriv_words (c : N) (r : regex) :
  forall s, words (deriv c r) s <-> words r (c :: s).
Proof.
  induction r as [| |p|r1 IH1 r2 IH2|r1 IH1 r2 IH2|r IH]; intros s; simpl.
  - split; intros H; now apply words_void_inv in H.
  - split; intros H; [now apply words_void_inv in H|].
    apply words_eps_inv in H. discriminate.
  - destruct (p c) eqn:Ep; split; intros H.
    + apply words_eps_inv in H. subst. now constructor.
    + apply words_class_inv in H. destruct H as (c' & [= -> ->] & _). constructor.
    + now apply words_void_inv in H.
    + apply words_class_inv in H. destruct H as (c' & [= -> ->] & H). congruence.
  - assert (Hleft : forall s, words (Seq (deriv c r1) r2) s -> words (Seq r1 r2) (c :: s)).
    { intros s0 H. apply words_seq_inv in H. destruct H as (s1 & s2 & -> & H1 & H2).
      apply IH1 in H1. exact (w_seq r1 r2 (c :: s1) s2 H1 H2). }
    assert (Hinv : words (Seq r1 r2) (c :: s) ->
                   words (Seq (deriv c r1) r2) s \/
                   (words r1 [] /\ words (deriv c r2) s)).
    { intros H. apply words_seq_inv in H. destruct H as (s1 & s2 & E & H1 & H2).
      destruct s1 as [|c1 s1]; simpl in E.
      - subst s2. right. split; auto. now apply IH2.
      - injection E as E1 E2. subst c1 s. left. constructor; auto. now apply IH1. }
    destruct (nullable r1) eqn:En.
    + split.
      * intros H. apply words_alt_inv in H. destruct H as [H | H]; [now apply Hleft|].
        apply nullable_words in En. apply IH2 in H.
        exact (w_seq r1 r2 [] (c :: s) En H).
      * intros H. destruct (Hinv H) as [Hl | [_ Hr]];
          [now apply w_alt_l | now apply w_alt_r].
    + split; [apply Hleft|].
      intros H. destruct (Hinv H) as [Hl | [Hn _]]; auto.
      apply nullable_words in Hn. congruence.
  - split; intros H; apply words_alt_inv in H; destruct H as [H | H].
    + apply w_alt_l. now apply IH1.
    + apply w_alt_r. now apply IH2.
    + apply w_alt_l. now apply IH1.
    + apply w_alt_r. now apply IH2.
  - split.
    + intros H. apply words_seq_inv in H. destruct H as (s1 & s2 & -> & H1 & H2).
      apply IH in H1. exact (w_star_cons r (c :: s1) s2 H1 H2).
    + intros H. destruct (words_star_cons r c s H) as (s1 & s2 & -> & H1 & H2).
      constructor; auto. now apply IH.
Qed.

(** [test] decides membership. *)
Lemma test_words (s : jsstring) :
  forall r, test r s = true <-> words r s.
Proof.
  induction s as [|c s IH]; intros r; simpl.
  - apply nullable_words.
  - rewrite IH. apply deriv_words.
Qed.

(** The words of [[p]*] and of [[p]+]: the strings, and the non-empty
    strings, over the class [p]. *)
Lemma words_star_class (p : N -> bool) (s : jsstring) :
  words (Star (Class p)) s <-> forallb p s = true.
Proof.
  split.
  - intros H. remember (Star (Class p)) as r eqn:Er.
    induction H as [| | | | | |r0 s1 s2 H1 _ H2 IH2]; try discriminate; auto.
    injection Er as ->. apply words_class_inv in H1. destruct H1 as (c & -> & Hc).
    simpl. now rewrite Hc, IH2.
  - induction s as [|c s IH]; simpl; intros H; [constructor|].
    apply andb_true_iff in H. destruct H as [Hc Hs].
    apply (w_star_cons (Class p) [c] s); [now constructor | now apply IH].
Qed.

Lemma words_plus_class (p : N -> bool) (s : jsstring) :
  words (Plus (Class p)) s <-> s <> [] /\ forallb p s = true.
Proof.
  unfold Plus. split.
  - intros H. apply words_seq_inv in H. destruct H as (s1 & s2 & -> & H1 & H2).
    apply words_class_inv in H1. destruct H1 as (c & -> & Hc).
    apply words_star_class in H2. simpl.
    split; [discriminate|]. now rewrite Hc, H2.
  - intros [Hne H]. destruct s as [|c s]; [contradiction|].
    simpl in H. apply andb_true_iff in H. destruct H as [Hc Hs].
    apply (w_seq (Class p) (Star (Class p)) [c] s);
      [now constructor | now apply words_star_class].
Qed.

End JsFacts.

(* ------------------------------------------------------------------ *)
(** ** The contact form                                                *)
(* ------------------------------------------------------------------ *)

Section FormFacts.
Import Js.
Import Form.

Lemma blank_whitespace (f : field) :
  forallb isWhiteSpace (value f) = true -> blank f = true.
Proof.
  intros H. unfold blank. now rewrite (trim_whitespace _ H).
Qed.

Lemma blank_empty (f : field) : blank f = true <-> trim (value f) = [].
Proof.
  unfold blank. destruct (trim (value f)); simpl; split; congruence.
Qed.

(** What [emailPattern] accepts: [a@b.c] with [a], [b] and [c] non-empty
    and free of whitespace and of [@]. *)
Lemma emailPattern_shape (s : jsstring) :
  test emailPattern s = true <->
  exists a b c,
    s = a ++ [64%N] ++ b ++ [46%N] ++ c /\
    (a <> [] /\ forallb notSpaceAt a = true) /\
    (b <> [] /\ forallb notSpaceAt b = true) /\
    (c <> [] /\ forallb notSpaceAt c = true).
Proof.
  rewrite test_words. unfold emailPattern. split.
  - intros H.
    apply words_seq_inv in H. destruct H as (a & s1 & -> & Ha & H).
    apply words_seq_inv in H. destruct H as (at_ & s2 & -> & Hat & H).
    apply words_seq_inv in H. destruct H as (b & s3 & -> & Hb & H).
    apply words_seq_inv in H. destruct H as (dot & c & -> & Hdot & Hc).
    apply words_class_inv in Hat. destruct Hat as (x & -> & Hx).
    apply words_class_inv in Hdot. destruct Hdot as (y & -> & Hy).
    apply N.eqb_eq in Hx, Hy. subst x y.
    apply words_plus_class in Ha, Hb, Hc.
    now exists a, b, c.
  - intros (a & b & c & -> & Ha & Hb & Hc).
    apply words_plus_class in Ha, Hb, Hc.
    repeat (constructor; auto).
Qed.

(** *** [validateForm], control by control *)

Lemma check_required_spec (f : field) (v : bool) :
  check_required f v = (mark_required f, v && required_ok f).
Proof.
  unfold check_required, mark_required, required_ok.
  fold (blank f).
  destruct (in_form f && required f); simpl.
  - destruct (blank f); simpl; [now rewrite andb_false_r | now rewrite andb_true_r].
  - now rewrite andb_true_r.
Qed.

Lemma forEach_required_spec (fs : list field) :
  forall v, forEach_required fs v = (map mark_required fs, v && forallb required_ok fs).
Proof.
  induction fs as [|f fs IH]; intros v; simpl.
  - now rewrite andb_true_r.
  - rewrite check_required_spec, IH. now rewrite andb_assoc.
Qed.

Lemma check_email_spec (fs : list field) :
  forall v, check_email fs v = (mark_email fs, v && email_ok fs).
Proof.
  unfold email_ok, emailField.
  induction fs as [|f fs IH]; intros v; simpl.
  - now rewrite andb_true_r.
  - destruct (in_form f && email_input f); simpl.
    + unfold malformed.
      destruct (truthy (trim (value f))); simpl; [|now rewrite andb_true_r].
      destruct (test emailPattern (trim (value f))); simpl;
        [now rewrite andb_true_r | now rewrite andb_false_r].
    + now rewrite IH.
Qed.

Lemma mark_required_keeps (f : field) :
  id (mark_required f) = id f /\
  in_form (mark_required f) = in_form f /\
  required (mark_required f) = required f /\
  email_input (mark_required f) = email_input f /\
  value (mark_required f) = value f /\
  defaultValue (mark_required f) = defaultValue f.
Proof.
  unfold mark_required.
  destruct (in_form f && required f); [destruct (blank f)|]; simpl; auto 10.
Qed.

Lemma malformed_mark_required (f : field) :
  malformed (mark_required f) = malformed f.
Proof.
  unfold malformed.
  destruct (mark_required_keeps f) as (_ & _ & _ & _ & E & _). now rewrite E.
Qed.

Lemma email_ok_mark_required (fs : list field) :
  email_ok (map mark_required fs) = email_ok fs.
Proof.
  unfold email_ok, emailField.
  induction fs as [|f fs IH]; simpl; auto.
  destruct (mark_required_keeps f) as (_ & E1 & _ & E2 & _).
  rewrite E1, E2.
  destruct (in_form f && email_input f); auto.
  now rewrite malformed_mark_required.
Qed.

Lemma validateForm_spec (fs : list field) :
  validateForm fs =
    (forallb required_ok fs && email_ok fs, mark_email (map mark_required fs)).
Proof.
  unfold validateForm.
  rewrite forEach_required_spec, check_email_spec, email_ok_mark_required.
  reflexivity.
Qed.

Lemma email_index_mark_required (fs : list field) :
  email_index (map mark_required fs) = email_index fs.
Proof.
  induction fs as [|f fs IH]; simpl; auto.
  destruct (mark_required_keeps f) as (_ & E1 & _ & E2 & _).
  rewrite E1, E2, IH. reflexivity.
Qed.

Lemma nth_error_mark_email (fs : list field) :
  forall i,
    nth_error (mark_email fs) i =
      option_map
        (fun f => if is_email_index fs i && malformed f
                  then set_classList (classList_add is_invalid (classList f)) f
                  else f)
        (nth_error fs i).
Proof.
  unfold is_email_index.
  induction fs as [|f fs IH]; intros i.
  - now destruct i.
  - simpl. destruct (in_form f && email_input f).
    + destruct i as [|i]; simpl; auto. now destruct (nth_error fs i).
    + destruct i as [|i]; simpl.
      * now destruct (email_index fs).
      * rewrite IH. now destruct (email_index fs).
Qed.

Lemma validateForm_same_data (fs : list field) :
  Forall2 same_data fs (snd (validateForm fs)).
Proof.
  rewrite validateForm_spec. simpl.
  induction fs as [|f fs IH]; simpl; [constructor|].
  destruct (mark_required_keeps f) as (E0 & E1 & _ & E2 & E3 & _).
  rewrite E1, E2.
  assert (Hmap : Forall2 same_data fs (map mark_required fs)).
  { clear. induction fs as [|g fs IH]; simpl; constructor; auto.
    destruct (mark_required_keeps g) as (E0 & _ & _ & _ & E3 & _). now split. }
  destruct (in_form f && email_input f).
  - constructor; auto.
    destruct (malformed (mark_required f)); simpl; now split.
  - constructor; auto. now split.
Qed.

Lemma find_same_data (k : jsstring) (fs fs' : list field) :
  Forall2 same_data fs fs' ->
  forall f, find (fun f => eqb (id f) k) fs = Some f ->
  exists f', find (fun f => eqb (id f) k) fs' = Some f' /\ value f' = value f.
Proof.
  induction 1 as [|f0 f0' fs fs' [Hid Hval] _ IH]; intros f; simpl; [discriminate|].
  rewrite Hid. destruct (eqb (id f0) k).
  - intros [= <-]. now exists f0'.
  - apply IH.
Qed.

Lemma validateForm_false_of_blank (fs : list field) (f : field) :
  In f fs -> in_form f = true -> required f = true -> blank f = true ->
  fst (validateForm fs) = false.
Proof.
  intros Hin H1 H2 H3. rewrite validateForm_spec. simpl.
  apply andb_false_iff. left.
  destruct (forallb required_ok fs) eqn:E; auto.
  rewrite forallb_forall in E. specialize (E f Hin).
  unfold required_ok in E. now rewrite H1, H2, H3 in E.
Qed.

(** *** The submit handler *)

(** When validation fails the handler returns at once. *)
Lemma submit_invalid (svc : service) (p : page) :
  fst (validateForm (controls p)) = false ->
  submit svc p =
    (Some tt,
     {| doc := {| controls := snd (validateForm (controls p));
                  submitButton := submitButton p;
                  formResponse := formResponse p |};
        trace := [PreventDefault] |}).
Proof.
  intros H. unfold submit, onSubmit, validate, get_page, put_page, emit.
  unfold Stmt.bind, Stmt.ret. simpl.
  destruct (validateForm (controls p)) as [v fs]. simpl in *. subst v.
  reflexivity.
Qed.

Lemma value_of_found (i : string) (w : world) (f : field) :
  find (fun f => eqb (id f) (str i)) (controls (doc w)) = Some f ->
  value_of i w = (Some (value f), w).
Proof.
  intros H. unfold value_of, get_page, Stmt.bind. now rewrite H.
Qed.

(** C3. When a required control of the form has an empty value,
    [validateForm] returns [false], the submit handler returns, and
    [emailjs.send] is not called. *)
Theorem empty_required_field_never_sends
    (svc : service) (p : page) (f : field) :
  In f (controls p) -> in_form f = true -> required f = true -> value f = [] ->
  fst (validateForm (controls p)) = false /\
  fst (submit svc p) = Some tt /\
  sends (trace (snd (submit svc p))) = 0%nat.
Proof.
  intros Hin H1 H2 Hv.
  assert (Hb : blank f = true) by (unfold blank; now rewrite Hv).
  pose proof (validateForm_false_of_blank _ _ Hin H1 H2 Hb) as Hf.
  rewrite (submit_invalid svc p Hf). now repeat split.
Qed.

(** C9. A required control whose value consists of whitespace only is
    treated as empty: after the submission it carries [is-invalid],
    [validateForm] has returned [false], and [emailjs.send] is not
    called. *)
Theorem whitespace_required_field_counts_as_empty
    (svc : service) (p : page) (i : nat) (f : field) :
  nth_error (controls p) i = Some f ->
  in_form f = true -> required f = true ->
  forallb isWhiteSpace (value f) = true ->
  fst (validateForm (controls p)) = false /\
  (exists f',
      nth_error (controls (doc (snd (submit svc p)))) i = Some f' /\
      value f' = value f /\
      classList_contains is_invalid (classList f') = true) /\
  sends (trace (snd (submit svc p))) = 0%nat.
Proof.
  intros Hi H1 H2 Hws.
  pose proof (blank_whitespace f Hws) as Hb.
  pose proof (validateForm_false_of_blank _ _ (nth_error_In _ _ Hi) H1 H2 Hb) as Hf.
  rewrite (submit_invalid svc p Hf). simpl.
  repeat split; auto.
  rewrite validateForm_spec. simpl.
  rewrite nth_error_mark_email, nth_error_map, Hi. simpl.
  eexists. split; [reflexivity|].
  unfold mark_required. rewrite H1, H2, Hb. simpl.
  destruct (is_email_index _ i && malformed _); simpl; split; auto using contains_add.
Qed.

(** C5, as the code has it. [validateForm] returns [true] exactly when
    every required control of the form has a value that is not empty
    once trimmed and the first email input of the form, if its trimmed
    value is not empty, has a trimmed value that matches the pattern.
    Afterwards a required control carries [is-invalid] exactly when its
    trimmed value is empty or it is that email input and its trimmed
    value fails the pattern; its value is untouched. *)
Theorem validateForm_checks_trimmed_values (fs : list field) :
  (fst (validateForm fs) = true <-> valid_trimmed fs) /\
  (forall i f,
      nth_error fs i = Some f -> in_form f = true -> required f = true ->
      exists f',
        nth_error (snd (validateForm fs)) i = Some f' /\
        value f' = value f /\
        classList_contains is_invalid (classList f')
          = blank f || (is_email_index fs i && malformed f)).
Proof.
  rewrite validateForm_spec. simpl. split.
  - rewrite andb_true_iff, forallb_forall. unfold valid_trimmed, email_ok.
    split.
    + intros [Hreq Hmail]. split.
      * intros f Hin H1 H2 Hb. apply blank_empty in Hb.
        specialize (Hreq f Hin). unfold required_ok in Hreq.
        now rewrite H1, H2, Hb in Hreq.
      * intros f Hf Hne. rewrite Hf in Hmail. unfold malformed in Hmail.
        apply truthy_nonempty in Hne. rewrite Hne in Hmail. simpl in Hmail.
        now destruct (test emailPattern (trim (value f))).
    + intros [Hreq Hmail]. split.
      * intros f Hin. unfold required_ok.
        destruct (in_form f) eqn:H1; auto. destruct (required f) eqn:H2; auto.
        destruct (blank f) eqn:Hb; auto.
        apply blank_empty in Hb. now destruct (Hreq f Hin H1 H2).
      * destruct (emailField fs) as [f|] eqn:Hf; auto.
        unfold malformed. destruct (truthy (trim (value f))) eqn:Ht; auto.
        apply truthy_nonempty in Ht. now rewrite (Hmail f eq_refl Ht).
  - intros i f Hi H1 H2.
    rewrite nth_error_mark_email, nth_error_map, Hi. simpl.
    eexists. split; [reflexivity|].
    unfold is_email_index. rewrite email_index_mark_required.
    fold (is_email_index fs i). rewrite malformed_mark_required.
    unfold mark_required. rewrite H1, H2. simpl.
    destruct (blank f), (is_email_index fs i && malformed f); simpl;
      split; auto using contains_add, contains_remove.
Qed.

(** C7, as the code has it. On a page whose form has a submit button and
    where the controls [name], [email], [phone], [inquiry] and [message]
    exist, a submission that passes validation completes; with the
    EmailJS library loaded it makes exactly one call of [emailjs.send],
    whether the send succeeds or fails, and without the library it makes
    none; when the send fails or cannot be made, and the page has a
    [#formResponse] container, the failure message is put on display in
    it. *)
Theorem valid_submission_sends_once (svc : service) (p : page) (b : button) :
  fst (validateForm (controls p)) = true ->
  submitButton p = Some b ->
  has_control "name" p -> has_control "email" p -> has_control "phone" p ->
  has_control "inquiry" p -> has_control "message" p ->
  fst (submit svc p) = Some tt /\
  sends (trace (snd (submit svc p))) = (if called svc then 1 else 0)%nat /\
  (fulfilled svc = false -> formResponse p <> None ->
   shows_failure (doc (snd (submit svc p)))).
Proof.
  intros Hv Hb [f1 H1] [f2 H2] [f3 H3] [f4 H4] [f5 H5].
  pose proof (validateForm_same_data (controls p)) as Hsd.
  destruct (validateForm (controls p)) as [v fs] eqn:E.
  simpl in Hv, Hsd. subst v.
  destruct (find_same_data _ _ _ Hsd _ H1) as (g1 & G1 & _).
  destruct (find_same_data _ _ _ Hsd _ H2) as (g2 & G2 & _).
  destruct (find_same_data _ _ _ Hsd _ H3) as (g3 & G3 & _).
  destruct (find_same_data _ _ _ Hsd _ H4) as (g4 & G4 & _).
  destruct (find_same_data _ _ _ Hsd _ H5) as (g5 & G5 & _).
  unfold submit, onSubmit, validate, value_of, setButtonLoading, showFormResponse,
    reset, emailjs_send, get_page, put_page, emit,
    shows_failure, sends.
  unfold Stmt.try_finally, Stmt.try_catch, Stmt.bind, Stmt.ret, Stmt.throw.
  simpl. rewrite E. simpl. rewrite Hb. simpl.
  rewrite G1; simpl. rewrite G2; simpl. rewrite G3; simpl.
  rewrite G4; simpl. rewrite G5; simpl.
  destruct svc; destruct (formResponse p); simpl; repeat split;
    try reflexivity; try discriminate; congruence.
Qed.

End FormFacts.

(** C3 at work: the name is left empty. *)
Lemma empty_required_field_witness :
  In (Form.text_control "name" true EmptyString) (Form.controls (Form.page_with_name EmptyString)) /\
  Form.sends (Form.trace (snd (Form.submit Form.Delivers (Form.page_with_name EmptyString)))) = 0%nat.
Proof.
  assert (H : In (Form.text_control "name" true EmptyString)
                (Form.controls (Form.page_with_name EmptyString))) by (left; reflexivity).
  split; [exact H|].
  exact (proj2 (proj2 (empty_required_field_never_sends Form.Delivers (Form.page_with_name EmptyString)
                         (Form.text_control "name" true EmptyString)
                         H eq_refl eq_refl eq_refl))).
Defined.

(** C9 at work: the name is three spaces. *)
Lemma whitespace_required_field_witness :
  forallb Js.isWhiteSpace (Form.value (Form.text_control "name" true "   ")) = true /\
  fst (Form.validateForm (Form.controls (Form.page_with_name "   "))) = false /\
  Form.sends (Form.trace (snd (Form.submit Form.Delivers (Form.page_with_name "   ")))) = 0%nat.
Proof.
  pose proof (whitespace_required_field_counts_as_empty Form.Delivers
                (Form.page_with_name "   ") 0 (Form.text_control "name" true "   ")
                eq_refl eq_refl eq_refl eq_refl) as H.
  split; [reflexivity|]. split; [exact (proj1 H) | exact (proj2 (proj2 H))].
Defined.

(** C7 at work: the complete page, the send fails. *)
Lemma valid_submission_witness :
  fst (Form.validateForm (Form.controls Form.page_complete)) = true /\
  Form.sends (Form.trace (snd (Form.submit Form.Fails Form.page_complete))) = 1%nat /\
  Form.shows_failure (Form.doc (snd (Form.submit Form.Fails Form.page_complete))).
Proof.
  pose proof (valid_submission_sends_once Form.Fails Form.page_complete Form.send_button
                eq_refl eq_refl
                (ex_intro _ _ eq_refl) (ex_intro _ _ eq_refl) (ex_intro _ _ eq_refl)
                (ex_intro _ _ eq_refl) (ex_intro _ _ eq_refl)) as H.
  split; [reflexivity|]. split; [exact (proj1 (proj2 H))|].
  apply (proj2 (proj2 H)); [reflexivity | discriminate].
Defined.

(** C5 as stated fails. A required control holding one space has a
    non-empty value, yet [validateForm] returns [false]; a required
    email input holding [abc] is not empty, yet it ends with
    [is-invalid]. *)
Lemma validateForm_not_as_stated :
  ~ (fst (Form.validateForm [Form.text_control "name" true " "]) = true <->
     Form.valid_as_stated [Form.text_control "name" true " "]) /\
  ~ Form.marked_as_stated [Form.email_control true "abc"]
      (snd (Form.validateForm [Form.email_control true "abc"])).
Proof.
  split.
  - intros [_ H].
    assert (Hs : Form.valid_as_stated [Form.text_control "name" true " "]).
    { split.
      - intros f [<- | []] _ _. discriminate.
      - intros f Hf. discriminate Hf. }
    specialize (H Hs). vm_compute in H. discriminate.
  - intros H.
    specialize (H 0%nat _ _ eq_refl eq_refl eq_refl eq_refl).
    destruct H as [H _]. specialize (H eq_refl). discriminate.
Qed.

(** C7 as stated fails. Without a [#formResponse] container a failed
    send shows no message; without a [<button type="submit">] the handler
    stops before the send; and without the EmailJS library no call of
    [emailjs.send] is made at all. *)
Lemma submission_not_as_stated :
  ~ Form.reported_as_stated Form.Fails Form.page_without_response /\
  ~ Form.reported_as_stated Form.Delivers Form.page_without_button /\
  ~ Form.reported_as_stated Form.Missing Form.page_complete.
Proof.
  split; [|split]; intros H; destruct (H eq_refl) as [Hs Hf].
  - specialize (Hf eq_refl). vm_compute in Hf. discriminate.
  - vm_compute in Hs. discriminate.
  - vm_compute in Hs. discriminate.
Qed.

(* ------------------------------------------------------------------ *)
(** ** Initialisation with missing elements                            *)
(* ------------------------------------------------------------------ *)

Section InitFacts.
Import Stmt.

Lemma completes_ret {S : Type} : completes (@ret S unit tt).
Proof. intros w. now exists w. Qed.

Lemma completes_bind {S : Type} (m k : Stmt.M S unit) :
  completes m -> completes k -> completes (bind m (fun _ => k)).
Proof.
  intros Hm Hk w. unfold bind. destruct (Hm w) as [w1 ->]. apply Hk.
Qed.

Lemma completes_forEach {S X : Type} (body : X -> Stmt.M S unit) (xs : list X) :
  (forall x, completes (body x)) -> completes (forEach xs body).
Proof.
  intros Hbody. induction xs as [|x xs IH]; simpl.
  - apply completes_ret.
  - now apply completes_bind.
Qed.

Lemma completes_try_catch {S : Type} (body handler : Stmt.M S unit) :
  completes handler -> completes (try_catch body handler).
Proof.
  intros Hh w. unfold try_catch. destruct (body w) as [[[]|] w1].
  - now exists w1.
  - apply Hh.
Qed.

Lemma completes_install (x : Init.installed) : completes (Init.install x).
Proof. intros w. now exists (w ++ [x]). Qed.

Create HintDb init.

Local Hint Resolve completes_ret completes_bind completes_forEach
  completes_try_catch completes_install : init.

(** No initialiser of [static/js/script.js] throws, whatever the page
    lacks. *)
Lemma initialisers_complete (e : Init.env) :
  completes (Init.initEmailJS e) /\
  completes (Init.initContactForm e) /\
  completes (Init.initCounters e) /\
  completes (Init.initLightbox e) /\
  completes (Init.initSmoothScrolling e) /\
  completes (Init.initBackToTop e) /\
  completes (Init.initStickyHeader e) /\
  completes (Init.initMobileMenu e) /\
  completes (Init.initAnimations e) /\
  completes (Init.initTestimonialCarousel e) /\
  completes (Init.initHoverDropdowns e).
Proof.
  unfold Init.initEmailJS, Init.initContactForm, Init.initCounters,
    Init.initLightbox, Init.initSmoothScrolling, Init.initBackToTop,
    Init.initStickyHeader, Init.initMobileMenu, Init.initAnimations,
    Init.initTestimonialCarousel, Init.initHoverDropdowns.
  repeat split;
    repeat match goal with
      | |- completes (if ?c then _ else _) => destruct c
      end; auto 6 with init.
Qed.

(** With the animation library loaded, the [DOMContentLoaded] listener
    runs to its end on every page. *)
Lemma onDOMContentLoaded_completes (e : Init.env) :
  Init.AOS_loaded e = true -> completes (Init.onDOMContentLoaded e).
Proof.
  intros H. unfold Init.onDOMContentLoaded. rewrite H.
  destruct (initialisers_complete e)
    as (H1 & H2 & H3 & H4 & H5 & H6 & H7 & H8 & H9 & H10 & H11).
  auto 20 with init.
Qed.

(** A feature whose element is missing is skipped: its initialiser
    installs nothing. *)
Lemma guarded_features_skip (e : Init.env) (w : list Init.installed) :
  (Init.contactForm e = false -> Init.initContactForm e w = (Some tt, w)) /\
  (Init.counters e = 0%nat -> Init.initCounters e w = (Some tt, w)) /\
  (Init.backToTopButton e = false -> Init.initBackToTop e w = (Some tt, w)) /\
  (Init.header e = false -> Init.initStickyHeader e w = (Some tt, w)) /\
  (Init.navbarToggler e = false \/ Init.navbar e = false ->
   Init.initMobileMenu e w = (Some tt, w)) /\
  (Init.testimonialCarousel e = false ->
   Init.initTestimonialCarousel e w = (Some tt, w)).
Proof.
  unfold Init.initContactForm, Init.initCounters, Init.initBackToTop,
    Init.initStickyHeader, Init.initMobileMenu, Init.initTestimonialCarousel.
  repeat split; intros H.
  - now rewrite H.
  - now rewrite H.
  - now rewrite H.
  - now rewrite H.
  - destruct H as [H | H]; rewrite H; simpl; auto.
    now rewrite orb_true_r.
  - now rewrite H.
Qed.

(** In [script.js] the first statement dereferences [#menuToggle]: when
    the element is missing the script stops there and installs no
    listener at all. *)
Lemma script_stops_without_menuToggle (d : Script.dom) :
  Script.menuToggle d = None -> Script.load d = (None, []).
Proof.
  intros H. unfold Script.load, Script.script, Script.on, bind. now rewrite H.
Qed.

(** C8 fails on [script.js]. On a page without [#menuToggle] the script
    throws at its first statement and installs nothing; on a page without
    the gallery modal it throws at [closeModal.addEventListener] and the
    listeners after it (window click, form submit, window scroll) are
    never installed, although the contact form is there. *)
Theorem script_aborts_on_missing_element :
  Script.load Script.page_full =
    (Some tt,
     [Script.MenuToggleClick; Script.AnchorClick 2; Script.AnchorClick 3;
      Script.GalleryClick 4; Script.CloseModalClick; Script.WindowClick;
      Script.FormSubmit; Script.WindowScroll]) /\
  Script.load Script.page_without_menuToggle = (None, []) /\
  Script.load Script.page_without_gallery =
    (None, [Script.MenuToggleClick; Script.AnchorClick 2; Script.AnchorClick 3]).
Proof. repeat split. Qed.

End InitFacts.

(* ------------------------------------------------------------------ *)
(** ** The anchor click handler of [script.js]                         *)
(* ------------------------------------------------------------------ *)

Section AnchorFacts.
Import Js.
Import Script.

(** C10. A click on an anchor whose [href] is exactly [#] prevents the
    default action and scrolls nowhere; the only class list it may
    change is that of the menu [#navLinks], which loses [show] when it
    had it; no element gains or loses [active]. *)
Theorem hash_anchor_click_only_closes_menu (this : nat) (d : dom) :
  defaultPrevented (snd (click this (str "#") d)) = true /\
  scrolls (snd (click this (str "#") d)) = [] /\
  (forall n, navLinks d = Some n ->
             classes (page (snd (click this (str "#") d))) n
               = classList_remove show (classes d n)) /\
  (forall i, navLinks d <> Some i ->
             classes (page (snd (click this (str "#") d))) i = classes d i) /\
  (forall i, classList_contains active (classes (page (snd (click this (str "#") d))) i)
               = classList_contains active (classes d i)).
Proof.
  unfold click, onAnchorClick, preventDefault, get_dom, remove_class.
  unfold Stmt.when, Stmt.bind, Stmt.ret, Stmt.throw. simpl.
  destruct (navLinks d) as [nav|] eqn:Hnav; simpl.
  - destruct (classList_contains show (classes d nav)) eqn:Hshow; simpl.
    + repeat split; auto.
      * intros n [= <-]. now rewrite Nat.eqb_refl.
      * intros i Hi. destruct (Nat.eqb i nav) eqn:E; auto.
        apply Nat.eqb_eq in E. congruence.
      * intros i. destruct (Nat.eqb i nav) eqn:E; auto.
        apply Nat.eqb_eq in E. subst i.
        apply contains_remove_other. discriminate.
    + repeat split; auto.
      intros n [= <-]. now rewrite remove_absent.
  - repeat split; auto. discriminate.
Qed.

End AnchorFacts.
(* ------------------------------------------------------------------ *)
(** ** Which calls [debounce] delivers                                 *)
(* ------------------------------------------------------------------ *)

Section DeliveryFacts.
Import Debounce.

Variable A : Type.
Variable delay : Z.
Variable timer_first : bool.

Local Abbreviation exec := (Debounce.exec A delay timer_first).
Local Abbreviation step := (Debounce.step A delay timer_first).
Local Abbreviation run := (Debounce.run A delay timer_first).
Local Abbreviation scheduled := (Debounce.scheduled A delay).
Local Abbreviation delivered := (Delivery.delivered A delay).
Local Abbreviation ready := (Delivery.ready A delay timer_first).
Local Abbreviation survivors := (Delivery.survivors A delay timer_first).

Lemma exec_survivors (cs : list (Z * A)) :
  forall (c : Z * A) (st : Debounce.state A) (i : nat),
    timeoutId st = Some i ->
    pending (win st) = [scheduled i c] ->
    invoked (drain (win (exec (map (Debounce.call_event A) cs) st)))
      = invoked (win st) ++ map delivered (survivors (c :: cs)).
Proof.
  induction cs as [|c' cs IH]; intros c st i Hid Hp.
  - change (exec (map (Debounce.call_event A) []) st) with st.
    now rewrite (drain_one A _ _ Hp).
  - change (exec (map (Debounce.call_event A) (c' :: cs)) st)
      with (exec (map (Debounce.call_event A) cs) (step st (Debounce.call_event A c'))).
    change (survivors (c :: c' :: cs))
      with (if ready (fst c') c then c :: survivors (c' :: cs) else survivors (c' :: cs)).
    destruct (ready (fst c') c) eqn:Hr.
    + assert (Hstep : step st (Debounce.call_event A c') =
                {| timeoutId := Some (next_id (win st));
                   win := {| next_id := S (next_id (win st));
                             pending := [scheduled (next_id (win st)) c'];
                             invoked := invoked (win st) ++ [delivered c] |} |}).
      { unfold Debounce.call_event, Debounce.step.
        rewrite (elapse_late A timer_first _ _ _ Hp) by exact Hr.
        now rewrite wrapped_schedules. }
      rewrite Hstep.
      match goal with |- context [exec _ ?s] => set (st1 := s) end.
      rewrite (IH c' st1 (next_id (win st)) eq_refl eq_refl). simpl.
      now rewrite <- app_assoc.
    + assert (Hstep : step st (Debounce.call_event A c') =
                {| timeoutId := Some (next_id (win st));
                   win := {| next_id := S (next_id (win st));
                             pending := [scheduled (next_id (win st)) c'];
                             invoked := invoked (win st) |} |}).
      { unfold Debounce.call_event, Debounce.step.
        rewrite (elapse_early A timer_first _ _ _ Hp) by exact Hr.
        now rewrite (wrapped_replaces A delay _ _ _ (scheduled i c)). }
      rewrite Hstep.
      match goal with |- context [exec _ ?s] => set (st1 := s) end.
      now rewrite (IH c' st1 (next_id (win st)) eq_refl eq_refl).
Qed.

Lemma survivors_last (cs : list (Z * A)) :
  forall c, exists l, survivors (c :: cs) = l ++ [last cs c].
Proof.
  induction cs as [|c' cs IH]; intros c.
  - now exists [].
  - destruct (IH c') as [l Hl].
    change (survivors (c :: c' :: cs))
      with (if ready (fst c') c then c :: survivors (c' :: cs) else survivors (c' :: cs)).
    replace (last (c' :: cs) c) with (last cs c')
      by (clear; revert c'; induction cs as [|x xs IHxs]; intros c'; auto;
          simpl; destruct xs; auto).
    rewrite Hl. destruct (ready (fst c') c).
    + now exists (c :: l).
    + now exists l.
Qed.

Lemma survivors_incl (cs : list (Z * A)) :
  (List.length (survivors cs) <= List.length cs)%nat /\
  forall c, In c (survivors cs) -> In c cs.
Proof.
  induction cs as [|c cs [IHl IHi]]; [split; auto|].
  destruct cs as [|c' cs]; [split; auto|].
  change (survivors (c :: c' :: cs))
    with (if ready (fst c') c then c :: survivors (c' :: cs) else survivors (c' :: cs)).
  destruct (ready (fst c') c); split.
  - simpl in *. lia.
  - intros x [<- | Hx]; [now left | right; now apply IHi].
  - simpl in *. lia.
  - intros x Hx. right. now apply IHi.
Qed.

Lemma run_survivors (cs : list (Z * A)) :
  run cs = map delivered (survivors cs).
Proof.
  destruct cs as [|c cs]; [reflexivity|].
  unfold Debounce.run.
  change (exec (map (Debounce.call_event A) (c :: cs)) (debounce fresh_window))
    with (exec (map (Debounce.call_event A) cs)
            (step (debounce fresh_window) (Debounce.call_event A c))).
  rewrite first_call.
  match goal with |- context [exec _ ?s] => set (st1 := s) end.
  now rewrite (exec_survivors cs c st1 1%nat eq_refl eq_refl).
Qed.


(** The last call of a sequence is never lost: whatever the timing of
    the calls, the last thing [func] does is run with the arguments of
    the last call, [Debounce.timeout delay] after it (the delay as
    [setTimeout] reads it). And [func] never runs more often than the
    wrapped callback was called, nor with arguments that were not passed
    to it. *)
Theorem debounce_never_loses_last_call (c : Z * A) (cs : list (Z * A)) :
  (exists l, run (c :: cs) = l ++ [delivered (last cs c)]) /\
  (List.length (run (c :: cs)) <= List.length (c :: cs))%nat /\
  (forall x, In x (run (c :: cs)) -> exists c', In c' (c :: cs) /\ x = delivered c').
Proof.
  rewrite run_survivors.
  destruct (survivors_last cs c) as [l Hl].
  destruct (survivors_incl (c :: cs)) as [Hlen Hin].
  repeat split.
  - exists (map delivered l). now rewrite Hl, map_app.
  - now rewrite length_map.
  - intros x Hx. apply in_map_iff in Hx. destruct Hx as (c' & <- & Hc').
    exists c'. split; auto.
Qed.

End DeliveryFacts.

(* ------------------------------------------------------------------ *)
(** ** The debounced scroll listeners                                  *)
(* ------------------------------------------------------------------ *)

Section ScrollFacts.
Import Js.
Import ScrollListeners.

Variable threshold : Z.
Variable tok : jsstring.
Variable timer_first : bool.

Local Abbreviation scroll := (ScrollListeners.scroll (onScroll threshold tok) timer_first).
Local Abbreviation settle := (ScrollListeners.settle (onScroll threshold tok)).
Local Abbreviation run_fired := (ScrollListeners.run_fired (onScroll threshold tok)).
Local Abbreviation after_scrolling :=
  (ScrollListeners.after_scrolling (onScroll threshold tok) timer_first).

Lemma contains_add_other (t t' : jsstring) (cl : list jsstring) :
  t <> t' ->
  classList_contains t (classList_add t' cl) = classList_contains t cl.
Proof.
  intros Hne. unfold classList_add.
  destruct (classList_contains t' cl); auto.
  unfold classList_contains. rewrite existsb_app. simpl.
  destruct (eqb t t') eqn:E; [apply eqb_eq in E; contradiction|].
  now rewrite !orb_false_r.
Qed.

Lemma onScroll_sets (y : Z) (cl : list jsstring) :
  classList_contains tok (onScroll threshold tok y cl) = (y >? threshold).
Proof.
  unfold onScroll, classList_toggle_force.
  destruct (y >? threshold); [apply contains_add | apply contains_remove].
Qed.

Lemma onScroll_other (t : jsstring) (y : Z) (cl : list jsstring) :
  t <> tok ->
  classList_contains t (onScroll threshold tok y cl) = classList_contains t cl.
Proof.
  intros Hne. unfold onScroll, classList_toggle_force.
  destruct (y >? threshold);
    [now apply contains_add_other | now apply contains_remove_other].
Qed.

Lemma run_fired_other (t : jsstring) (n : nat) (w : Debounce.window unit) (y : Z) :
  t <> tok ->
  forall cl, classList_contains t (run_fired n w y cl) = classList_contains t cl.
Proof.
  intros Hne. unfold ScrollListeners.run_fired.
  induction (skipn n (Debounce.invoked w)) as [|x l IH]; intros cl; simpl; auto.
  rewrite IH. now apply onScroll_other.
Qed.

(** After a scroll event the closure holds one timer and the position is
    the one of the event. *)
Lemma scroll_arms (v : view) (e : Z * Z) :
  Debounce.at_most_one unit (timers v) /\ Debounce.handles_fresh unit (timers v) ->
  (Debounce.at_most_one unit (timers (scroll v e)) /\
   Debounce.handles_fresh unit (timers (scroll v e))) /\
  armed (scroll v e) /\
  pageYOffset (scroll v e) = snd e.
Proof.
  intros H.
  change (timers (scroll v e))
    with (Debounce.step unit delay timer_first (timers v) (Debounce.Call (fst e) tt)).
  split; [now apply step_keeps_invariant|]. split; [|reflexivity].
  unfold armed.
  change (timers (scroll v e))
    with (Debounce.wrapped unit delay (fst e) tt
            {| Debounce.timeoutId := Debounce.timeoutId (timers v);
               Debounce.win := Debounce.elapse unit timer_first (fst e)
                                 (Debounce.win (timers v)) |}).
  destruct (elapse_keeps_invariant unit timer_first (fst e) _ H) as [H1 _].
  rewrite (wrapped_after unit delay _ _ _ H1). simpl.
  eexists. split; reflexivity.
Qed.

Lemma scrolls_arm (es : list (Z * Z)) :
  forall (v : view) (e : Z * Z),
    Debounce.at_most_one unit (timers v) /\ Debounce.handles_fresh unit (timers v) ->
    armed (fold_left scroll (e :: es) v) /\
    pageYOffset (fold_left scroll (e :: es) v) = snd (last es e).
Proof.
  induction es as [|e' es IH]; intros v e H.
  - now destruct (scroll_arms v e H) as (_ & Ha & Hy).
  - destruct (scroll_arms v e H) as (H1 & _ & _).
    change (fold_left scroll (e :: e' :: es) v)
      with (fold_left scroll (e' :: es) (scroll v e)).
    replace (last (e' :: es) e) with (last es e')
      by (clear; revert e'; induction es as [|x xs IHxs]; intros e'; auto;
          simpl; destruct xs; auto).
    now apply IH.
Qed.

Lemma settle_armed (v : view) :
  armed v ->
  classes (settle v) = onScroll threshold tok (pageYOffset v) (classes v).
Proof.
  intros (tm & Hp & _). unfold ScrollListeners.settle, ScrollListeners.run_fired.
  cbn [classes]. rewrite (drain_one unit _ _ Hp).
  rewrite skipn_app, skipn_all, Nat.sub_diag. reflexivity.
Qed.

Lemma scrolls_other (t : jsstring) (es : list (Z * Z)) :
  t <> tok ->
  forall v, classList_contains t (classes (fold_left scroll es v))
            = classList_contains t (classes v).
Proof.
  intros Hne. induction es as [|e es IH]; intros v; simpl; auto.
  rewrite IH. simpl. now apply run_fired_other.
Qed.

(** Once scrolling has stopped and the timer has run, the element
    carries the class exactly when the last scroll position is beyond
    the threshold; every other class is as it was when the page
    loaded. Without any scroll event the classes are never touched. *)
Lemma after_scrolling_spec (y0 : Z) (cl0 : list jsstring) :
  after_scrolling y0 cl0 [] = cl0 /\
  (forall e es,
      classList_contains tok (after_scrolling y0 cl0 (e :: es))
        = (snd (last es e) >? threshold)) /\
  (forall t es, t <> tok ->
      classList_contains t (after_scrolling y0 cl0 es) = classList_contains t cl0).
Proof.
  repeat split.
  - intros e es. unfold ScrollListeners.after_scrolling.
    destruct (scrolls_arm es (loaded y0 cl0) e (initial_invariant unit)) as [Ha Hy].
    rewrite (settle_armed _ Ha), Hy. apply onScroll_sets.
  - intros t es Hne. unfold ScrollListeners.after_scrolling.
    unfold ScrollListeners.settle. simpl.
    rewrite run_fired_other by exact Hne.
    now rewrite scrolls_other.
Qed.

End ScrollFacts.

(** After any scrolling, once the page is quiet, the back-to-top button
    shows exactly when the page rests more than 300 pixels down; its
    other classes are untouched; as long as no scroll event has
    happened, the button is as the markup has it. *)
Theorem backToTop_follows_last_position
    (timer_first : bool) (y0 : Z) (cl0 : list Js.jsstring) :
  ScrollListeners.after_scrolling ScrollListeners.backToTop_onScroll timer_first y0 cl0 [] = cl0 /\
  (forall e es,
      Js.classList_contains (Js.str "show")
        (ScrollListeners.after_scrolling ScrollListeners.backToTop_onScroll
           timer_first y0 cl0 (e :: es))
        = (snd (last es e) >? 300)) /\
  (forall t es, t <> Js.str "show" ->
      Js.classList_contains t
        (ScrollListeners.after_scrolling ScrollListeners.backToTop_onScroll
           timer_first y0 cl0 es)
        = Js.classList_contains t cl0).
Proof. apply after_scrolling_spec. Qed.

(** The same for the header: after any scrolling it is [sticky] exactly
    when the page rests more than 100 pixels down. *)
Theorem stickyHeader_follows_last_position
    (timer_first : bool) (y0 : Z) (cl0 : list Js.jsstring) :
  ScrollListeners.after_scrolling ScrollListeners.stickyHeader_onScroll timer_first y0 cl0 [] = cl0 /\
  (forall e es,
      Js.classList_contains (Js.str "sticky")
        (ScrollListeners.after_scrolling ScrollListeners.stickyHeader_onScroll
           timer_first y0 cl0 (e :: es))
        = (snd (last es e) >? 100)) /\
  (forall t es, t <> Js.str "sticky" ->
      Js.classList_contains t
        (ScrollListeners.after_scrolling ScrollListeners.stickyHeader_onScroll
           timer_first y0 cl0 es)
        = Js.classList_contains t cl0).
Proof. apply after_scrolling_spec. Qed.


(* ------------------------------------------------------------------ *)
(** ** The counter, frame by frame                                     *)
(* ------------------------------------------------------------------ *)

Section CounterFrameFacts.
Import Counter.

Lemma frames_idle (T inc shown : number) (n : nat) :
  lt zero T = true ->
  requested (frames n {| target := T; increment := zero; count := zero;
                         innerText := shown; requested := true |}) = true /\
  count (frames n {| target := T; increment := zero; count := zero;
                     innerText := shown; requested := true |}) = zero.
Proof.
  intros H. revert shown. induction n as [|n IH]; intros shown; [now split|].
  change (frames (S n) ?a) with (frames n (frame a)).
  unfold frame, updateCount. cbn [requested count target increment].
  rewrite H. change (add zero zero) with zero. apply IH.
Qed.

(** For a positive whole target, whatever its size, each of the first
    200 frames counts and requests the next one, and the animation has
    stopped with the target written after frame 202: the frame that
    stops it is frame 201 or frame 202, depending on how the 200 rounded
    additions come out. *)
Theorem positive_target_stops_at_frame_201_or_202
    (shown : number) (m : positive) (e : Z) :
  parsed (S754_finite false m e) = true ->
  (forall k, (k <= 200)%nat ->
     requested (frames k (animateCounter shown (S754_finite false m e) speed)) = true) /\
  requested (frames 202 (animateCounter shown (S754_finite false m e) speed)) = false /\
  innerText (frames 202 (animateCounter shown (S754_finite false m e) speed))
    = S754_finite false m e.
Proof.
  intros Hp. destruct (positive_target shown m e Hp) as ([Hr Hi] & Hk & _).
  repeat split; assumption.
Qed.

(** Rounding never stalls the animation: for a positive whole target,
    at each of the first 200 frames [count] ends above the value it had
    before the frame. *)
Theorem count_grows_at_every_counting_frame
    (shown : number) (m : positive) (e : Z) (k : nat) :
  parsed (S754_finite false m e) = true -> (k < 200)%nat ->
  lt (count (frames k (animateCounter shown (S754_finite false m e) speed)))
     (count (frames (S k) (animateCounter shown (S754_finite false m e) speed))) = true.
Proof.
  intros Hp Hk. destruct (positive_target shown m e Hp) as (_ & _ & Hg).
  now apply Hg.
Qed.

(** A target that is not above 0, or that is [NaN], is written at the
    first frame, without counting: the animation stops there. *)
Theorem target_not_above_zero_is_written_at_once (shown t : number) :
  above_zero t = false ->
  requested (frames 1 (animateCounter shown t speed)) = false /\
  innerText (frames 1 (animateCounter shown t speed)) = t /\
  count (frames 1 (animateCounter shown t speed)) = zero.
Proof.
  intros H.
  assert (Hlt : lt zero t = false).
  { destruct t as [[] | [] | | [] m e]; try discriminate H; reflexivity. }
  change (frames 1 (animateCounter shown t speed)) with (frame (animateCounter shown t speed)).
  destruct (frame_stops (animateCounter shown t speed) eq_refl Hlt) as [[Hr Hi] Hc].
  repeat split; assumption.
Qed.

(** [animateCounter] called with a target above 0 whose quotient by
    [speed] rounds to 0 never stops: every frame finds [count] at 0,
    below the target, and requests another frame. *)
Theorem zero_increment_never_stops (shown T s : number) (n : nat) :
  lt zero T = true -> div T s = zero ->
  requested (frames n (animateCounter shown T s)) = true /\
  count (frames n (animateCounter shown T s)) = zero.
Proof.
  intros Hlt Hd. unfold animateCounter. rewrite Hd. now apply frames_idle.
Qed.

End CounterFrameFacts.

(* ------------------------------------------------------------------ *)
(** ** More on [validateForm]                                          *)
(* ------------------------------------------------------------------ *)

Section ValidateFacts.
Import Js.
Import Form.

Lemma add_present (tok : jsstring) (cl : list jsstring) :
  classList_contains tok cl = true -> classList_add tok cl = cl.
Proof. intros H. unfold classList_add. now rewrite H. Qed.

Lemma add_add (tok : jsstring) (cl : list jsstring) :
  classList_add tok (classList_add tok cl) = classList_add tok cl.
Proof. apply add_present, contains_add. Qed.

Lemma remove_remove (tok : jsstring) (cl : list jsstring) :
  classList_remove tok (classList_remove tok cl) = classList_remove tok cl.
Proof. apply remove_absent, contains_remove. Qed.

Lemma remove_add_remove (tok : jsstring) (cl : list jsstring) :
  classList_remove tok (classList_add tok (classList_remove tok cl))
    = classList_remove tok cl.
Proof.
  unfold classList_add at 1. rewrite contains_remove.
  unfold classList_remove at 1. rewrite filter_app. simpl.
  replace (eqb tok tok) with true by (symmetry; now apply eqb_eq).
  simpl. rewrite app_nil_r. apply remove_remove.
Qed.

(** What [validateForm] makes of the control at position [i]. *)
Lemma validateForm_at (fs : list field) (i : nat) :
  nth_error (snd (validateForm fs)) i =
    option_map
      (fun f => if is_email_index fs i && malformed f
                then set_classList (classList_add is_invalid (classList (mark_required f)))
                       (mark_required f)
                else mark_required f)
      (nth_error fs i).
Proof.
  rewrite validateForm_spec. simpl.
  rewrite nth_error_mark_email, nth_error_map.
  unfold is_email_index. rewrite email_index_mark_required.
  destruct (nth_error fs i) as [f|]; simpl; auto.
  now rewrite malformed_mark_required.
Qed.

Lemma required_ok_same (f f' : field) :
  in_form f' = in_form f -> required f' = required f -> value f' = value f ->
  required_ok f' = required_ok f.
Proof.
  intros H1 H2 H3. unfold required_ok, blank. now rewrite H1, H2, H3.
Qed.

(** The marks [validateForm] leaves do not change what it checks. *)
Lemma validateForm_keeps_flags (fs : list field) :
  Forall2 (fun f f' => in_form f' = in_form f /\ required f' = required f /\
                       email_input f' = email_input f /\ value f' = value f)
    fs (snd (validateForm fs)).
Proof.
  rewrite validateForm_spec. simpl.
  assert (Hmap : forall l, Forall2 (fun f f' => in_form f' = in_form f /\ required f' = required f /\
                       email_input f' = email_input f /\ value f' = value f)
                     l (map mark_required l)).
  { induction l as [|g l IH]; simpl; constructor; auto.
    destruct (mark_required_keeps g) as (_ & E1 & E2 & E3 & E4 & _). auto. }
  induction fs as [|f fs IH]; simpl; [constructor|].
  destruct (mark_required_keeps f) as (_ & E1 & E2 & E3 & E4 & _).
  rewrite E1, E3.
  destruct (in_form f && email_input f).
  - constructor; auto.
    destruct (malformed (mark_required f)); simpl; auto.
  - constructor; auto.
Qed.

Lemma flags_same_checks (fs fs' : list field) :
  Forall2 (fun f f' => in_form f' = in_form f /\ required f' = required f /\
                       email_input f' = email_input f /\ value f' = value f)
    fs fs' ->
  forallb required_ok fs' = forallb required_ok fs /\
  email_ok fs' = email_ok fs /\
  email_index fs' = email_index fs.
Proof.
  unfold email_ok, emailField.
  induction 1 as [|f f' fs fs' (H1 & H2 & H3 & H4) _ (IH1 & IH2 & IH3)]; simpl; auto.
  rewrite H1, H3, IH1, IH3, (required_ok_same f f' H1 H2 H4).
  repeat split; auto.
  destruct (in_form f && email_input f); auto.
  unfold malformed. now rewrite H4.
Qed.

(** Validating again changes nothing: a second [validateForm] on the
    controls as the first one left them returns the same verdict and
    leaves every class list as it is. *)
Theorem validateForm_twice (fs : list field) :
  validateForm (snd (validateForm fs)) = validateForm fs.
Proof.
  destruct (flags_same_checks _ _ (validateForm_keeps_flags fs)) as (E1 & E2 & E3).
  apply injective_projections.
  - set (fs' := snd (validateForm fs)) in *.
    rewrite (validateForm_spec fs'). cbn [fst]. rewrite E1, E2.
    now rewrite (validateForm_spec fs).
  - apply nth_error_ext. intros i.
    set (fs' := snd (validateForm fs)) in *.
    rewrite (validateForm_at fs' i).
    unfold is_email_index at 1. rewrite E3. fold (is_email_index fs i).
    subst fs'. rewrite (validateForm_at fs i).
    destruct (nth_error fs i) as [f|]; simpl; auto. f_equal.
    unfold mark_required, malformed, blank.
    destruct (in_form f && required f) eqn:Hreq;
      destruct (is_email_index fs i) eqn:Hidx;
      destruct (truthy (trim (value f))) eqn:Hv;
      destruct (test emailPattern (trim (value f))) eqn:Ht;
      simpl; rewrite ?Hreq, ?Hv, ?Ht; simpl;
      rewrite ?Hreq, ?Hv, ?Ht; simpl;
      unfold set_classList; simpl;
      rewrite ?add_add, ?remove_remove, ?remove_add_remove; reflexivity.
Qed.

Lemma mark_required_other (tok : jsstring) (f : field) :
  tok <> is_invalid ->
  classList_contains tok (classList (mark_required f))
    = classList_contains tok (classList f).
Proof.
  intros Htok. unfold mark_required.
  destruct (in_form f && required f); auto.
  destruct (blank f); simpl;
    [now apply contains_add_other | now apply contains_remove_other].
Qed.

Lemma outside_form_not_email (fs : list field) :
  forall i f, nth_error fs i = Some f -> in_form f = false ->
              is_email_index fs i = false.
Proof.
  unfold is_email_index.
  induction fs as [|g fs IH]; intros [|i] f Hi Hin; simpl in *; try discriminate.
  - injection Hi as ->. rewrite Hin. simpl. now destruct (email_index fs).
  - specialize (IH i f Hi Hin).
    destruct (in_form g && email_input g); auto.
    destruct (email_index fs); simpl in *; auto.
Qed.

(** [validateForm] touches nothing but the class [is-invalid]: it keeps
    the number and order of the controls, their ids, flags and values,
    and the membership of every other class; a control outside the form
    is not touched at all. *)
Theorem validateForm_touches_only_is_invalid (fs : list field) :
  List.length (snd (validateForm fs)) = List.length fs /\
  forall i f,
    nth_error fs i = Some f ->
    exists f',
      nth_error (snd (validateForm fs)) i = Some f' /\
      (id f' = id f /\ in_form f' = in_form f /\ required f' = required f /\
       email_input f' = email_input f /\ value f' = value f /\
       defaultValue f' = defaultValue f) /\
      (forall tok, tok <> is_invalid ->
         classList_contains tok (classList f') = classList_contains tok (classList f)) /\
      (in_form f = false -> f' = f).
Proof.
  split.
  - rewrite <- (Forall2_length (validateForm_keeps_flags fs)). reflexivity.
  - intros i f Hi. rewrite validateForm_at, Hi. simpl.
    eexists. split; [reflexivity|].
    pose proof (mark_required_keeps f) as Hkeep.
    split; [|split].
    + destruct (is_email_index fs i && malformed f); simpl; exact Hkeep.
    + intros tok Htok.
      destruct (is_email_index fs i && malformed f); simpl.
      * rewrite contains_add_other by exact Htok. now apply mark_required_other.
      * now apply mark_required_other.
    + intros Hin. rewrite (outside_form_not_email fs i f Hi Hin). simpl.
      unfold mark_required. now rewrite Hin.
Qed.

(** A control that is not required never loses [is-invalid]: once an
    optional control carries the mark, [validateForm] leaves it exactly
    as it is, whatever its value is now. *)
Theorem validateForm_keeps_mark_on_optional (fs : list field) (i : nat) (f : field) :
  nth_error fs i = Some f ->
  in_form f && required f = false ->
  classList_contains is_invalid (classList f) = true ->
  nth_error (snd (validateForm fs)) i = Some f.
Proof.
  intros Hi Hopt Hmark. rewrite validateForm_at, Hi. simpl.
  unfold mark_required. rewrite Hopt.
  destruct (is_email_index fs i && malformed f); auto.
  rewrite (add_present _ _ Hmark). now destruct f.
Qed.

End ValidateFacts.


(* ------------------------------------------------------------------ *)
(** ** What a submission does                                          *)
(* ------------------------------------------------------------------ *)

Section SubmitFacts.
Import Js.
Import Form.
Import Submission.

Ltac unfold_submit :=
  unfold submit, onSubmit, validate, value_of, setButtonLoading, showFormResponse,
    reset, emailjs_send, get_page, put_page, emit;
  unfold Stmt.try_finally, Stmt.try_catch, Stmt.bind, Stmt.ret, Stmt.throw.

(** Validation changes neither which controls the handler finds nor
    their values. *)
Lemma getElementById_validated (i : string) (fs : list field) :
  present (getElementById i (snd (validateForm fs))) = present (getElementById i fs) /\
  option_map value (getElementById i (snd (validateForm fs)))
    = option_map value (getElementById i fs).
Proof.
  unfold getElementById.
  pose proof (validateForm_same_data fs) as Hsd.
  induction Hsd as [|f f' l l' [Hid Hval] _ IH]; simpl; auto.
  rewrite Hid. destruct (eqb (id f) (str i)); simpl.
  - now rewrite Hval.
  - exact IH.
Qed.

Lemma payload_validated (fs : list field) :
  payload (snd (validateForm fs)) = payload fs.
Proof.
  unfold payload.
  destruct (getElementById_validated "name" fs) as (_ & E1).
  destruct (getElementById_validated "email" fs) as (_ & E2).
  destruct (getElementById_validated "phone" fs) as (_ & E3).
  destruct (getElementById_validated "inquiry" fs) as (_ & E4).
  destruct (getElementById_validated "message" fs) as (_ & E5).
  destruct (getElementById "name" (snd (validateForm fs))),
           (getElementById "name" fs); simpl in E1; try discriminate; auto.
  destruct (getElementById "email" (snd (validateForm fs))),
           (getElementById "email" fs); simpl in E2; try discriminate; auto.
  destruct (getElementById "phone" (snd (validateForm fs))),
           (getElementById "phone" fs); simpl in E3; try discriminate; auto.
  destruct (getElementById "inquiry" (snd (validateForm fs))),
           (getElementById "inquiry" fs); simpl in E4; try discriminate; auto.
  destruct (getElementById "message" (snd (validateForm fs))),
           (getElementById "message" fs); simpl in E5; try discriminate; auto.
  congruence.
Qed.

Lemma inputs_present_validated (fs : list field) :
  inputs_present (snd (validateForm fs)) = inputs_present fs.
Proof.
  unfold inputs_present.
  destruct (getElementById_validated "name" fs) as (-> & _).
  destruct (getElementById_validated "email" fs) as (-> & _).
  destruct (getElementById_validated "phone" fs) as (-> & _).
  destruct (getElementById_validated "inquiry" fs) as (-> & _).
  destruct (getElementById_validated "message" fs) as (-> & _).
  reflexivity.
Qed.

Lemma payload_present (fs : list field) :
  inputs_present fs = true <-> exists d, payload fs = Some d.
Proof.
  unfold inputs_present, payload.
  destruct (getElementById "name" fs), (getElementById "email" fs),
    (getElementById "phone" fs), (getElementById "inquiry" fs),
    (getElementById "message" fs); simpl; split; intros H;
    try discriminate; try (destruct H; discriminate); eauto.
Qed.

(** The whole of a submission that gets as far as the send. *)
Lemma submit_reaching_send (svc : service) (p : page) (b : button) (d : formData) :
  fst (validateForm (controls p)) = true ->
  submitButton p = Some b ->
  payload (controls p) = Some d ->
  submit svc p =
    (Some tt,
     {| doc :=
          {| controls :=
               if fulfilled svc
               then map reset_control (snd (validateForm (controls p)))
               else snd (validateForm (controls p));
             submitButton :=
               Some {| button_innerHTML := button_innerHTML b; disabled := false |};
             formResponse :=
               match formResponse p with
               | None => None
               | Some _ =>
                   Some {| innerHTML :=
                             responseHTML (fulfilled svc)
                               (if fulfilled svc then successMessage else failureMessage);
                           display := str "block" |}
               end |};
        trace :=
          [PreventDefault]
            ++ (if called svc then [Send d] else [])
            ++ (if fulfilled svc then [] else [ConsoleError])
            ++ match formResponse p with
               | None => []
               | Some _ => [ScrollIntoView; HideAfter 5000]
               end |}).
Proof.
  intros Hv Hb Hd.
  rewrite <- payload_validated in Hd.
  destruct (validateForm (controls p)) as [v fs] eqn:E.
  simpl in Hv, Hd. subst v.
  unfold payload, getElementById in Hd.
  unfold_submit. simpl. rewrite E. simpl. rewrite Hb. simpl.
  destruct (find (fun f => eqb (id f) (str "name")) fs) as [g1|]; [|discriminate].
  simpl.
  destruct (find (fun f => eqb (id f) (str "email")) fs) as [g2|]; [|discriminate].
  simpl.
  destruct (find (fun f => eqb (id f) (str "phone")) fs) as [g3|]; [|discriminate].
  simpl.
  destruct (find (fun f => eqb (id f) (str "inquiry")) fs) as [g4|]; [|discriminate].
  simpl.
  destruct (find (fun f => eqb (id f) (str "message")) fs) as [g5|]; [|discriminate].
  simpl. injection Hd as <-.
  destruct svc; destruct (formResponse p); reflexivity.
Qed.

(** The whole of a submission that passes validation and finds the
    button but not all five controls: it throws with the button left in
    its loading state. *)
Lemma submit_missing_input (svc : service) (p : page) (b : button) :
  fst (validateForm (controls p)) = true ->
  submitButton p = Some b ->
  inputs_present (controls p) = false ->
  submit svc p =
    (None,
     {| doc := {| controls := snd (validateForm (controls p));
                  submitButton := Some loading_button;
                  formResponse := formResponse p |};
        trace := [PreventDefault] |}).
Proof.
  intros Hv Hb Hi.
  rewrite <- inputs_present_validated in Hi.
  destruct (validateForm (controls p)) as [v fs] eqn:E.
  simpl in Hv, Hi. subst v.
  unfold inputs_present, getElementById in Hi.
  unfold_submit. simpl. rewrite E. simpl. rewrite Hb. simpl.
  destruct (find (fun f => eqb (id f) (str "name")) fs) as [g1|]; [|reflexivity].
  simpl.
  destruct (find (fun f => eqb (id f) (str "email")) fs) as [g2|]; [|reflexivity].
  simpl.
  destruct (find (fun f => eqb (id f) (str "phone")) fs) as [g3|]; [|reflexivity].
  simpl.
  destruct (find (fun f => eqb (id f) (str "inquiry")) fs) as [g4|]; [|reflexivity].
  simpl.
  destruct (find (fun f => eqb (id f) (str "message")) fs) as [g5|]; [|reflexivity].
  discriminate Hi.
Qed.

Lemma submit_missing_button (svc : service) (p : page) :
  fst (validateForm (controls p)) = true ->
  submitButton p = None ->
  submit svc p =
    (None,
     {| doc := {| controls := snd (validateForm (controls p));
                  submitButton := None;
                  formResponse := formResponse p |};
        trace := [PreventDefault] |}).
Proof.
  intros Hv Hb.
  destruct (validateForm (controls p)) as [v fs] eqn:E.
  simpl in Hv. subst v.
  unfold_submit. simpl. rewrite E. simpl. now rewrite Hb.
Qed.

Lemma validateForm_touches_flags (fs : list field) :
  Forall2 (fun f f' => in_form f' = in_form f /\ value f' = value f /\
                       defaultValue f' = defaultValue f)
    fs (snd (validateForm fs)).
Proof.
  rewrite validateForm_spec. simpl.
  assert (Hmap : forall l, Forall2 (fun f f' => in_form f' = in_form f /\ value f' = value f /\
                       defaultValue f' = defaultValue f) l (map mark_required l)).
  { induction l as [|g l IH]; simpl; constructor; auto.
    destruct (mark_required_keeps g) as (_ & E1 & _ & _ & E4 & E5). auto. }
  induction fs as [|f fs IH]; simpl; [constructor|].
  destruct (mark_required_keeps f) as (_ & E1 & _ & E3 & E4 & E5).
  rewrite E1, E3.
  destruct (in_form f && email_input f).
  - constructor; auto.
    destruct (malformed (mark_required f)); simpl; auto.
  - constructor; auto.
Qed.

Lemma reset_values (fs fs' : list field) :
  Forall2 (fun f f' => in_form f' = in_form f /\ value f' = value f /\
                       defaultValue f' = defaultValue f) fs fs' ->
  map (fun f => value (reset_control f)) fs'
    = map (fun f => if in_form f then defaultValue f else value f) fs.
Proof.
  induction 1 as [|f f' l l' (H1 & H2 & H3) _ IH]; simpl; auto.
  rewrite IH. f_equal. unfold reset_control. rewrite H1.
  destruct (in_form f); simpl; congruence.
Qed.

Lemma validated_values (fs : list field) :
  map value (snd (validateForm fs)) = map value fs.
Proof.
  pose proof (validateForm_same_data fs) as Hsd.
  induction Hsd as [|f f' l l' [_ Hval] _ IH]; simpl; auto.
  now rewrite Hval, IH.
Qed.

(** [emailjs.send] is called exactly when the form is valid, the form
    has its submit button, the five controls are in the document and the
    EmailJS library is loaded: once in that case, never otherwise,
    whatever the send answers; and every submission starts by preventing
    the default action. *)
Theorem send_exactly_when_ready (svc : service) (p : page) :
  sends (trace (snd (submit svc p)))
    = (if reaches_send p && called svc then 1 else 0)%nat /\
  hd_error (trace (snd (submit svc p))) = Some PreventDefault.
Proof.
  unfold reaches_send.
  destruct (fst (validateForm (controls p))) eqn:Hv.
  - destruct (submitButton p) as [b|] eqn:Hb.
    + destruct (inputs_present (controls p)) eqn:Hi.
      * destruct (proj1 (payload_present _) Hi) as [d Hd].
        rewrite (submit_reaching_send svc p b d Hv Hb Hd). simpl.
        destruct svc, (formResponse p); split; reflexivity.
      * rewrite (submit_missing_input svc p b Hv Hb Hi). now split.
    + rewrite (submit_missing_button svc p Hv Hb). now split.
  - rewrite (submit_invalid svc p Hv). now split.
Qed.

(** With the EmailJS library loaded, the one send of a submission
    carries the values of the controls [name], [email], [phone] and
    [message] as they were typed, trimmed, and the value of [inquiry] as
    it is; without the library nothing is sent. *)
Theorem submission_sends_trimmed_values
    (svc : service) (p : page) (b : button) (d : formData) :
  fst (validateForm (controls p)) = true ->
  submitButton p = Some b ->
  payload (controls p) = Some d ->
  filter is_send (trace (snd (submit svc p)))
    = if called svc then [Send d] else [].
Proof.
  intros Hv Hb Hd. rewrite (submit_reaching_send svc p b d Hv Hb Hd). simpl.
  destruct svc, (formResponse p); reflexivity.
Qed.

(** After a submission that got as far as the send, the button is back:
    enabled, with the content it had. A send that fails, or cannot be
    made because the EmailJS library is missing, leaves every control
    with the value the user typed; a successful one puts every control
    of the form back to its default value and leaves the controls
    outside the form alone. *)
Theorem submission_restores_button_and_form
    (svc : service) (p : page) (b : button) (d : formData) :
  fst (validateForm (controls p)) = true ->
  submitButton p = Some b ->
  payload (controls p) = Some d ->
  submitButton (doc (snd (submit svc p)))
    = Some {| button_innerHTML := button_innerHTML b; disabled := false |} /\
  (fulfilled svc = false ->
   map value (controls (doc (snd (submit svc p)))) = map value (controls p)) /\
  (fulfilled svc = true ->
   map value (controls (doc (snd (submit svc p))))
     = map (fun f => if in_form f then defaultValue f else value f) (controls p)).
Proof.
  intros Hv Hb Hd. rewrite (submit_reaching_send svc p b d Hv Hb Hd). simpl.
  split; [reflexivity|]. split; intros ->.
  - apply validated_values.
  - rewrite map_map. apply reset_values, validateForm_touches_flags.
Qed.

(** When the form is valid and has its button but one of the five
    controls is missing from the document, the handler throws before
    the send: nothing is sent, no message is shown, and the button stays
    disabled with the spinner. *)
Theorem missing_input_leaves_button_loading (svc : service) (p : page) (b : button) :
  fst (validateForm (controls p)) = true ->
  submitButton p = Some b ->
  inputs_present (controls p) = false ->
  fst (submit svc p) = None /\
  sends (trace (snd (submit svc p))) = 0%nat /\
  submitButton (doc (snd (submit svc p))) = Some loading_button /\
  formResponse (doc (snd (submit svc p))) = formResponse p.
Proof.
  intros Hv Hb Hi. rewrite (submit_missing_input svc p b Hv Hb Hi).
  now repeat split.
Qed.

End SubmitFacts.

(* ------------------------------------------------------------------ *)
(** ** [script.js]: menu, anchors and scroll highlight                 *)
(* ------------------------------------------------------------------ *)

Section NavFacts.
Import Js.
Import Stmt.
Import Script.
Import Nav.

Lemma same_lookups_refl (d : dom) : same_lookups d d.
Proof. now repeat split. Qed.

Lemma same_lookups_trans (d1 d2 d3 : dom) :
  same_lookups d1 d2 -> same_lookups d2 d3 -> same_lookups d1 d3.
Proof.
  intros (A1 & A2 & A3 & A4 & A5) (B1 & B2 & B3 & B4 & B5).
  repeat split; congruence.
Qed.

Lemma remove_class_updates (el : nat) (tok : jsstring) :
  updates (remove_class el tok) el (classList_remove tok).
Proof.
  intros s. eexists. split; [reflexivity|]. now repeat split.
Qed.

Lemma add_class_updates (el : nat) (tok : jsstring) :
  updates (add_class el tok) el (classList_add tok).
Proof.
  intros s. eexists. split; [reflexivity|]. now repeat split.
Qed.

Lemma toggle_class_updates (el : nat) (tok : jsstring) :
  updates (toggle_class el tok) el (classList_toggle tok).
Proof.
  intros s. eexists. split; [reflexivity|]. now repeat split.
Qed.

(** Two rewritings of the same element in a row are one. *)
Lemma updates_then (m1 m2 : H unit) (el : nat) (g1 g2 : list jsstring -> list jsstring) :
  updates m1 el g1 -> updates m2 el g2 ->
  updates (bind m1 (fun _ => m2)) el (fun cl => g2 (g1 cl)).
Proof.
  intros H1 H2 s. unfold bind.
  destruct (H1 s) as (s1 & -> & P1 & S1 & L1 & C1).
  destruct (H2 s1) as (s2 & -> & P2 & S2 & L2 & C2).
  exists s2. split; [reflexivity|].
  repeat split; try congruence.
  - apply (same_lookups_trans _ _ _ L1 L2).
  - apply (same_lookups_trans _ _ _ L1 L2).
  - apply (same_lookups_trans _ _ _ L1 L2).
  - apply (same_lookups_trans _ _ _ L1 L2).
  - apply (same_lookups_trans _ _ _ L1 L2).
  - intros i. rewrite C2, !C1, Nat.eqb_refl.
    now destruct (Nat.eqb i el).
Qed.

Lemma ret_updates (el : nat) : updates (ret tt) el (fun cl => cl).
Proof.
  intros s. exists s. split; [reflexivity|].
  repeat split. intros i. destruct (Nat.eqb i el) eqn:E; auto.
  apply Nat.eqb_eq in E. now subst.
Qed.

(** [forEach] over elements, each rewriting its own class list: element
    [i] is rewritten once for each of its occurrences in the list. *)
Lemma forEach_updates (body : nat -> H unit) (g : nat -> list jsstring -> list jsstring)
    (l : list nat) :
  (forall x, updates (body x) x (g x)) ->
  forall s, exists s',
    forEach l body s = (Some tt, s') /\
    defaultPrevented s' = defaultPrevented s /\
    scrolls s' = scrolls s /\
    same_lookups (page s) (page s') /\
    forall i, classes (page s') i
              = Nat.iter (count_occ Nat.eq_dec l i) (g i) (classes (page s) i).
Proof.
  intros Hbody. induction l as [|x l IH]; intros s.
  - exists s. split; [reflexivity|]. repeat split.
  - simpl forEach. unfold bind.
    destruct (Hbody x s) as (s1 & -> & P1 & S1 & L1 & C1).
    destruct (IH s1) as (s2 & -> & P2 & S2 & L2 & C2).
    exists s2. split; [reflexivity|].
    split; [congruence|]. split; [congruence|].
    split; [apply (same_lookups_trans _ _ _ L1 L2)|].
    intros i. rewrite C2, C1. simpl.
    destruct (Nat.eq_dec x i) as [->|Hne].
    + rewrite Nat.eqb_refl. now rewrite Nat.iter_succ_r.
    + destruct (Nat.eqb i x) eqn:E; auto.
      apply Nat.eqb_eq in E. congruence.
Qed.

Lemma contains_toggle (tok t : jsstring) (cl : list jsstring) :
  classList_contains t (classList_toggle tok cl)
    = xorb (classList_contains t cl) (eqb tok t).
Proof.
  unfold classList_toggle.
  destruct (eqb tok t) eqn:E.
  - apply eqb_eq in E. subst t.
    destruct (classList_contains tok cl) eqn:C.
    + now rewrite contains_remove.
    + now rewrite contains_add.
  - assert (Hne : t <> tok) by (intros ->; rewrite (proj2 (eqb_eq tok tok) eq_refl) in E; discriminate).
    rewrite xorb_false_r.
    destruct (classList_contains tok cl);
      [now apply contains_remove_other | now apply contains_add_other].
Qed.

Lemma contains_iter_toggle (tok t : jsstring) (n : nat) (cl : list jsstring) :
  classList_contains t (Nat.iter n (classList_toggle tok) cl)
    = xorb (classList_contains t cl) (Nat.odd n && eqb tok t).
Proof.
  induction n as [|n IH].
  - simpl. now rewrite xorb_false_r.
  - rewrite Nat.iter_succ, contains_toggle, IH, Nat.odd_succ, <- Nat.negb_odd.
    destruct (classList_contains t cl), (Nat.odd n), (eqb tok t); reflexivity.
Qed.

Lemma contains_iter_remove_other (tok t : jsstring) (n : nat) (cl : list jsstring) :
  t <> tok ->
  classList_contains t (Nat.iter n (classList_remove tok) cl) = classList_contains t cl.
Proof.
  intros Hne. induction n as [|n IH]; auto.
  rewrite Nat.iter_succ, contains_remove_other by exact Hne. exact IH.
Qed.

Lemma contains_iter_remove (tok : jsstring) (n : nat) (cl : list jsstring) :
  (0 < n)%nat ->
  classList_contains tok (Nat.iter n (classList_remove tok) cl) = false.
Proof.
  destruct n as [|n]; [lia|]. intros _.
  rewrite Nat.iter_succ. apply contains_remove.
Qed.

(** *** The menu toggle *)

Lemma menu_click_without_menu (d : dom) :
  navLinks d = None -> menu_click d = d.
Proof.
  intros H. unfold menu_click, onMenuToggleClick, get_dom, bind. simpl.
  now rewrite H.
Qed.

Lemma menu_click_with_menu (d : dom) (n : nat) :
  navLinks d = Some n ->
  same_lookups d (menu_click d) /\
  forall i t,
    has_class (menu_click d) i t
      = xorb (xorb (has_class d i t) (Nat.eqb i n && eqb show t))
             (Nat.odd (count_occ Nat.eq_dec (bars d) i) && eqb animate t).
Proof.
  intros Hn. unfold menu_click, onMenuToggleClick, get_dom, toggle_class.
  unfold bind, ret. simpl. rewrite Hn. simpl.
  match goal with |- context [forEach _ _ ?s] => set (s1 := s) end.
  destruct (forEach_updates (fun bar => toggle_class bar animate)
              (fun _ => classList_toggle animate) (bars d)
              (fun x => toggle_class_updates x animate) s1)
    as (s2 & E & _ & _ & L & C).
  unfold toggle_class in E. rewrite E. simpl. split.
  - exact L.
  - intros i t. unfold has_class. rewrite C, contains_iter_toggle. simpl.
    destruct (Nat.eqb i n) eqn:Ei; simpl.
    + apply Nat.eqb_eq in Ei. subst i. now rewrite contains_toggle.
    + now rewrite xorb_false_r.
Qed.

(** One click on the menu toggle flips [show] on the menu; a second
    click undoes the first: after two clicks every element carries
    exactly the classes it carried before. *)
Theorem menu_toggle_twice_restores (d : dom) :
  (forall n, navLinks d = Some n ->
             has_class (menu_click d) n show = negb (has_class d n show)) /\
  (forall i t, has_class (menu_click (menu_click d)) i t = has_class d i t).
Proof.
  split.
  - intros n Hn. destruct (menu_click_with_menu d n Hn) as [_ H].
    rewrite H, Nat.eqb_refl.
    replace (eqb show show) with true by reflexivity.
    replace (eqb animate show) with false by reflexivity.
    rewrite andb_false_r. now destruct (has_class d n show).
  - intros i t. destruct (navLinks d) as [n|] eqn:Hn.
    + destruct (menu_click_with_menu d n Hn) as [(L1 & L2 & _) H].
      assert (Hn' : navLinks (menu_click d) = Some n) by congruence.
      destruct (menu_click_with_menu (menu_click d) n Hn') as [_ H'].
      rewrite H', H, L2.
      destruct (has_class d i t), (Nat.eqb i n && eqb show t),
        (Nat.odd (count_occ Nat.eq_dec (bars d) i) && eqb animate t); reflexivity.
    + now rewrite !menu_click_without_menu by
        (try rewrite menu_click_without_menu; assumption).
Qed.

(** *** The anchors *)

(** A click on a link with an [href] other than [#] whose target is on
    the page, when the menu exists. *)
Lemma click_found (this : nat) (href : jsstring) (d : dom) (n tg : nat) :
  navLinks d = Some n ->
  eqb href (str "#") = false ->
  querySelector d href = Found tg ->
  exists s',
    click this href d = (Some tt, s') /\
    defaultPrevented s' = true /\
    scrolls s' = [offsetTop d tg - 90] /\
    forall i,
      classes (page s') i =
        (if Nat.eqb i this then classList_add active else fun cl => cl)
          (Nat.iter (count_occ Nat.eq_dec (nav_anchors d) i) (classList_remove active)
             (if Nat.eqb i n then classList_remove show (classes d n) else classes d i)).
Proof.
  intros Hn Hh Hq.
  unfold click, onAnchorClick, preventDefault, get_dom, scrollTo.
  unfold when, bind, ret, throw. simpl. rewrite Hn. simpl.
  assert (Hstep : forall s1,
            defaultPrevented s1 = true -> scrolls s1 = [offsetTop d tg - 90] ->
            (forall i, classes (page s1) i
                       = if Nat.eqb i n then classList_remove show (classes d n)
                         else classes d i) ->
            exists s',
              match forEach (nav_anchors d)
                      (fun link => remove_class link active) s1 with
              | (Some _, w1) => add_class this active w1
              | (None, w1) => (None, w1)
              end = (Some tt, s') /\
              defaultPrevented s' = true /\
              scrolls s' = [offsetTop d tg - 90] /\
              forall i,
                classes (page s') i =
                  (if Nat.eqb i this then classList_add active else fun cl => cl)
                    (Nat.iter (count_occ Nat.eq_dec (nav_anchors d) i)
                       (classList_remove active)
                       (if Nat.eqb i n then classList_remove show (classes d n)
                        else classes d i))).
  { intros s1 P1 S1 C1.
    destruct (forEach_updates (fun link => remove_class link active)
                (fun _ => classList_remove active) (nav_anchors d)
                (fun x => remove_class_updates x active) s1)
      as (s2 & E & P2 & S2 & _ & C2).
    rewrite E. eexists. split; [reflexivity|]. simpl.
    split; [congruence|]. split; [congruence|].
    intros i. rewrite !C2, !C1.
    destruct (Nat.eqb i this) eqn:Ei; auto.
    apply Nat.eqb_eq in Ei. now subst i. }
  destruct (classList_contains show (classes d n)) eqn:Hshow; simpl;
    rewrite Hh; simpl; rewrite Hq; simpl.
  - apply Hstep; auto.
  - apply Hstep; auto. intros i.
    destruct (Nat.eqb i n) eqn:Ei; auto.
    apply Nat.eqb_eq in Ei. subst i. now rewrite remove_absent.
Qed.

(** A click on a link with [href] [#], or whose target is not on the
    page, when the menu exists: the handler completes after closing the
    menu. *)
Lemma click_no_target (this : nat) (href : jsstring) (d : dom) (n : nat) :
  navLinks d = Some n ->
  eqb href (str "#") = true \/ querySelector d href = Null ->
  exists s',
    click this href d = (Some tt, s') /\
    defaultPrevented s' = true /\
    scrolls s' = [] /\
    forall i,
      classes (page s') i =
        if Nat.eqb i n then classList_remove show (classes d n) else classes d i.
Proof.
  intros Hn Hcase.
  unfold click, onAnchorClick, preventDefault, get_dom.
  unfold when, bind, ret, throw. simpl. rewrite Hn. simpl.
  destruct (classList_contains show (classes d n)) eqn:Hshow; simpl;
    (destruct (eqb href (str "#")) eqn:Hh;
     [|destruct Hcase as [Hcase | Hcase]; [discriminate|]; simpl; rewrite Hcase]);
    eexists; (split; [reflexivity|]); simpl; repeat split; auto;
    intros i; destruct (Nat.eqb i n) eqn:Ei; auto;
    apply Nat.eqb_eq in Ei; subst i; now rewrite remove_absent.
Qed.

(** A click on a link whose [href] is not a valid selector, when the
    menu exists: the handler throws after closing the menu. *)
Lemma click_bad_selector (this : nat) (href : jsstring) (d : dom) (n : nat) :
  navLinks d = Some n ->
  eqb href (str "#") = false ->
  querySelector d href = SyntaxError ->
  exists s',
    click this href d = (None, s') /\
    defaultPrevented s' = true /\
    scrolls s' = [] /\
    forall i,
      classes (page s') i =
        if Nat.eqb i n then classList_remove show (classes d n) else classes d i.
Proof.
  intros Hn Hh Hq.
  unfold click, onAnchorClick, preventDefault, get_dom.
  unfold when, bind, ret, throw. simpl. rewrite Hn. simpl.
  destruct (classList_contains show (classes d n)) eqn:Hshow; simpl;
    rewrite Hh; simpl; rewrite Hq;
    eexists; (split; [reflexivity|]); simpl; repeat split; auto;
    intros i; destruct (Nat.eqb i n) eqn:Ei; auto;
    apply Nat.eqb_eq in Ei; subst i; now rewrite remove_absent.
Qed.

Lemma click_without_menu (this : nat) (href : jsstring) (d : dom) :
  navLinks d = None ->
  click this href d =
    (None, {| page := d; defaultPrevented := true; scrolls := [] |}).
Proof.
  intros Hn. unfold click, onAnchorClick, preventDefault, get_dom.
  unfold bind, throw. simpl. now rewrite Hn.
Qed.

(** The four ways a click can go. *)
Lemma click_cases (this : nat) (href : jsstring) (d : dom) (n : nat) :
  navLinks d = Some n ->
  exists s',
    snd (click this href d) = s' /\
    defaultPrevented s' = true /\
    forall i,
      classes (page s') i =
        (if Nat.eqb i n then classList_remove show (classes d n) else classes d i)
      \/
      classes (page s') i =
        (if Nat.eqb i this then classList_add active else fun cl => cl)
          (Nat.iter (count_occ Nat.eq_dec (nav_anchors d) i) (classList_remove active)
             (if Nat.eqb i n then classList_remove show (classes d n) else classes d i)).
Proof.
  intros Hn.
  destruct (eqb href (str "#")) eqn:Hh.
  - destruct (click_no_target this href d n Hn (or_introl Hh)) as (s' & E & P & _ & C).
    exists s'. rewrite E. repeat split; auto.
  - destruct (querySelector d href) as [tg| |] eqn:Hq.
    + destruct (click_found this href d n tg Hn Hh Hq) as (s' & E & P & _ & C).
      exists s'. rewrite E. repeat split; auto.
    + destruct (click_no_target this href d n Hn (or_intror Hq)) as (s' & E & P & _ & C).
      exists s'. rewrite E. repeat split; auto.
    + destruct (click_bad_selector this href d n Hn Hh Hq) as (s' & E & P & _ & C).
      exists s'. rewrite E. repeat split; auto.
Qed.

(** Whatever link is clicked, the default action is prevented and the
    menu is closed: after the click [#navLinks] does not carry [show],
    also when the handler throws on a bad selector. *)
Theorem anchor_click_always_closes_menu (this : nat) (href : jsstring) (d : dom) :
  defaultPrevented (snd (click this href d)) = true /\
  (forall n, navLinks d = Some n ->
             has_class (page (snd (click this href d))) n show = false).
Proof.
  destruct (navLinks d) as [n|] eqn:Hn.
  - destruct (click_cases this href d n Hn) as (s' & <- & P & C).
    split; [exact P|]. intros m [= <-]. unfold has_class.
    destruct (C n) as [E | E]; rewrite E, Nat.eqb_refl.
    + apply contains_remove.
    + assert (Hclean : classList_contains show
                (Nat.iter (count_occ Nat.eq_dec (nav_anchors d) n)
                   (classList_remove active) (classList_remove show (classes d n)))
              = false).
      { rewrite contains_iter_remove_other by discriminate. apply contains_remove. }
      destruct (Nat.eqb n this); auto.
      rewrite contains_add_other by discriminate. exact Hclean.
  - rewrite (click_without_menu this href d Hn). split; [reflexivity|]. discriminate.
Qed.

(** On a page that has [#navLinks], a click on a link (other than
    [#]) to an element of the page scrolls to 90 pixels above that
    element and makes the clicked link the one active link: it carries
    [active], no other link of the menu does, and elements that are
    neither keep [active] as they had it. *)
Theorem anchor_click_marks_the_clicked_link
    (this : nat) (href : jsstring) (d : dom) (n tg : nat) :
  navLinks d = Some n ->
  eqb href (str "#") = false ->
  querySelector d href = Found tg ->
  fst (click this href d) = Some tt /\
  scrolls (snd (click this href d)) = [offsetTop d tg - 90] /\
  has_class (page (snd (click this href d))) this active = true /\
  (forall l, In l (nav_anchors d) -> l <> this ->
             has_class (page (snd (click this href d))) l active = false) /\
  (forall i, ~ In i (nav_anchors d) -> i <> this ->
             has_class (page (snd (click this href d))) i active = has_class d i active).
Proof.
  intros Hn Hh Hq.
  destruct (click_found this href d n tg Hn Hh Hq) as (s' & E & _ & S & C).
  rewrite E. simpl. split; [reflexivity|]. split; [exact S|].
  unfold has_class. repeat split.
  - rewrite C, Nat.eqb_refl. apply contains_add.
  - intros l Hl Hne. rewrite C.
    replace (Nat.eqb l this) with false by (symmetry; now apply Nat.eqb_neq).
    apply contains_iter_remove.
    apply (count_occ_In Nat.eq_dec). exact Hl.
  - intros i Hi Hne. rewrite C.
    replace (Nat.eqb i this) with false by (symmetry; now apply Nat.eqb_neq).
    rewrite (proj1 (count_occ_not_In Nat.eq_dec _ _) Hi). simpl.
    destruct (Nat.eqb i n) eqn:Ei; auto.
    apply Nat.eqb_eq in Ei. subst i.
    apply contains_remove_other. discriminate.
Qed.

(** A click on a link whose target is not found on the page (no such
    element, or an [href] that is no valid selector) scrolls nowhere and
    changes no class but [show]. *)
Theorem anchor_click_without_target_changes_no_link
    (this : nat) (href : jsstring) (d : dom) :
  (forall tg, querySelector d href <> Found tg) ->
  scrolls (snd (click this href d)) = [] /\
  (forall i t, t <> show ->
               has_class (page (snd (click this href d))) i t = has_class d i t).
Proof.
  intros Hq.
  assert (Hkeep : forall s' n,
            (forall i, classes (page s') i =
                       if Nat.eqb i n then classList_remove show (classes d n)
                       else classes d i) ->
            forall i t, t <> show -> has_class (page s') i t = has_class d i t).
  { intros s' n C i t Ht. unfold has_class. rewrite C.
    destruct (Nat.eqb i n) eqn:Ei; auto.
    apply Nat.eqb_eq in Ei. subst i. now apply contains_remove_other. }
  destruct (navLinks d) as [n|] eqn:Hn.
  - destruct (eqb href (str "#")) eqn:Hh.
    + destruct (click_no_target this href d n Hn (or_introl Hh)) as (s' & E & _ & S & C).
      rewrite E. simpl. split; [exact S|]. now apply (Hkeep s' n).
    + destruct (querySelector d href) as [tg| |] eqn:Hq'.
      * now destruct (Hq tg).
      * destruct (click_no_target this href d n Hn (or_intror Hq')) as (s' & E & _ & S & C).
        rewrite E. simpl. split; [exact S|]. now apply (Hkeep s' n).
      * destruct (click_bad_selector this href d n Hn Hh Hq') as (s' & E & _ & S & C).
        rewrite E. simpl. split; [exact S|]. now apply (Hkeep s' n).
  - rewrite (click_without_menu this href d Hn). simpl. now split.
Qed.

(** *** The scroll highlight *)

Lemma highlight_body_updates (c : bool) (link : nat) :
  updates (bind (remove_class link active)
             (fun _ => when c (add_class link active)))
    link
    (fun cl => if c then classList_add active (classList_remove active cl)
               else classList_remove active cl).
Proof.
  destruct c; simpl.
  - apply (updates_then _ _ link (classList_remove active) (classList_add active));
      [apply remove_class_updates | apply add_class_updates].
  - apply (updates_then _ _ link (classList_remove active) (fun cl => cl));
      [apply remove_class_updates | apply ret_updates].
Qed.

Lemma contains_iter_highlight (c : bool) (t : jsstring) (n : nat) (cl : list jsstring) :
  classList_contains t
    (Nat.iter n (fun cl => if c then classList_add active (classList_remove active cl)
                           else classList_remove active cl) cl)
  = if eqb active t then (if (0 <? n)%nat then c else classList_contains t cl)
    else classList_contains t cl.
Proof.
  induction n as [|n IH].
  - simpl. now destruct (eqb active t).
  - rewrite Nat.iter_succ. destruct (eqb active t) eqn:E.
    + apply eqb_eq in E. subst t. simpl.
      destruct c; [apply contains_add | apply contains_remove].
    + assert (Hne : t <> active)
        by (intros ->; rewrite (proj2 (eqb_eq active active) eq_refl) in E; discriminate).
      destruct c.
      * rewrite contains_add_other, contains_remove_other by exact Hne. exact IH.
      * rewrite contains_remove_other by exact Hne. exact IH.
Qed.

(** After the scroll listener has run, a link of the menu carries
    [active] exactly when its [href] is the [current] hash, the one of
    the section in view; no other class and no other element is
    touched. *)
Theorem scroll_highlights_links_of_current_section
    (sections : list section) (href : nat -> option jsstring) (y : Z) (d : dom) :
  (forall l, In l (nav_anchors d) ->
             has_class (highlight sections href y d) l active
               = href_is href (current y sections) l) /\
  (forall i t, t <> active ->
               has_class (highlight sections href y d) i t = has_class d i t) /\
  (forall i, ~ In i (nav_anchors d) ->
             classes (highlight sections href y d) i = classes d i).
Proof.
  set (s0 := {| page := d; defaultPrevented := false; scrolls := [] |}).
  destruct (forEach_updates
              (fun link => bind (remove_class link active)
                             (fun _ => when (href_is href (current y sections) link)
                                         (add_class link active)))
              (fun link cl => if href_is href (current y sections) link
                              then classList_add active (classList_remove active cl)
                              else classList_remove active cl)
              (nav_anchors d)
              (fun x => highlight_body_updates _ x) s0)
    as (s1 & E & _ & _ & _ & C).
  assert (Hh : highlight sections href y d = page s1).
  { unfold highlight, onWindowScroll, get_dom. unfold bind at 1.
    fold s0. change (nav_anchors (page s0)) with (nav_anchors d).
    now rewrite E. }
  rewrite Hh. unfold has_class. simpl in C. split; [|split].
  - intros l Hl. rewrite C, contains_iter_highlight.
    replace (eqb active active) with true by reflexivity.
    apply (count_occ_In Nat.eq_dec) in Hl.
    now replace (0 <? count_occ Nat.eq_dec (nav_anchors d) l)%nat with true
      by (symmetry; apply Nat.ltb_lt; exact Hl).
  - intros i t Ht. rewrite C, contains_iter_highlight.
    destruct (eqb active t) eqn:Et; auto.
    apply eqb_eq in Et. congruence.
  - intros i Hi. rewrite C.
    now rewrite (proj1 (count_occ_not_In Nat.eq_dec _ _) Hi).
Qed.

Lemma last_some (l : list section) :
  l <> [] -> exists x, last (map Some l) None = Some x.
Proof.
  induction l as [|a l IH]; [contradiction|]. intros _.
  destruct l as [|b l]; [now exists a|].
  change (last (map Some (a :: b :: l)) None) with (last (map Some (b :: l)) (@None section)).
  apply IH. discriminate.
Qed.

Lemma current_from (y : Z) (sections : list section) :
  forall acc,
    fold_left (fun cur sec => if in_view y sec then hash_of (section_id sec) else cur)
      sections acc
    = match section_in_view y sections with
      | Some sec => hash_of (section_id sec)
      | None => acc
      end.
Proof.
  unfold section_in_view.
  induction sections as [|sec l IH]; intros acc; simpl; auto.
  rewrite IH. destruct (in_view y sec); auto.
  destruct (filter (in_view y) l) as [|s0 l0]; [reflexivity|].
  change (last (map Some (sec :: s0 :: l0)) None)
    with (last (map Some (s0 :: l0)) (@None section)).
  destruct (last_some (s0 :: l0)) as [x ->]; [discriminate|]. reflexivity.
Qed.

(** The [current] hash is the one of the last section, in document
    order, whose band (from 100 pixels above its top, for its height)
    holds the scroll position: of two sections in view the later one
    wins; with no section in view it is the empty string. *)
Theorem current_is_last_section_in_view (y : Z) (sections : list section) :
  current y sections
    = match section_in_view y sections with
      | Some sec => hash_of (section_id sec)
      | None => []
      end.
Proof. apply current_from. Qed.

(** *** Loading the script *)

Lemma forEach_addEventListener {X : Type} (f : X -> listener) (l : list X) :
  forall ls,
    forEach l (fun x => addEventListener (f x)) ls = (Some tt, ls ++ map f l).
Proof.
  induction l as [|x l IH]; intros ls; simpl.
  - now rewrite app_nil_r.
  - unfold bind, addEventListener at 1. rewrite IH. now rewrite <- app_assoc.
Qed.

(** What loading the script gives. *)
Lemma load_cases (d : dom) :
  load d =
    match menuToggle d with
    | None => (None, [])
    | Some _ =>
        match closeModal d with
        | None =>
            (None,
             MenuToggleClick
               :: map (fun a => AnchorClick (fst a)) (anchors d)
               ++ map GalleryClick (galleryItems d))
        | Some _ =>
            (Some tt,
             (MenuToggleClick
                :: map (fun a => AnchorClick (fst a)) (anchors d)
                ++ map GalleryClick (galleryItems d))
             ++ [CloseModalClick; WindowClick]
             ++ (match contactForm d with Some _ => [FormSubmit] | None => [] end)
             ++ [WindowScroll])
        end
    end.
Proof.
  unfold load, script, on.
  destruct (menuToggle d); [|reflexivity].
  unfold bind at 1. unfold addEventListener at 1. simpl app.
  unfold bind at 1. rewrite forEach_addEventListener.
  unfold bind at 1. rewrite forEach_addEventListener.
  destruct (closeModal d); [|now rewrite <- app_assoc].
  unfold bind, addEventListener, when, ret.
  destruct (contactForm d); simpl; rewrite <- !app_assoc; reflexivity.
Qed.

(** The script runs to its end exactly when the page has [#menuToggle]
    and [.close-modal]; only then are the scroll highlight and, if the
    page has [#contactForm], the form's submit listener installed. *)
Theorem script_loads_iff_toggle_and_close_button (d : dom) :
  (fst (load d) = Some tt <-> menuToggle d <> None /\ closeModal d <> None) /\
  (In WindowScroll (snd (load d)) <-> fst (load d) = Some tt) /\
  (In FormSubmit (snd (load d)) <-> fst (load d) = Some tt /\ contactForm d <> None).
Proof.
  rewrite load_cases.
  set (pre := MenuToggleClick
                :: map (fun a => AnchorClick (fst a)) (anchors d)
                ++ map GalleryClick (galleryItems d)).
  assert (Hpre : forall x, x = WindowScroll \/ x = FormSubmit -> ~ In x pre).
  { intros x Hx [E | Hin].
    - destruct Hx; subst x; discriminate.
    - apply in_app_or in Hin. destruct Hin as [Hin | Hin];
        apply in_map_iff in Hin; destruct Hin as (a & E & _);
        destruct Hx; subst x; discriminate. }
  pose proof (Hpre WindowScroll (or_introl eq_refl)) as Hws.
  pose proof (Hpre FormSubmit (or_intror eq_refl)) as Hfs.
  clearbody pre.
  destruct (menuToggle d) as [m|]; [destruct (closeModal d) as [c|]|]; cbn [fst snd].
  - split; [|split].
    + split; [intros _; split; discriminate | reflexivity].
    + split; [reflexivity|]. intros _.
      rewrite !in_app_iff. right. right. right. now left.
    + rewrite !in_app_iff. destruct (contactForm d) as [f|]; simpl; split.
      * intros _. split; [reflexivity | discriminate].
      * intros _. right. right. left. now left.
      * intros [H | [[H | [H | []]] | [[] | [H | []]]]];
          try discriminate; contradiction.
      * intros [_ H]. contradiction.
  - split; [|split].
    + split; [discriminate | intros [_ H]; contradiction].
    + split; [intros H; contradiction | discriminate].
    + split; [intros H; contradiction | intros [H _]; discriminate].
  - split; [|split].
    + split; [discriminate | intros [H _]; contradiction].
    + split; [intros [] | discriminate].
    + split; [intros [] | intros [H _]; discriminate].
Qed.

End NavFacts.

(* ------------------------------------------------------------------ *)
(** ** What [DOMContentLoaded] installs                                *)
(* ------------------------------------------------------------------ *)

Section LoadedFacts.
Import Stmt.
Import Init.

(** The statement completes and installs things other than the form's
    submit listener. *)
Local Abbreviation quiet m :=
  (forall l : list installed,
      exists items, m l = (Some tt, l ++ items) /\ ~ In FormSubmit items).

Lemma quiet_ret : quiet (@ret (list installed) unit tt).
Proof. intros l. exists []. split; [now rewrite app_nil_r | intros []]. Qed.

Lemma quiet_install (x : installed) : x <> FormSubmit -> quiet (install x).
Proof.
  intros Hx l. exists [x]. split; [reflexivity|].
  intros [E | []]. congruence.
Qed.

Lemma quiet_bind (m k : Init.M unit) :
  quiet m -> quiet k -> quiet (bind m (fun _ => k)).
Proof.
  intros Hm Hk l. unfold bind.
  destruct (Hm l) as (i1 & -> & N1). destruct (Hk (l ++ i1)) as (i2 & -> & N2).
  exists (i1 ++ i2). split; [now rewrite app_assoc|].
  intros Hin. apply in_app_or in Hin. tauto.
Qed.

Lemma quiet_forEach {X : Type} (body : X -> Init.M unit) (xs : list X) :
  (forall x, quiet (body x)) -> quiet (forEach xs body).
Proof.
  intros Hb. induction xs as [|x xs IH]; simpl.
  - apply quiet_ret.
  - now apply quiet_bind.
Qed.

Lemma quiet_guarded (c : bool) (x : installed) :
  x <> FormSubmit ->
  quiet (try_catch (if c then install x else throw) (install ConsoleError)).
Proof.
  intros Hx. destruct c.
  - now apply quiet_install.
  - apply (quiet_install ConsoleError). discriminate.
Qed.

Lemma rest_quiet (e : env) :
  quiet (bind (initCounters e) (fun _ =>
         bind (initLightbox e) (fun _ =>
         bind (initSmoothScrolling e) (fun _ =>
         bind (initBackToTop e) (fun _ =>
         bind (initStickyHeader e) (fun _ =>
         bind (initMobileMenu e) (fun _ =>
         bind (initAnimations e) (fun _ =>
         bind (initTestimonialCarousel e) (fun _ =>
         initHoverDropdowns e))))))))).
Proof.
  unfold initCounters, initLightbox, initSmoothScrolling, initBackToTop,
    initStickyHeader, initMobileMenu, initAnimations, initTestimonialCarousel,
    initHoverDropdowns.
  repeat (apply quiet_bind);
    repeat match goal with
      | |- context [if ?c then _ else _] => destruct c
      end;
    repeat first
      [ apply quiet_ret
      | apply quiet_bind
      | apply quiet_forEach; intros ?
      | apply quiet_install; discriminate
      | apply (quiet_guarded true); discriminate
      | apply (quiet_guarded false); discriminate ].
Qed.

Lemma loaded_result (e : env) :
  AOS_loaded e = true ->
  exists i1 i2,
    onDOMContentLoaded e [] =
      (Some tt,
       (([AOSInit] ++ i1) ++ (if contactForm e then [FormSubmit] else [])) ++ i2) /\
    ~ In FormSubmit i1 /\ ~ In FormSubmit i2.
Proof.
  intros HA.
  destruct (quiet_guarded (emailjs_loaded e) EmailJSInit ltac:(discriminate) [AOSInit])
    as (i1 & E1 & N1).
  destruct (rest_quiet e (([AOSInit] ++ i1) ++ (if contactForm e then [FormSubmit] else [])))
    as (i2 & E2 & N2).
  assert (E : initContactForm e ([AOSInit] ++ i1)
              = (Some tt, ([AOSInit] ++ i1) ++ (if contactForm e then [FormSubmit] else []))).
  { unfold initContactForm. destruct (contactForm e); simpl; [reflexivity|].
    unfold ret. now rewrite app_nil_r. }
  exists i1, i2. split; [|now split].
  unfold onDOMContentLoaded. rewrite HA.
  unfold bind at 1. unfold install at 1. cbn [app].
  unfold bind at 1. unfold initEmailJS. rewrite E1.
  unfold bind at 1. rewrite E. exact E2.
Qed.

(** The [DOMContentLoaded] listener runs to its end exactly when the
    animation library is loaded: without it the first statement throws
    and nothing at all is installed, the form's submit listener
    included; with it, that listener is installed exactly when the page
    has [#contactForm], whatever else is missing or fails. *)
Theorem domContentLoaded_needs_animation_library (e : env) :
  (fst (onDOMContentLoaded e []) = Some tt <-> AOS_loaded e = true) /\
  (AOS_loaded e = false -> onDOMContentLoaded e [] = (None, [])) /\
  (In FormSubmit (snd (onDOMContentLoaded e []))
   <-> AOS_loaded e = true /\ contactForm e = true).
Proof.
  destruct (AOS_loaded e) eqn:HA.
  - destruct (loaded_result e HA) as (i1 & i2 & -> & N1 & N2). cbn [fst snd].
    split; [tauto|]. split; [discriminate|].
    rewrite !in_app_iff. destruct (contactForm e); simpl; split.
    + tauto.
    + intros _. left. right. now left.
    + intros [[[[H | []] | H] | []] | H]; try discriminate; contradiction.
    + intros [_ H]. discriminate.
  - assert (E : onDOMContentLoaded e [] = (None, [])).
    { unfold onDOMContentLoaded. rewrite HA. reflexivity. }
    rewrite E. cbn [fst snd].
    split; [split; discriminate|]. split; [reflexivity|].
    split; [intros [] | intros [H _]; discriminate].
Qed.

End LoadedFacts.

(* ------------------------------------------------------------------ *)
(** ** The hover dropdowns                                             *)
(* ------------------------------------------------------------------ *)

Section HoverFacts.
Import Js.
Import Hover.

Variable innerWidth : Z.
Variable has_menu : bool.
Variable timer_first : bool.

Local Abbreviation hover := (Hover.hover innerWidth has_menu timer_first).
Local Abbreviation after_hovering := (Hover.after_hovering innerWidth has_menu timer_first).
Local Abbreviation handleDropdownHover := (Hover.handleDropdownHover innerWidth has_menu).
Local Abbreviation replay :=
  (fold_left (fun (dd' : dropdown) (x : Z * bool) => toggle_shown (snd x) dd')).

Lemma insert_keeps_last (y x : Debounce.timer bool) (l : list (Debounce.timer bool)) :
  Debounce.due y <= Debounce.due x ->
  exists l', Debounce.insert_by_due bool y (l ++ [x]) = l' ++ [x].
Proof.
  intros Hy. induction l as [|z l [l' IH]]; simpl.
  - replace (Debounce.due y <=? Debounce.due x) with true
      by (symmetry; now apply Z.leb_le).
    now exists [y].
  - destruct (Debounce.due y <=? Debounce.due z).
    + now exists (y :: z :: l).
    + rewrite IH. now exists (z :: l').
Qed.

Lemma sort_keeps_last (x : Debounce.timer bool) (l : list (Debounce.timer bool)) :
  (forall y, In y l -> Debounce.due y <= Debounce.due x) ->
  exists l', Debounce.sort_by_due bool (l ++ [x]) = l' ++ [x].
Proof.
  unfold Debounce.sort_by_due. rewrite fold_right_app. simpl.
  induction l as [|y l IH]; intros Hl; simpl.
  - now exists [].
  - destruct IH as [l' IH]; [intros z Hz; apply Hl; now right|].
    rewrite IH. apply insert_keeps_last. apply Hl. now left.
Qed.

Lemma elapse_invoked (t : Z) (w : Debounce.window bool) :
  exists fired,
    Debounce.invoked (Debounce.elapse bool timer_first t w) = Debounce.invoked w ++ fired.
Proof.
  unfold Debounce.elapse.
  destruct (partition (Debounce.is_due bool timer_first t) (Debounce.pending w)).
  simpl. eauto.
Qed.

Lemma skipn_appended {X : Type} (l l' : list X) :
  skipn (List.length l) (l ++ l') = l'.
Proof. now rewrite skipn_app, skipn_all, Nat.sub_diag. Qed.

Lemma handler_keeps_invoked (t : Z) (h : bool) (w : Debounce.window bool) :
  Debounce.invoked (handleDropdownHover t h w) = Debounce.invoked w.
Proof.
  unfold Hover.handleDropdownHover.
  destruct (innerWidth <=? 992); auto. now destruct (negb has_menu).
Qed.

Lemma hover_replayed (dd : dropdown) (v : view) (e : Z * bool) :
  replayed dd v -> replayed dd (hover v e).
Proof.
  unfold replayed, Hover.hover, Hover.run_fired. cbn [element table].
  intros Hv. rewrite handler_keeps_invoked.
  destruct (elapse_invoked (fst e) (table v)) as [fired ->].
  now rewrite skipn_appended, fold_left_app, <- Hv.
Qed.

Lemma hovers_replayed (dd : dropdown) (es : list (Z * bool)) :
  forall v, replayed dd v -> replayed dd (fold_left hover es v).
Proof.
  induction es as [|e es IH]; intros v Hv; simpl; auto.
  apply IH. now apply hover_replayed.
Qed.

Lemma settle_replayed (dd : dropdown) (v : view) :
  replayed dd v ->
  settle v = replay (Debounce.invoked (Debounce.drain (table v))) dd.
Proof.
  unfold replayed, settle, Hover.run_fired. intros Hv.
  unfold Debounce.drain. cbn [Debounce.invoked].
  now rewrite skipn_appended, fold_left_app, <- Hv.
Qed.

(** On a window no wider than 992 pixels, or for a dropdown without a
    [.dropdown-menu], hovering never changes anything. *)
Theorem hover_ignored_on_narrow_windows (dd : dropdown) (es : list (Z * bool)) :
  innerWidth <= 992 \/ has_menu = false ->
  after_hovering dd es = dd.
Proof.
  intros Hcase. unfold Hover.after_hovering.
  assert (Hidle : forall t h w, handleDropdownHover t h w = w).
  { intros t h w. unfold Hover.handleDropdownHover.
    destruct Hcase as [Hw | Hm].
    - now replace (innerWidth <=? 992) with true by (symmetry; now apply Z.leb_le).
    - rewrite Hm. simpl. now destruct (innerWidth <=? 992). }
  assert (Hfold : forall v,
            v = {| element := dd; table := Debounce.fresh_window |} ->
            fold_left hover es v = v).
  { induction es as [|e es IH]; intros v Hv; simpl; auto.
    assert (E : hover v e = v).
    { subst v. unfold Hover.hover. cbn [element table].
      rewrite Hidle, (elapse_idle bool timer_first (fst e) Debounce.fresh_window eq_refl).
      reflexivity. }
    rewrite E. now apply IH. }
  now rewrite (Hfold _ eq_refl).
Qed.

Lemma hover_latest (v : view) (e : Z * bool) (t : Z) :
  992 < innerWidth -> has_menu = true ->
  t <= fst e ->
  (forall y, In y (Debounce.pending (table v)) -> Debounce.due y <= t + 30) ->
  latest_pending (fst e) (snd e) (hover v e).
Proof.
  intros Hw Hm Ht Hb. unfold latest_pending, Hover.hover. cbn [table].
  unfold Hover.handleDropdownHover.
  replace (innerWidth <=? 992) with false by (symmetry; apply Z.leb_gt; lia).
  rewrite Hm. simpl.
  eexists. eexists. split; [reflexivity|]. simpl.
  repeat split.
  change (Debounce.timeout 30) with 30.
  intros y Hy. rewrite (elapse_pending bool timer_first) in Hy.
  apply filter_In in Hy. destruct Hy as [Hy _]. specialize (Hb y Hy). lia.
Qed.

Lemma latest_bound (v : view) (t : Z) (h : bool) :
  latest_pending t h v ->
  forall y, In y (Debounce.pending (table v)) -> Debounce.due y <= t + 30.
Proof.
  intros (l & tm & -> & Hd & _ & Hl) y Hy.
  apply in_app_or in Hy. destruct Hy as [Hy | [<- | []]].
  - rewrite <- Hd. now apply Hl.
  - lia.
Qed.

Lemma hovers_latest (es : list (Z * bool)) :
  992 < innerWidth -> has_menu = true ->
  forall (v : view) (e : Z * bool) (t : Z),
    t <= fst e ->
    (forall y, In y (Debounce.pending (table v)) -> Debounce.due y <= t + 30) ->
    chronological (e :: es) ->
    latest_pending (fst (last es e)) (snd (last es e)) (fold_left hover (e :: es) v).
Proof.
  intros Hw Hm. induction es as [|e' es IH]; intros v e t Ht Hb Hc.
  - simpl. now apply (hover_latest v e t).
  - pose proof (hover_latest v e t Hw Hm Ht Hb) as Hl.
    change (fold_left hover (e :: e' :: es) v)
      with (fold_left hover (e' :: es) (hover v e)).
    replace (last (e' :: es) e) with (last es e')
      by (clear; revert e'; induction es as [|x xs IHxs]; intros e'; auto;
          simpl; destruct xs; auto).
    destruct Hc as [Hle Hc].
    apply (IH (hover v e) e' (fst e)); auto.
    now apply (latest_bound _ _ (snd e)).
Qed.

(** On a wide window, once the pointer rests and the timers have run,
    the dropdown and its menu carry [show] exactly when the last hover
    event found the dropdown hovered: the timers are never cancelled and
    run in the order of the events. *)
Theorem hover_ends_as_last_event_found
    (dd : dropdown) (e : Z * bool) (es : list (Z * bool)) :
  992 < innerWidth -> has_menu = true ->
  chronological (e :: es) ->
  classList_contains show (menu_classes (after_hovering dd (e :: es))) = snd (last es e) /\
  classList_contains show (dropdown_classes (after_hovering dd (e :: es))) = snd (last es e).
Proof.
  intros Hw Hm Hc. unfold Hover.after_hovering.
  set (v0 := {| element := dd; table := Debounce.fresh_window |}).
  assert (Hr : replayed dd (fold_left hover (e :: es) v0))
    by (apply hovers_replayed; reflexivity).
  destruct (hovers_latest es Hw Hm v0 e (fst e) (Z.le_refl _)) as (l & tm & Hp & _ & Hh & Hl);
    [intros y [] | exact Hc |].
  rewrite (settle_replayed dd _ Hr).
  unfold Debounce.drain. cbn [Debounce.invoked]. rewrite Hp.
  destruct (sort_keeps_last tm l Hl) as [l' ->].
  rewrite map_app, app_assoc, fold_left_app. simpl.
  unfold Debounce.fire. simpl. rewrite Hh.
  unfold ScrollListeners.classList_toggle_force.
  destruct (snd (last es e)); split;
    first [apply contains_add | apply contains_remove].
Qed.

End HoverFacts.

(* ------------------------------------------------------------------ *)
(** ** The theorems at work                                            *)
(* ------------------------------------------------------------------ *)

(** A counter towards 9 has stopped after frame 202. *)
Lemma positive_target_stops_witness :
  Counter.parsed (S754_finite false 5066549580791808 (-49)) = true /\
  Counter.requested
    (Counter.frames 202 (Counter.animateCounter Counter.zero (Counter.of_Z 9) Counter.speed))
    = false.
Proof.
  split; [reflexivity|].
  exact (proj1 (proj2 (positive_target_stops_at_frame_201_or_202
                         Counter.zero 5066549580791808 (-49) eq_refl))).
Defined.

(** Half way to 9 the count still grows. *)
Lemma count_grows_witness :
  (100 < 200)%nat /\
  Counter.lt
    (Counter.count
       (Counter.frames 100 (Counter.animateCounter Counter.zero (Counter.of_Z 9) Counter.speed)))
    (Counter.count
       (Counter.frames 101 (Counter.animateCounter Counter.zero (Counter.of_Z 9) Counter.speed)))
    = true.
Proof.
  assert (H : (100 < 200)%nat) by lia.
  split; [exact H|].
  exact (count_grows_at_every_counting_frame
           Counter.zero 5066549580791808 (-49) 100 eq_refl H).
Defined.

(** A counter whose [data-count] is no number shows [NaN] at once. *)
Lemma target_not_above_zero_witness :
  Counter.innerText (Counter.frames 1
      (Counter.animateCounter Counter.zero S754_nan Counter.speed)) = S754_nan.
Proof.
  exact (proj1 (proj2 (target_not_above_zero_is_written_at_once
                         Counter.zero S754_nan eq_refl))).
Defined.

(** Towards the smallest positive double the animation is still
    running after a thousand frames. *)
Lemma zero_increment_witness :
  Counter.lt Counter.zero Counter.tiny = true /\
  Counter.div Counter.tiny Counter.speed = Counter.zero /\
  Counter.requested
    (Counter.frames 1000 (Counter.animateCounter Counter.zero Counter.tiny Counter.speed))
    = true.
Proof.
  split; [reflexivity|]. split; [reflexivity|].
  exact (proj1 (zero_increment_never_stops Counter.zero Counter.tiny Counter.speed 1000
                  eq_refl eq_refl)).
Defined.

(** The optional email input keeps its mark although the address is
    well-formed now. *)
Lemma optional_mark_witness :
  nth_error (snd (Form.validateForm [Submission.corrected_optional_email])) 0
    = Some Submission.corrected_optional_email.
Proof.
  exact (validateForm_keeps_mark_on_optional [Submission.corrected_optional_email] 0
           Submission.corrected_optional_email eq_refl eq_refl eq_refl).
Defined.

(** The complete page sends the values as typed. *)
Lemma trimmed_values_witness :
  filter Form.is_send (Form.trace (snd (Form.submit Form.Delivers Form.page_complete)))
    = [Form.Send {| Form.fd_name := Js.str "Ann";
                    Form.fd_email := Js.str "ann@example.org";
                    Form.fd_phone := [];
                    Form.fd_inquiry := Js.str "booking";
                    Form.fd_message := Js.str "Hello" |}].
Proof.
  exact (submission_sends_trimmed_values Form.Delivers Form.page_complete Form.send_button _
           eq_refl eq_refl eq_refl).
Defined.

(** After a failed send on the complete page the button is back. *)
Lemma restored_button_witness :
  Form.submitButton (Form.doc (snd (Form.submit Form.Fails Form.page_complete)))
    = Some Form.send_button.
Proof.
  exact (proj1 (submission_restores_button_and_form Form.Fails Form.page_complete
                  Form.send_button
                  {| Form.fd_name := Js.str "Ann";
                     Form.fd_email := Js.str "ann@example.org";
                     Form.fd_phone := [];
                     Form.fd_inquiry := Js.str "booking";
                     Form.fd_message := Js.str "Hello" |}
                  eq_refl eq_refl eq_refl)).
Defined.

(** Without the [phone] control the button stays in its loading state. *)
Lemma missing_input_witness :
  Submission.inputs_present (Form.controls Submission.page_without_phone) = false /\
  Form.submitButton (Form.doc (snd (Form.submit Form.Delivers Submission.page_without_phone)))
    = Some Submission.loading_button.
Proof.
  split; [reflexivity|].
  exact (proj1 (proj2 (proj2 (missing_input_leaves_button_loading Form.Delivers
                                Submission.page_without_phone Form.send_button
                                eq_refl eq_refl eq_refl)))).
Defined.

(** On the full page a click on the link to [#contact] scrolls to 510
    and takes [active] from the first link. *)
Lemma clicked_link_witness :
  Script.scrolls (snd (Script.click 3 (Js.str "#contact") Script.page_full)) = [510] /\
  Nav.has_class (Script.page (snd (Script.click 3 (Js.str "#contact") Script.page_full)))
    2 Script.active = false.
Proof.
  pose proof (anchor_click_marks_the_clicked_link 3 (Js.str "#contact") Script.page_full
                1 8 eq_refl eq_refl eq_refl) as H.
  split; [exact (proj1 (proj2 H))|].
  apply (proj1 (proj2 (proj2 (proj2 H)))); [now left | discriminate].
Defined.

(** On the full page a click on a link to a missing target scrolls
    nowhere. *)
Lemma missing_target_witness :
  Script.scrolls (snd (Script.click 3 (Js.str "#nowhere") Script.page_full)) = [].
Proof.
  refine (proj1 (anchor_click_without_target_changes_no_link 3 (Js.str "#nowhere")
                   Script.page_full _)).
  intros tg. discriminate.
Defined.

(** On a window of 800 pixels hovering leaves the dropdown closed. *)
Lemma narrow_hover_witness :
  800 <= 992 /\
  Hover.after_hovering 800 true true Hover.closed_dropdown [(0, true)]
    = Hover.closed_dropdown.
Proof.
  assert (H : 800 <= 992) by lia.
  split; [exact H|].
  exact (hover_ignored_on_narrow_windows 800 true true Hover.closed_dropdown
           [(0, true)] (or_introl H)).
Defined.

(** On a window of 1200 pixels, entering and then leaving ends with the
    menu hidden. *)
Lemma wide_hover_witness :
  992 < 1200 /\
  Hover.chronological [(0, true); (10, false)] /\
  Js.classList_contains Hover.show
    (Hover.menu_classes
       (Hover.after_hovering 1200 true false Hover.closed_dropdown [(0, true); (10, false)]))
    = false.
Proof.
  assert (H1 : 992 < 1200) by lia.
  assert (H2 : Hover.chronological [(0, true); (10, false)]).
  { unfold Hover.chronological; simpl; lia. }
  split; [exact H1|]. split; [exact H2|].
  exact (proj1 (hover_ends_as_last_event_found 1200 true false Hover.closed_dropdown
                  (0, true) [(10, false)] H1 eq_refl H2)).
Defined.
